(** * A model of the tlb coroutine scheduler (coroutine.c) and of the
      listener glue (server.c)

    The C code is embedded as executable functions over an explicit [world]:
    the kmalloc'ed coroutine objects, the coroutine threads, the words of
    stack memory the code reads and writes, and a log of the calls that leave
    the modelled code (allocation, context switches, user functions).
    A fatal [BUG_ON] and an access through a dangling pointer are results of
    their own, so that every function is total. *)

From stdpp Require Import gmap list strings.
From Stdlib Require Import ZArith Lia.

Local Open Scope Z_scope.

(** ** Results of fallible code *)

Inductive result (A : Type) : Type :=
| Ok (a : A)
| Bug      (* a BUG_ON assertion fired *)
| Fault    (* access through a pointer to no live object *)
| Spin.    (* a loop that can never leave *)
Arguments Ok {A} a.
Arguments Bug {A}.
Arguments Fault {A}.
Arguments Spin {A}.

#[global] Instance result_ret : MRet result := fun A a => Ok a.
#[global] Instance result_bind : MBind result := fun A B f m =>
  match m with
  | Ok a => f a
  | Bug => Bug
  | Fault => Fault
  | Spin => Spin
  end.

Definition BUG_ON (cond : bool) : result unit :=
  if cond then Bug else Ok tt.

Definition of_option {A} (o : option A) : result A :=
  match o with
  | Some a => Ok a
  | None => Fault
  end.

(** ** Machine integers *)

(** [ulong] is the 64-bit unsigned word of x86-64 (the code reads [rsp] and
    [rip]); [atomic_t] is a 32-bit signed counter that wraps. *)
Definition sizeof_ulong : Z := 8.
Definition ulong (x : Z) : Z := x mod 2 ^ 64.
Definition int32 (x : Z) : Z := (x + 2 ^ 31) mod 2 ^ 32 - 2 ^ 31.

Definition atomic_inc (v : Z) : Z := int32 (v + 1).
Definition atomic_dec_and_test (v : Z) : Z * bool :=
  let v' := int32 (v - 1) in (v', v' =? 0).
Definition atomic_inc_not_zero (v : Z) : Z * bool :=
  if v =? 0 then (v, false) else (int32 (v + 1), true).

Arguments ulong : simpl never.
Arguments int32 : simpl never.
Arguments atomic_inc : simpl never.
Arguments atomic_dec_and_test : simpl never.
Arguments atomic_inc_not_zero : simpl never.

(** What [kthread_create] returns. *)
Inductive kthread : Type :=
| Task (task : Z)
| ERR_PTR (err : Z).

(** ** Constants of coroutine.h *)

(** Modelled from the spec: coroutine.h is not among the sources, so its
    constants are parameters.  The trampoline shifts by
    COROUTINE_STACK_SHIFT where the spec masks with ~(STACK_SIZE - 1), hence
    COROUTINE_STACK_SIZE = 1 << COROUTINE_STACK_SHIFT.  [trampoline_frame] is
    the distance between the stack pointer a context is restored with and the
    one [kernel_get_rsp] reads inside the trampoline. *)
Record coroutine_h : Type := {
  COROUTINE_STACK_SHIFT : Z;
  COROUTINE_PAGE_SIZE : Z;
  COROUTINE_MAGIC : Z;
  COROUTINE_STACK_BOTTOM_MAGIC : Z;
  COROUTINE_STACK_TOP_MAGIC : Z;
  trampoline_frame : Z
}.

Definition COROUTINE_STACK_SIZE (h : coroutine_h) : Z :=
  Z.shiftl 1 (COROUTINE_STACK_SHIFT h).

(** ** User code *)

(** What a coroutine body does between two entries of the scheduler: calls of
    the coroutine API, ended by a yield or by the return of the user
    function.  [PYieldTo f x] yields and continues, when resumed, with the
    code of [f] applied to the coroutine and [x], which gives bodies that
    loop for ever.  [PWait] is [coroutine_wait]. *)
Inductive prog : Type :=
| PReturn (v : Z)
| PYield (k : prog)
| PYieldTo (f x : Z)
| PWait (other : Z) (k : Z -> prog)
| PSignal (c : Z) (k : prog)
| PCancel (c : Z) (k : prog)
| PRef (c : Z) (k : prog)
| PDeref (c : Z) (k : prog).

(** ** Data model *)

(** The saved machine context of a coroutine.  The instruction pointer is
    either null (the object was just zeroed), the trampoline (set by
    [coroutine_start], with the stack pointer to start from), or a point
    inside [coroutine_yield]; for the latter the code that runs after the
    yield returns stands for the saved registers and stack.  *)
Inductive kernel_ctx : Type :=
| CtxZero
| CtxTrampoline (rsp : Z)
| CtxYield (k : prog)
| CtxYieldEnd.

Record coroutine : Type := {
  co_magic : Z;
  co_thread : Z;
  co_stack : Z;
  co_ctx : kernel_ctx;
  co_fun : Z;
  co_arg : Z;
  co_ret : Z;
  co_running : bool;
  co_ref_count : Z;
  co_signaled : Z;
  co_list_entry : bool   (* true: linked into a list; false: list_empty *)
}.

(** Where the worker task of a thread stands in [coroutine_thread_routine]. *)
Inductive worker_pc : Type :=
| AtWait                          (* in wait_event_interruptible *)
| AtDrain                         (* top of the inner for (;;) *)
| AtEnter (co : Z)                (* top of the while body, co != NULL *)
| AtNext (co : Z)                 (* before next_co = ..._next_coroutine(thread, co) *)
| AtRequeue (co : Z) (next_co : option Z)   (* before atomic_dec_and_test(&co->signaled) *)
| AtPassEnd                       (* after the while loop *)
| AtReturn.                       (* after the outer loop: return 0 *)

Record coroutine_thread : Type := {
  th_co_list : list Z;
  th_signaled : Z;
  th_stopping : bool;
  th_task : worker_pc
}.

Inductive event : Type :=
| EvKmalloc (a : Z)
| EvKfree (a : Z)
| EvWake (t : Z)
| EvEnter (co : Z)
| EvCall (f co arg : Z)
| EvRet (co v : Z)
| EvDone (co : Z)
| EvYield (co : Z)
| EvListen (host : string) (port : Z)
| EvSockRelease (sock : Z)
| EvSleep (ms : Z)
| EvTaskWake (task : Z).

#[global] Instance event_eq_dec : EqDecision event.
Proof. solve_decision. Defined.

(** [trace] has the most recent event first. *)
Record world : Type := {
  cos : gmap Z coroutine;
  threads : gmap Z coroutine_thread;
  mem : gmap Z Z;
  trace : list event
}.

(** ** Field updates *)

Definition set_co_ctx (x : kernel_ctx) (c : coroutine) : coroutine :=
  {| co_magic := co_magic c; co_thread := co_thread c; co_stack := co_stack c;
     co_ctx := x; co_fun := co_fun c; co_arg := co_arg c; co_ret := co_ret c;
     co_running := co_running c; co_ref_count := co_ref_count c;
     co_signaled := co_signaled c; co_list_entry := co_list_entry c |}.

Definition set_co_fun_arg (f a : Z) (c : coroutine) : coroutine :=
  {| co_magic := co_magic c; co_thread := co_thread c; co_stack := co_stack c;
     co_ctx := co_ctx c; co_fun := f; co_arg := a; co_ret := co_ret c;
     co_running := co_running c; co_ref_count := co_ref_count c;
     co_signaled := co_signaled c; co_list_entry := co_list_entry c |}.

Definition set_co_ret (v : Z) (c : coroutine) : coroutine :=
  {| co_magic := co_magic c; co_thread := co_thread c; co_stack := co_stack c;
     co_ctx := co_ctx c; co_fun := co_fun c; co_arg := co_arg c; co_ret := v;
     co_running := co_running c; co_ref_count := co_ref_count c;
     co_signaled := co_signaled c; co_list_entry := co_list_entry c |}.

Definition set_co_running (b : bool) (c : coroutine) : coroutine :=
  {| co_magic := co_magic c; co_thread := co_thread c; co_stack := co_stack c;
     co_ctx := co_ctx c; co_fun := co_fun c; co_arg := co_arg c; co_ret := co_ret c;
     co_running := b; co_ref_count := co_ref_count c;
     co_signaled := co_signaled c; co_list_entry := co_list_entry c |}.

Definition set_co_ref_count (v : Z) (c : coroutine) : coroutine :=
  {| co_magic := co_magic c; co_thread := co_thread c; co_stack := co_stack c;
     co_ctx := co_ctx c; co_fun := co_fun c; co_arg := co_arg c; co_ret := co_ret c;
     co_running := co_running c; co_ref_count := v;
     co_signaled := co_signaled c; co_list_entry := co_list_entry c |}.

Definition set_co_signaled (v : Z) (c : coroutine) : coroutine :=
  {| co_magic := co_magic c; co_thread := co_thread c; co_stack := co_stack c;
     co_ctx := co_ctx c; co_fun := co_fun c; co_arg := co_arg c; co_ret := co_ret c;
     co_running := co_running c; co_ref_count := co_ref_count c;
     co_signaled := v; co_list_entry := co_list_entry c |}.

Definition set_co_list_entry (b : bool) (c : coroutine) : coroutine :=
  {| co_magic := co_magic c; co_thread := co_thread c; co_stack := co_stack c;
     co_ctx := co_ctx c; co_fun := co_fun c; co_arg := co_arg c; co_ret := co_ret c;
     co_running := co_running c; co_ref_count := co_ref_count c;
     co_signaled := co_signaled c; co_list_entry := b |}.

Definition set_th_co_list (l : list Z) (t : coroutine_thread) : coroutine_thread :=
  {| th_co_list := l; th_signaled := th_signaled t; th_stopping := th_stopping t;
     th_task := th_task t |}.

Definition set_th_signaled (v : Z) (t : coroutine_thread) : coroutine_thread :=
  {| th_co_list := th_co_list t; th_signaled := v; th_stopping := th_stopping t;
     th_task := th_task t |}.

Definition set_th_stopping (b : bool) (t : coroutine_thread) : coroutine_thread :=
  {| th_co_list := th_co_list t; th_signaled := th_signaled t; th_stopping := b;
     th_task := th_task t |}.

Definition set_th_task (pc : worker_pc) (t : coroutine_thread) : coroutine_thread :=
  {| th_co_list := th_co_list t; th_signaled := th_signaled t;
     th_stopping := th_stopping t; th_task := pc |}.

(** ** The heap *)

Definition get_co (co : Z) (w : world) : result coroutine := of_option (cos w !! co).

Definition put_co (co : Z) (c : coroutine) (w : world) : world :=
  {| cos := <[co := c]> (cos w); threads := threads w; mem := mem w; trace := trace w |}.

Definition free_co (co : Z) (w : world) : world :=
  {| cos := delete co (cos w); threads := threads w; mem := mem w; trace := trace w |}.

Definition get_thread (t : Z) (w : world) : result coroutine_thread :=
  of_option (threads w !! t).

Definition put_thread (t : Z) (th : coroutine_thread) (w : world) : world :=
  {| cos := cos w; threads := <[t := th]> (threads w); mem := mem w; trace := trace w |}.

Definition load (a : Z) (w : world) : result Z := of_option (mem w !! a).

Definition store (a v : Z) (w : world) : world :=
  {| cos := cos w; threads := threads w; mem := <[a := v]> (mem w); trace := trace w |}.

Definition log (e : event) (w : world) : world :=
  {| cos := cos w; threads := threads w; mem := mem w; trace := e :: trace w |}.

(** [update_co co f] is a read-modify-write of the object at [co]. *)
Definition update_co (co : Z) (f : coroutine -> coroutine) (w : world) : result world :=
  c ← get_co co w; Ok (put_co co (f c) w).

Definition update_thread (t : Z) (f : coroutine_thread -> coroutine_thread) (w : world)
  : result world :=
  th ← get_thread t w; Ok (put_thread t (f th) w).

(** ** The intrusive ready list *)

(** A list head [thread->co_list] is the sequence of the coroutines linked
    into it; the link [co->co_list_entry] records whether it is in a list.
    [list_del_init] takes an entry out of the list it is in, whichever that
    is.  The spin lock around every list operation is not modelled: the model
    runs one critical section at a time. *)
Definition list_del (co : Z) (l : list Z) : list Z :=
  filter (fun x => x ≠ co) l.

Definition unlink (co : Z) (w : world) : world :=
  {| cos := cos w;
     threads := (fun th => set_th_co_list (list_del co (th_co_list th)) th) <$> threads w;
     mem := mem w; trace := trace w |}.

Definition list_add_tail (co : Z) (t : Z) (w : world) : result world :=
  w ← update_thread t (fun th => set_th_co_list (th_co_list th ++ [co]) th) w;
  update_co co (set_co_list_entry true) w.

Definition list_del_init (co : Z) (w : world) : result world :=
  c ← get_co co w;
  if co_list_entry c then update_co co (set_co_list_entry false) (unlink co w)
  else Ok w.

Section Coroutine.

Variable h : coroutine_h.

(** The three words of a stack the code addresses. *)
Definition stack_bottom (stack : Z) : Z := ulong stack.
Definition stack_top (stack : Z) : Z :=
  ulong (stack + COROUTINE_STACK_SIZE h - sizeof_ulong).
Definition stack_self (stack : Z) : Z :=
  ulong (stack + COROUTINE_STACK_SIZE h - 2 * sizeof_ulong).

(** ** coroutine_create *)

(** The object after [memset], the five initialising stores and
    [INIT_LIST_HEAD]. *)
Definition new_coroutine (thread stack : Z) : coroutine :=
  {| co_magic := COROUTINE_MAGIC h; co_thread := thread; co_stack := stack;
     co_ctx := CtxZero; co_fun := 0; co_arg := 0; co_ret := 0;
     co_running := false; co_ref_count := 1; co_signaled := 0;
     co_list_entry := false |}.

(** [co_mem] and [stack_mem] are what the two calls of [kmalloc] return
    ([None] for NULL); the second call is made only if the first succeeds. *)
Definition coroutine_create (thread : Z) (co_mem stack_mem : option Z) (w : world)
  : result (option Z * world) :=
  match co_mem with
  | None => Ok (None, w)
  | Some co =>
    let w := log (EvKmalloc co) w in
    let w := put_co co (new_coroutine thread (default 0 stack_mem)) w in
    match stack_mem with
    | None => Ok (None, log (EvKfree co) (free_co co w))
    | Some stack =>
      let w := log (EvKmalloc stack) w in
      _ ← BUG_ON (negb (Z.land (ulong stack) (COROUTINE_PAGE_SIZE h - 1) =? 0));
      let w := store (stack_bottom stack) (COROUTINE_STACK_BOTTOM_MAGIC h) w in
      let w := store (stack_top stack) (COROUTINE_STACK_TOP_MAGIC h) w in
      let w := store (stack_self stack) (ulong co) w in
      Ok (Some co, w)
    end
  end.

(** ** Reference counting and destruction *)

Definition coroutine_ref (co : Z) (w : world) : result world :=
  update_co co (fun c => set_co_ref_count (atomic_inc (co_ref_count c)) c) w.

Definition check_magic (c : coroutine) (w : world) : result unit :=
  _ ← BUG_ON (negb (co_magic c =? COROUTINE_MAGIC h));
  b ← load (stack_bottom (co_stack c)) w;
  _ ← BUG_ON (negb (b =? COROUTINE_STACK_BOTTOM_MAGIC h));
  t ← load (stack_top (co_stack c)) w;
  BUG_ON (negb (t =? COROUTINE_STACK_TOP_MAGIC h)).

Definition coroutine_delete (co : Z) (w : world) : result world :=
  c ← get_co co w;
  _ ← check_magic c w;
  _ ← BUG_ON (negb (co_ref_count c =? 0));
  w ← list_del_init co w;
  let w := log (EvKfree (co_stack c)) w in
  Ok (log (EvKfree co) (free_co co w)).

Definition coroutine_deref (co : Z) (w : world) : result world :=
  c ← get_co co w;
  let '(v, zero) := atomic_dec_and_test (co_ref_count c) in
  let w := put_co co (set_co_ref_count v c) w in
  if zero then coroutine_delete co w else Ok w.

(** ** Signalling *)

Definition coroutine_signal (co : Z) (w : world) : result world :=
  c ← get_co co w;
  let thread := co_thread c in
  let w := put_co co (set_co_signaled (atomic_inc (co_signaled c)) c) w in
  w ← (if co_list_entry c then Ok w
       else w ← coroutine_ref co w; list_add_tail co thread w);
  w ← update_thread thread (fun th => set_th_signaled (atomic_inc (th_signaled th)) th) w;
  Ok (log (EvWake thread) w).

Definition coroutine_cancel (co : Z) (w : world) : result world :=
  w ← update_co co (set_co_running false) w;
  coroutine_signal co w.

Definition coroutine_start (co f arg : Z) (w : world) : result world :=
  c ← get_co co w;
  _ ← BUG_ON (negb (co_magic c =? COROUTINE_MAGIC h));
  let c := set_co_fun_arg f arg c in
  let c := set_co_ctx (CtxTrampoline (stack_self (co_stack c))) c in
  let c := set_co_running true c in
  coroutine_signal co (put_co co c w).

(** ** Context switches *)

Variable text : Z -> Z -> Z -> prog.
(** [text f co arg] is the code of the user function at address [f] applied
    to [co] and [arg]. *)

(** Modelled from the spec: [coroutine_yield] is not among the sources.  It
    saves the context of [self] and restores the worker's; the world it
    returns is the one the scheduler goes on with. *)
Definition coroutine_yield (self : Z) (saved : kernel_ctx) (w : world) : result world :=
  w ← update_co self (set_co_ctx saved) w;
  Ok (log (EvYield self) w).

(** The loop of [coroutine_wait], one test at a time: [again] is the context
    a yield inside the loop saves, [ret] the code after the call. *)
Definition coroutine_wait {A} (self co : Z) (again : kernel_ctx)
    (ret : Z -> world -> result (option A * world)) (w : world)
  : result (option A * world) :=
  c ← get_co co w;
  if co_running c then
    w ← coroutine_yield self again w; Ok (None, w)
  else ret (co_ret c) w.

(** Runs user code as coroutine [self] up to its next yield ([None]) or to
    the return of the user function ([Some v]). *)
Fixpoint run_prog (self : Z) (p : prog) (w : world) : result (option Z * world) :=
  match p with
  | PReturn v => Ok (Some v, w)
  | PYield k => w ← coroutine_yield self (CtxYield k) w; Ok (None, w)
  | PYieldTo f x => w ← coroutine_yield self (CtxYield (text f self x)) w; Ok (None, w)
  | PWait other k =>
    coroutine_wait self other (CtxYield (PWait other k))
      (fun v w => run_prog self (k v) w) w
  | PSignal c k => w ← coroutine_signal c w; run_prog self k w
  | PCancel c k => w ← coroutine_cancel c w; run_prog self k w
  | PRef c k => w ← coroutine_ref c w; run_prog self k w
  | PDeref c k => w ← coroutine_deref c w; run_prog self k w
  end.

(** The trampoline after the user function has returned [v]. *)
Definition trampoline_return (co v : Z) (w : world) : result world :=
  w ← update_co co (set_co_ret v) w;
  let w := log (EvRet co v) w in
  c ← get_co co w;
  _ ← check_magic c w;
  w ← update_co co (set_co_running false) w;
  let w := log (EvDone co) w in
  coroutine_yield co CtxYieldEnd w.

(** User code running inside the trampoline's call [co->fun(co, co->arg)]. *)
Definition trampoline_call (co : Z) (p : prog) (w : world) : result world :=
  '(r, w) ← run_prog co p w;
  match r with
  | None => Ok w
  | Some v => trampoline_return co v w
  end.

Definition coroutine_trampoline (rsp : Z) (w : world) : result world :=
  let stack := Z.shiftl (Z.shiftr rsp (COROUTINE_STACK_SHIFT h)) (COROUTINE_STACK_SHIFT h) in
  co ← load (stack_self stack) w;
  c ← get_co co w;
  _ ← check_magic c w;
  _ ← (if co_fun c =? 0 then Fault else Ok tt);
  let w := log (EvCall (co_fun c) co (co_arg c)) w in
  trampoline_call co (text (co_fun c) co (co_arg c)) w.

(** [kernel_longjmp(&co->ctx, 1)]: control moves to the saved context and
    comes back with the next yield. *)
Definition kernel_longjmp (co : Z) (w : world) : result world :=
  c ← get_co co w;
  let w := log (EvEnter co) w in
  match co_ctx c with
  | CtxZero => Fault
  | CtxTrampoline rsp => coroutine_trampoline (ulong (rsp - trampoline_frame h)) w
  | CtxYield k => trampoline_call co k w
  | CtxYieldEnd => Fault
  end.

Definition coroutine_enter (co : Z) (w : world) : result world :=
  c ← get_co co w;
  _ ← BUG_ON (negb (co_magic c =? COROUTINE_MAGIC h));
  _ ← BUG_ON (negb (co_running c));
  kernel_longjmp co w.

(** ** The worker thread *)

(** The walk of [coroutine_thread_next_coroutine] over the entries [l]. *)
Fixpoint first_usable (l : list Z) (w : world) : result (option Z * world) :=
  match l with
  | [] => Ok (None, w)
  | co :: l =>
    c ← get_co co w;
    if co_ref_count c =? 0 then first_usable l w
    else
      let '(v, ok) := atomic_inc_not_zero (co_ref_count c) in
      if ok then Ok (Some co, put_co co (set_co_ref_count v c) w)
      else first_usable l w
  end.

(** The entries that follow [co] in [l]. *)
Fixpoint list_after (co : Z) (l : list Z) : option (list Z) :=
  match l with
  | [] => None
  | x :: l => if decide (x = co) then Some l else list_after co l
  end.

(** An entry that is in no list is its own successor: the walk finds [prev_co]
    itself, or never ends when its reference count is zero.  A linked
    [prev_co] is in the list of [thread]; another list is outside the model. *)
Definition coroutine_thread_next_coroutine (thread : Z) (prev_co : option Z) (w : world)
  : result (option Z * world) :=
  th ← get_thread thread w;
  match prev_co with
  | None =>
    match th_co_list th with
    | [] => Ok (None, w)
    | l => first_usable l w
    end
  | Some prev =>
    p ← get_co prev w;
    '(co, w) ← (if co_list_entry p then
                  l ← of_option (list_after prev (th_co_list th)); first_usable l w
                else if co_ref_count p =? 0 then Spin
                else first_usable [prev] w);
    w ← coroutine_deref prev w;
    Ok (co, w)
  end.

Definition goto (thread : Z) (pc : worker_pc) (w : world) : result world :=
  update_thread thread (set_th_task pc) w.

Definition visit (co : option Z) : worker_pc :=
  match co with
  | Some co => AtEnter co
  | None => AtPassEnd
  end.

(** One step of [coroutine_thread_routine]: from one program point to the
    next.  A worker whose wait condition is false stays in the wait. *)
Definition coroutine_thread_routine (thread : Z) (w : world) : result world :=
  th ← get_thread thread w;
  match th_task th with
  | AtWait =>
    if th_stopping th || negb (th_signaled th =? 0) then
      if th_stopping th then goto thread AtReturn w
      else goto thread AtDrain w
    else Ok w
  | AtDrain =>
    '(co, w) ← coroutine_thread_next_coroutine thread None w;
    goto thread (visit co) w
  | AtEnter co =>
    c ← get_co co w;
    w ← (if co_running c then coroutine_enter co w else Ok w);
    goto thread (AtNext co) w
  | AtNext co =>
    '(next_co, w) ← coroutine_thread_next_coroutine thread (Some co) w;
    goto thread (AtRequeue co next_co) w
  | AtRequeue co next_co =>
    c ← get_co co w;
    let '(v, zero) := atomic_dec_and_test (co_signaled c) in
    let w := put_co co (set_co_signaled v c) w in
    w ← (if zero then
           _ ← BUG_ON (negb (co_list_entry c));
           w ← list_del_init co w;
           coroutine_deref co w
         else
           _ ← BUG_ON (negb (co_list_entry c));
           w ← list_del_init co w;
           list_add_tail co thread w);
    goto thread (visit next_co) w
  | AtPassEnd =>
    let '(v, zero) := atomic_dec_and_test (th_signaled th) in
    let w := put_thread thread (set_th_signaled v th) w in
    if zero then goto thread AtWait w else goto thread AtDrain w
  | AtReturn => Ok w
  end.

(** [n] steps of the worker of [thread]. *)
Fixpoint worker_steps (n : nat) (thread : Z) (w : world) : result world :=
  match n with
  | O => Ok w
  | S n => w ← coroutine_thread_routine thread w; worker_steps n thread w
  end.

(** ** Thread start and stop *)

(** [task] is what [kthread_create] returns: a task, which is bound to the
    cpu and woken up, or an [ERR_PTR]. *)
Definition coroutine_thread_start (thread : Z) (task : kthread) (w : world)
  : Z * world :=
  let th := {| th_co_list := []; th_signaled := 0; th_stopping := false;
               th_task := AtReturn |} in
  match task with
  | ERR_PTR err => (err, put_thread thread th w)
  | Task _ => (0, put_thread thread (set_th_task AtWait th) w)
  end.

(** The loop of [coroutine_thread_stop] over the spliced list. *)
Fixpoint drop_entries (l : list Z) (w : world) : result world :=
  match l with
  | [] => Ok w
  | co :: l =>
    w ← update_co co (set_co_list_entry false) w;
    w ← coroutine_deref co w;
    drop_entries l w
  end.

(** [coroutine_thread_stop] up to [kthread_stop], which returns once the
    worker has returned, and from there on. *)
Definition coroutine_thread_stop_request (thread : Z) (w : world) : result world :=
  w ← update_thread thread (set_th_stopping true) w;
  Ok (log (EvWake thread) w).

Definition coroutine_thread_stop_joined (thread : Z) (w : world) : result world :=
  th ← get_thread thread w;
  match th_task th with
  | AtReturn =>
    drop_entries (th_co_list th) (put_thread thread (set_th_co_list [] th) w)
  | _ => Ok w
  end.

(** ** Runs *)

(** What the threads of the system do, one call or one worker step at a time.
    Coroutines are created before a run. *)
Inductive action : Type :=
| ASignal (co : Z)
| ACancel (co : Z)
| ARef (co : Z)
| ADeref (co : Z)
| AStart (co f arg : Z)
| AWorker (thread : Z)
| AStopRequest (thread : Z)
| AStopJoined (thread : Z).

Definition do_action (a : action) (w : world) : result world :=
  match a with
  | ASignal co => coroutine_signal co w
  | ACancel co => coroutine_cancel co w
  | ARef co => coroutine_ref co w
  | ADeref co => coroutine_deref co w
  | AStart co f arg => coroutine_start co f arg w
  | AWorker thread => coroutine_thread_routine thread w
  | AStopRequest thread => coroutine_thread_stop_request thread w
  | AStopJoined thread => coroutine_thread_stop_joined thread w
  end.

Fixpoint run (acts : list action) (w : world) : result world :=
  match acts with
  | [] => Ok w
  | a :: acts => w ← do_action a w; run acts w
  end.

(** [coroutine_thread_stop]: [kthread_stop] lets the worker run until it has
    returned; [fuel] bounds the steps that takes. *)
Definition coroutine_thread_stop (fuel : nat) (thread : Z) (w : world) : result world :=
  w ← coroutine_thread_stop_request thread w;
  w ← worker_steps fuel thread w;
  th ← get_thread thread w;
  match th_task th with
  | AtReturn => coroutine_thread_stop_joined thread w
  | _ => Spin
  end.

(** ** The scheduler loop of the specification *)

(** The loop of section 4.4 of the specification, written from its words
    over the same program points, to be compared with
    [coroutine_thread_routine]. *)

Definition spec_usable (w : world) (co : Z) : bool :=
  match cos w !! co with
  | Some c => negb (co_ref_count c =? 0)
  | None => false
  end.

(** Walks the ready list from [prev.next], or from the head; returns the
    first usable coroutine with its reference count incremented; drops the
    reference on [prev]. *)
Definition spec_next_ready (thread : Z) (prev : option Z) (w : world)
  : result (option Z * world) :=
  th ← get_thread thread w;
  l ← of_option (match prev with
                 | None => Some (th_co_list th)
                 | Some p => list_after p (th_co_list th)
                 end);
  let co := List.find (spec_usable w) l in
  w ← match co with Some c => coroutine_ref c w | None => Ok w end;
  w ← match prev with Some p => coroutine_deref p w | None => Ok w end;
  Ok (co, w).

Definition spec_remove (thread co : Z) (w : world) : result world :=
  w ← update_thread thread (fun th => set_th_co_list (list_del co (th_co_list th)) th) w;
  update_co co (set_co_list_entry false) w.

Definition spec_move_to_tail (thread co : Z) (w : world) : result world :=
  update_thread thread
    (fun th => set_th_co_list (list_del co (th_co_list th) ++ [co]) th) w.

Definition spec_scheduler_loop (thread : Z) (w : world) : result world :=
  th ← get_thread thread w;
  match th_task th with
  | AtWait =>
    if th_stopping th then goto thread AtReturn w
    else if 0 <? th_signaled th then goto thread AtDrain w
    else Ok w
  | AtDrain =>
    '(co, w) ← spec_next_ready thread None w;
    goto thread (visit co) w
  | AtEnter co =>
    c ← get_co co w;
    w ← (if co_running c then kernel_longjmp co w else Ok w);
    goto thread (AtNext co) w
  | AtNext co =>
    '(nxt, w) ← spec_next_ready thread (Some co) w;
    goto thread (AtRequeue co nxt) w
  | AtRequeue co nxt =>
    c ← get_co co w;
    let '(v, zero) := atomic_dec_and_test (co_signaled c) in
    let w := put_co co (set_co_signaled v c) w in
    w ← (if zero then w ← spec_remove thread co w; coroutine_deref co w
         else spec_move_to_tail thread co w);
    goto thread (visit nxt) w
  | AtPassEnd =>
    let '(v, zero) := atomic_dec_and_test (th_signaled th) in
    let w := put_thread thread (set_th_signaled v th) w in
    if zero then goto thread AtWait w else goto thread AtDrain w
  | AtReturn => Ok w
  end.

End Coroutine.

(** ** server.c *)

(** Linux errno values. *)
Definition EINVAL : Z := 22.
Definition EADDRINUSE : Z := 98.

Record tlb_con : Type := {
  con_sock : Z;
  con_co : Z;
  con_srv : Z
}.

Record tlb_server : Type := {
  srv_host : string;
  srv_port : Z;
  srv_listen_sock : Z;
  srv_listen_thread : Z;
  srv_stopping : bool;
  srv_listen_thread_stopping : bool
}.

(** The server object, the connections and the coroutine world.  The server
    embeds its coroutine thread, which lives in [threads] at [con_thread]. *)
Record server_world : Type := {
  sw_srv : tlb_server;
  sw_cons : gmap Z tlb_con;
  sw_world : world
}.

Definition with_srv (srv : tlb_server) (sw : server_world) : server_world :=
  {| sw_srv := srv; sw_cons := sw_cons sw; sw_world := sw_world sw |}.

Definition with_cons (cons : gmap Z tlb_con) (sw : server_world) : server_world :=
  {| sw_srv := sw_srv sw; sw_cons := cons; sw_world := sw_world sw |}.

Definition with_world (w : world) (sw : server_world) : server_world :=
  {| sw_srv := sw_srv sw; sw_cons := sw_cons sw; sw_world := w |}.

Definition sw_log (e : event) (sw : server_world) : server_world :=
  with_world (log e (sw_world sw)) sw.

(** Linux [snprintf(buf, size, "%s", s)]: the buffer receives at most
    [size - 1] characters, and the [int] returned is the length the whole
    output has, truncated or not. *)
Definition snprintf_s (size : Z) (s : string) : string * Z :=
  (String.substring 0 (Z.to_nat (size - 1)) s, int32 (Z.of_nat (String.length s))).

Definition strlen (s : string) : Z := ulong (Z.of_nat (String.length s)).

(** What the outside hands to [tlb_server_start]. *)
Record start_env : Type := {
  se_listen : nat -> Z * Z;   (* ksock_listen_host, call by call: result and socket *)
  se_con_task : kthread;      (* kthread_create of the coroutine thread *)
  se_listen_task : kthread    (* kthread_create of the listener *)
}.

(** What the outside hands to one round of the accept loop. *)
Record accept_round : Type := {
  ar_should_stop : bool;      (* kthread_should_stop() *)
  ar_stopping : bool;         (* srv->stopping as the loop condition reads it *)
  ar_con_mem : option Z;      (* kmalloc of the connection *)
  ar_co_mem : option Z;       (* kmalloc of the coroutine *)
  ar_stack_mem : option Z;    (* kmalloc of its stack *)
  ar_accept : Z * Z           (* ksock_accept: result and socket *)
}.

Section Server.

Variable h : coroutine_h.
Variable text : Z -> Z -> Z -> prog.

(** Modelled from the spec: tlb_server.h is not among the sources;
    [HOST_SIZE] is ARRAY_SIZE(srv->host), [con_thread] the address of
    srv->con_thread, [tlb_con_coroutine] the address of that function and
    [srv] the address of the server. *)
Variable HOST_SIZE : Z.
Variable srv : Z.
Variable con_thread : Z.
Variable tlb_con_coroutine : Z.

Definition tlb_con_delete (con : Z) (sw : server_world) : result server_world :=
  c ← of_option (sw_cons sw !! con);
  w ← coroutine_deref h (con_co c) (sw_world sw);
  let sw := with_world w sw in
  Ok (if con_sock c =? 0 then sw else sw_log (EvSockRelease (con_sock c)) sw).

Definition tlb_con_create (con_mem co_mem stack_mem : option Z) (sw : server_world)
  : result (option Z * server_world) :=
  match con_mem with
  | None => Ok (None, sw)
  | Some con =>
    let sw := sw_log (EvKmalloc con) sw in
    '(co, w) ← coroutine_create h con_thread co_mem stack_mem (sw_world sw);
    let sw := with_world w sw in
    match co with
    | None => Ok (None, sw_log (EvKfree con) sw)
    | Some co =>
      Ok (Some con,
          with_cons (<[con := {| con_sock := 0; con_co := co; con_srv := srv |}]> (sw_cons sw)) sw)
    end
  end.

Definition tlb_con_start (con sock : Z) (sw : server_world) : result server_world :=
  c ← of_option (sw_cons sw !! con);
  let c := {| con_sock := sock; con_co := con_co c; con_srv := con_srv c |} in
  let sw := with_cons (<[con := c]> (sw_cons sw)) sw in
  w ← coroutine_start h (con_co c) tlb_con_coroutine con (sw_world sw);
  Ok (with_world w sw).

Definition listen_thread_exit (sw : server_world) : server_world :=
  let s := sw_srv sw in
  with_srv {| srv_host := srv_host s; srv_port := srv_port s;
              srv_listen_sock := srv_listen_sock s;
              srv_listen_thread := srv_listen_thread s;
              srv_stopping := srv_stopping s;
              srv_listen_thread_stopping := true |} sw.

(** The accept loop over the rounds the outside provides; [None] when the
    loop is still going after the last of them, [Some 0] when the routine has
    returned. *)
Fixpoint tlb_server_listen_thread_routine (rounds : list accept_round) (sw : server_world)
  : result (option Z * server_world) :=
  match rounds with
  | [] => Ok (None, sw)
  | r :: rounds =>
    if negb (ar_should_stop r) && negb (ar_stopping r) then
      '(con, sw) ← tlb_con_create (ar_con_mem r) (ar_co_mem r) (ar_stack_mem r) sw;
      match con with
      | None => Ok (Some 0, listen_thread_exit sw)
      | Some con =>
        if negb (fst (ar_accept r) =? 0) then
          sw ← tlb_con_delete con sw;
          tlb_server_listen_thread_routine rounds sw
        else
          sw ← tlb_con_start con (snd (ar_accept r)) sw;
          tlb_server_listen_thread_routine rounds sw
      end
    else Ok (Some 0, listen_thread_exit sw)
  end.

Definition zero_server : tlb_server :=
  {| srv_host := EmptyString; srv_port := 0; srv_listen_sock := 0; srv_listen_thread := 0;
     srv_stopping := false; srv_listen_thread_stopping := false |}.

Definition set_srv_host (host : string) (s : tlb_server) : tlb_server :=
  {| srv_host := host; srv_port := srv_port s; srv_listen_sock := srv_listen_sock s;
     srv_listen_thread := srv_listen_thread s; srv_stopping := srv_stopping s;
     srv_listen_thread_stopping := srv_listen_thread_stopping s |}.

Definition set_srv_port (port : Z) (s : tlb_server) : tlb_server :=
  {| srv_host := srv_host s; srv_port := port; srv_listen_sock := srv_listen_sock s;
     srv_listen_thread := srv_listen_thread s; srv_stopping := srv_stopping s;
     srv_listen_thread_stopping := srv_listen_thread_stopping s |}.

Definition set_srv_listen_sock (sock : Z) (s : tlb_server) : tlb_server :=
  {| srv_host := srv_host s; srv_port := srv_port s; srv_listen_sock := sock;
     srv_listen_thread := srv_listen_thread s; srv_stopping := srv_stopping s;
     srv_listen_thread_stopping := srv_listen_thread_stopping s |}.

Definition set_srv_listen_thread (task : Z) (s : tlb_server) : tlb_server :=
  {| srv_host := srv_host s; srv_port := srv_port s; srv_listen_sock := srv_listen_sock s;
     srv_listen_thread := task; srv_stopping := srv_stopping s;
     srv_listen_thread_stopping := srv_listen_thread_stopping s |}.

(** The five attempts of [ksock_listen_host]: [n] are left, [i] were made,
    and [r] is the last result. *)
Fixpoint listen_attempts (env : start_env) (n i : nat) (r : Z) (sw : server_world)
  : Z * server_world :=
  match n with
  | O => (r, sw)
  | S n =>
    let '(r, sock) := se_listen env i in
    let sw := sw_log (EvListen (srv_host (sw_srv sw)) (srv_port (sw_srv sw))) sw in
    if negb (r =? 0) then
      if r =? - EADDRINUSE then listen_attempts env n (S i) r (sw_log (EvSleep 100) sw)
      else listen_attempts env n (S i) r sw
    else (r, with_srv (set_srv_listen_sock sock (sw_srv sw)) sw)
  end.

(** [r] is left uninitialised by the C code before the first attempt; the
    loop runs at least once, so the value never shows. *)
Definition tlb_server_start (env : start_env) (stop_fuel : nat) (host : string) (port : Z)
    (sw : server_world) : result (Z * server_world) :=
  let sw := with_srv zero_server sw in
  let '(buf, n) := snprintf_s HOST_SIZE host in
  let sw := with_srv (set_srv_host buf (sw_srv sw)) sw in
  if negb (ulong n =? strlen host) then Ok (EINVAL, sw)
  else
    let sw := with_srv (set_srv_port port (sw_srv sw)) sw in
    let '(r, sw) := listen_attempts env 5 0 0 sw in
    if negb (r =? 0) then Ok (r, sw)
    else
      let '(r, w) := coroutine_thread_start con_thread (se_con_task env) (sw_world sw) in
      let sw := with_world w sw in
      if negb (r =? 0) then
        Ok (r, sw_log (EvSockRelease (srv_listen_sock (sw_srv sw))) sw)
      else
        match se_listen_task env with
        | ERR_PTR r =>
          w ← coroutine_thread_stop h text stop_fuel con_thread (sw_world sw);
          let sw := with_world w sw in
          Ok (r, sw_log (EvSockRelease (srv_listen_sock (sw_srv sw))) sw)
        | Task task =>
          let sw := with_srv (set_srv_listen_thread task (sw_srv sw)) sw in
          Ok (0, sw_log (EvTaskWake task) sw)
        end.

End Server.

(** [tlb_con_coroutine] of server.c, the function every connection's
    coroutine is started with; the name itself stands for the address of the
    function in [tlb_con_start]. *)
Definition tlb_con_coroutine_body (h : coroutine_h) (co arg : Z) (sw : server_world)
  : result (Z * server_world) :=
  let con := arg in
  c ← of_option (sw_cons sw !! con);
  _ ← BUG_ON (negb (con_co c =? co));
  sw ← tlb_con_delete h con sw;
  Ok (0, sw).

(** ** Sample values *)

(** A header with stacks of two pages that also tests alignment to two
    pages, [h_8k], and one that tests alignment to one page only, [h_4k]. *)
Definition h_8k : coroutine_h :=
  {| COROUTINE_STACK_SHIFT := 13; COROUTINE_PAGE_SIZE := 8192;
     COROUTINE_MAGIC := 3405691582;
     COROUTINE_STACK_BOTTOM_MAGIC := 3735928559;
     COROUTINE_STACK_TOP_MAGIC := 4277009102;
     trampoline_frame := 8 |}.


Definition empty_world : world :=
  {| cos := ∅; threads := ∅; mem := ∅; trace := [] |}.

(** A world with one started thread at address 100. *)
Definition one_thread_world : world :=
  snd (coroutine_thread_start 100 (Task 1) empty_world).

(** The result of a call that is known to succeed. *)
Definition the {A} (d : A) (r : result A) : A :=
  match r with
  | Ok a => a
  | _ => d
  end.

(** [n] calls of [coroutine_signal] in a row. *)
Fixpoint signal_times (n : nat) (co : Z) (w : world) : result world :=
  match n with
  | O => Ok w
  | S n => w ← coroutine_signal co w; signal_times n co w
  end.

(** What one [coroutine_signal] makes of the coroutine and of its thread. *)
Definition signalled_co (c : coroutine) : coroutine :=
  {| co_magic := co_magic c; co_thread := co_thread c; co_stack := co_stack c;
     co_ctx := co_ctx c; co_fun := co_fun c; co_arg := co_arg c; co_ret := co_ret c;
     co_running := co_running c;
     co_ref_count :=
       if co_list_entry c then co_ref_count c else atomic_inc (co_ref_count c);
     co_signaled := atomic_inc (co_signaled c);
     co_list_entry := true |}.

Definition signalled_thread (co : Z) (c : coroutine) (th : coroutine_thread)
  : coroutine_thread :=
  {| th_co_list := if co_list_entry c then th_co_list th else th_co_list th ++ [co];
     th_signaled := atomic_inc (th_signaled th);
     th_stopping := th_stopping th;
     th_task := th_task th |}.

(** The code at function address 7 signals the coroutine itself, yields, and
    returns its argument plus one; every other address returns 0 at once. *)
Definition sample_text (f co arg : Z) : prog :=
  if f =? 7 then PSignal co (PYield (PReturn (arg + 1))) else PReturn 0.

(** Coroutine 1000 of thread 100, with its stack at 8192: created; started
    with function 7 and argument 41; run by the worker until the worker waits
    again. *)
Definition created_world : world :=
  snd (the (None, empty_world)
         (coroutine_create h_8k 100 (Some 1000) (Some 8192) one_thread_world)).

Definition started_world : world :=
  the empty_world (coroutine_start h_8k 1000 7 41 created_world).

Definition sample_run : list action := replicate 13 (AWorker 100).

Definition finished_world : world :=
  the empty_world (run h_8k sample_text sample_run started_world).

(** The started coroutine, released by its creator: it is queued, and the
    list holds the only reference. *)
Definition queued_world : world :=
  the empty_world (coroutine_deref h_8k 1000 started_world).

(** The worker three steps into its first pass over the started coroutine. *)
Definition requeue_world : world :=
  the empty_world (worker_steps h_8k sample_text 4 100 started_world).

Definition sample_co (w : world) : coroutine :=
  default (new_coroutine h_8k 0 0) (cos w !! 1000).

Definition sample_thread (w : world) : coroutine_thread :=
  default {| th_co_list := []; th_signaled := 0; th_stopping := false;
             th_task := AtReturn |} (threads w !! 100).

(** ** Well-formed worlds *)

(** The coroutines the worker holds at a program point. *)
Definition visited (pc : worker_pc) : list Z :=
  match pc with
  | AtEnter co | AtNext co | AtRequeue co None => [co]
  | AtRequeue co (Some next_co) => [co; next_co]
  | _ => []
  end.

(** The data model of the specification, as far as the worker of [thread]
    relies on it: counters are not negative (section 3, [signaled]), and a
    coroutine the worker holds is queued, in the list of this thread and in no
    other (invariant 2 and [list_link]). *)
Definition worker_ok (thread : Z) (w : world) : Prop :=
  forall th, threads w !! thread = Some th ->
    0 <= th_signaled th /\
    forall co c, co ∈ visited (th_task th) -> cos w !! co = Some c ->
      co_list_entry c = true /\
      forall t' th', t' ≠ thread -> threads w !! t' = Some th' -> co ∉ th_co_list th'.

(** ** What a step may change *)

Definition is_saved (x : kernel_ctx) : Prop :=
  match x with
  | CtxYield _ | CtxYieldEnd => True
  | _ => False
  end.

(** What any step leaves of any coroutine: its magic and its stack; a new
    context is a saved one or the initial one of [coroutine_start]. *)
Definition co_evolves (h : coroutine_h) (c c' : coroutine) : Prop :=
  co_magic c' = co_magic c /\ co_stack c' = co_stack c /\
  (co_ctx c' = co_ctx c \/ is_saved (co_ctx c') \/
   co_ctx c' = CtxTrampoline (stack_self h (co_stack c))).

(** What a step leaves of the coroutine [co] under observation: with [own]
    false the step neither starts [co] nor runs its code; with [own] true it
    may run its code. *)
Definition co_rel (own : bool) (c c' : coroutine) : Prop :=
  co_magic c' = co_magic c /\ co_stack c' = co_stack c /\
  co_fun c' = co_fun c /\ co_arg c' = co_arg c /\
  (co_running c' = true -> co_running c = true) /\
  (co_ctx c' = co_ctx c \/ (own = true /\ is_saved (co_ctx c'))) /\
  (own = false -> co_ret c' = co_ret c).

(** Updates of the bookkeeping fields: reference count, signal count, list
    link, and clearing [running]. *)
Definition bookkeeping (f : coroutine -> coroutine) : Prop :=
  forall c, co_rel false c (f c).

(** The events such a step may log. *)
Definition ev_ok (own : bool) (co : Z) (e : event) : bool :=
  match e with
  | EvEnter x => negb (x =? co)
  | EvCall _ x _ => negb (x =? co)
  | EvRet x _ | EvDone x | EvYield x => own || negb (x =? co)
  | _ => true
  end.

Definition step_rel (h : coroutine_h) (own : bool) (co : Z) (w w' : world) : Prop :=
  mem w' = mem w /\
  (forall x c', cos w' !! x = Some c' -> exists c, cos w !! x = Some c /\ co_evolves h c c') /\
  (forall c', cos w' !! co = Some c' -> exists c, cos w !! co = Some c /\ co_rel own c c') /\
  exists evs, trace w' = evs ++ trace w /\ forallb (ev_ok own co) evs = true.

(** Every coroutine has an aligned stack inside the address space with its
    own address in the self-pointer word, and a context that starts at the
    trampoline starts from that word; the trampoline frame fits the stack. *)
Definition wf_stacks (h : coroutine_h) (w : world) : Prop :=
  5 <= COROUTINE_STACK_SHIFT h /\
  0 <= trampoline_frame h <= COROUTINE_STACK_SIZE h - 2 * sizeof_ulong /\
  forall x c, cos w !! x = Some c ->
    0 <= co_stack c /\ co_stack c + COROUTINE_STACK_SIZE h <= 2 ^ 64 /\
    co_stack c mod COROUTINE_STACK_SIZE h = 0 /\
    mem w !! stack_self h (co_stack c) = Some x /\
    forall rsp, co_ctx c = CtxTrampoline rsp -> rsp = stack_self h (co_stack c).

(** Whether an action is a [coroutine_start] of [co]. *)
Definition starts (co : Z) (a : action) : bool :=
  match a with
  | AStart x _ _ => x =? co
  | _ => false
  end.

(** ** Calls of the user function *)






(** ** A cancelled coroutine in the ready list *)

(** The coroutine [c] after a cancel, with its counters and link as given. *)
Definition cancelled_co (c : coroutine) (refs sig : Z) (linked : bool) : coroutine :=
  {| co_magic := co_magic c; co_thread := co_thread c; co_stack := co_stack c;
     co_ctx := co_ctx c; co_fun := co_fun c; co_arg := co_arg c; co_ret := co_ret c;
     co_running := false; co_ref_count := refs; co_signaled := sig;
     co_list_entry := linked |}.

(** The world [w] with the cancelled coroutine [co], alone in the ready list
    of its thread when [linked], the worker of that thread at [pc], and [evs]
    logged since. *)
Definition drain_world (w : world) (co : Z) (c : coroutine) (refs sig tsig : Z)
    (linked : bool) (pc : worker_pc) (evs : list event) : world :=
  {| cos := <[co := cancelled_co c refs sig linked]> (cos w);
     threads := <[co_thread c :=
                   {| th_co_list := if linked then [co] else [];
                      th_signaled := tsig; th_stopping := false; th_task := pc |}]>
                  (threads w);
     mem := mem w;
     trace := evs ++ trace w |}.

(** A coroutine that is not queued and has no signal pending, on a thread
    whose worker waits with an empty list. *)
Definition quiescent (co : Z) (c : coroutine) (w : world) : Prop :=
  cos w !! co = Some c /\
  co_list_entry c = false /\ co_signaled c = 0 /\
  (exists th, threads w !! co_thread c = Some th /\
     th_co_list th = [] /\ th_signaled th = 0 /\ th_stopping th = false /\
     th_task th = AtWait) /\
  forall t th, threads w !! t = Some th -> co ∉ th_co_list th.

(** A server whose host buffer has 8 bytes, asked to listen on a host of ten
    characters, with a first [ksock_listen_host] that succeeds. *)
Definition sample_env : start_env :=
  {| se_listen := fun _ => (0, 5); se_con_task := Task 1; se_listen_task := Task 2 |}.

Definition sample_server_world : server_world :=
  {| sw_srv := zero_server; sw_cons := ∅; sw_world := empty_world |}.

(** A round of the accept loop in which [ksock_accept] fails with -11. *)
Definition sample_round : accept_round :=
  {| ar_should_stop := false; ar_stopping := false;
     ar_con_mem := Some 500; ar_co_mem := Some 1000; ar_stack_mem := Some 8192;
     ar_accept := (-11, 0) |}.

(** ** Well-formed ready lists *)

(** No list has a coroutine twice, a coroutine in a list is linked, and no
    coroutine is in two lists (section 3 of the specification, [list_link]
    and invariant 2). *)
Definition lists_inv0 (w : world) : Prop :=
  (forall t th, threads w !! t = Some th -> NoDup (th_co_list th)) /\
  (forall t th x c, threads w !! t = Some th -> x ∈ th_co_list th ->
     cos w !! x = Some c -> co_list_entry c = true) /\
  (forall t t' th th' x, threads w !! t = Some th -> threads w !! t' = Some th' ->
     x ∈ th_co_list th -> x ∈ th_co_list th' -> t = t').

(** The coroutines a worker holds are in the list of its thread, and the
    next one is not the current one. *)
Definition visit_ok (w : world) (th : coroutine_thread) : Prop :=
  (forall x c, x ∈ visited (th_task th) -> cos w !! x = Some c -> x ∈ th_co_list th) /\
  (forall x n, th_task th = AtRequeue x (Some n) -> n ≠ x).

Definition visits_ok (w : world) : Prop :=
  forall t th, threads w !! t = Some th -> visit_ok w th.

Definition lists_inv (w : world) : Prop := lists_inv0 w /\ visits_ok w.

(** From [w] to [w'] no coroutine and no thread appeared, the workers stand
    where they stood, and a coroutine that was in a list is still in it or is
    no more. *)
Definition lists_grow (w w' : world) : Prop :=
  (forall x c', cos w' !! x = Some c' -> exists c, cos w !! x = Some c) /\
  (forall t th', threads w' !! t = Some th' ->
     exists th, threads w !! t = Some th /\ th_task th' = th_task th /\
       forall x, x ∈ th_co_list th -> x ∈ th_co_list th' \/ cos w' !! x = None).

(** A property of worlds that the API keeps: it does not look at counters,
    flags, contexts or the log, survives a destruction, and survives an
    append of an unlinked coroutine. *)
Record api_closed (h : coroutine_h) (I : world -> Prop) : Prop := {
  closed_put_co : forall w x c c',
    I w -> cos w !! x = Some c -> co_list_entry c' = co_list_entry c -> I (put_co x c' w);
  closed_put_thread : forall w t th th',
    I w -> threads w !! t = Some th ->
    th_co_list th' = th_co_list th -> th_task th' = th_task th -> I (put_thread t th' w);
  closed_log : forall w e, I w -> I (log e w);
  closed_delete : forall w x w', I w -> coroutine_delete h x w = Ok w' -> I w';
  closed_enqueue : forall w x c t w',
    I w -> cos w !! x = Some c -> co_list_entry c = false ->
    list_add_tail x t w = Ok w' -> I w'
}.

(** ** Logs and worlds of the further properties *)

(** Kinds of events, and how many of a kind a log has. *)
Definition is_kfree (e : event) : bool :=
  match e with
  | EvKfree _ => true
  | _ => false
  end.

(** A thread after [coroutine_thread_stop]. *)
Definition stopped_thread (th : coroutine_thread) : coroutine_thread :=
  {| th_co_list := []; th_signaled := th_signaled th; th_stopping := true;
     th_task := AtReturn |}.

Definition is_listen (e : event) : bool :=
  match e with
  | EvListen _ _ => true
  | _ => false
  end.

Definition is_sleep (e : event) : bool :=
  match e with
  | EvSleep _ => true
  | _ => false
  end.

Definition count_events (p : event -> bool) (l : list event) : nat :=
  length (List.filter p l).

(** The world with [evs] logged, most recent first. *)
Definition logs (evs : list event) (w : world) : world :=
  {| cos := cos w; threads := threads w; mem := mem w; trace := evs ++ trace w |}.

(** The attempts among [n] from the [i]-th on that fail with -EADDRINUSE. *)
Definition in_use (env : start_env) (i n : nat) : nat :=
  length (List.filter (fun j => fst (se_listen env j) =? - EADDRINUSE) (seq i n)).

(** The coroutine [c] after its function, started as [f] with [arg], has
    returned [v] and the worker has taken it out of the list. *)
Definition finished_co (c : coroutine) (f arg v : Z) : coroutine :=
  {| co_magic := co_magic c; co_thread := co_thread c; co_stack := co_stack c;
     co_ctx := CtxYieldEnd; co_fun := f; co_arg := arg; co_ret := v;
     co_running := false; co_ref_count := 1; co_signaled := 0;
     co_list_entry := false |}.

(** The coroutine [c] started as [f] with [arg], queued, with [refs]
    references and one signal pending. *)
Definition started_co (h : coroutine_h) (c : coroutine) (f arg refs : Z) : coroutine :=
  {| co_magic := co_magic c; co_thread := co_thread c; co_stack := co_stack c;
     co_ctx := CtxTrampoline (stack_self h (co_stack c)); co_fun := f; co_arg := arg;
     co_ret := co_ret c; co_running := true; co_ref_count := refs; co_signaled := 1;
     co_list_entry := true |}.

(** The world [w] with the coroutine [co] replaced by [c'], alone in the
    list of its thread, one signal pending for the thread, the worker at
    [pc], and [evs] logged since. *)
Definition pass_world (w : world) (co : Z) (c' : coroutine) (pc : worker_pc)
    (evs : list event) : world :=
  {| cos := <[co := c']> (cos w);
     threads := <[co_thread c' := {| th_co_list := [co]; th_signaled := 1;
                                     th_stopping := false; th_task := pc |}]> (threads w);
     mem := mem w;
     trace := evs ++ trace w |}.


(** ** Further sample values *)

(** Two coroutines of thread 100, 1000 as before and 2000 with its stack at
    16384: created; started with the functions 7 and 3; and with the worker
    three steps into its pass, after it has entered the first. *)
Definition two_created : world :=
  snd (the (None, empty_world)
         (coroutine_create h_8k 100 (Some 2000) (Some 16384) created_world)).

Definition two_started : world :=
  the empty_world
    (w ← coroutine_start h_8k 1000 7 41 two_created; coroutine_start h_8k 2000 3 0 w).

Definition two_entered : world :=
  the empty_world (worker_steps h_8k sample_text 3 100 two_started).

(** The code of every function drops the creator's reference of its
    coroutine and returns 0. *)
Definition release_text (f co arg : Z) : prog := PDeref co (PReturn 0).

(** Environments of [tlb_server_start]: the address is in use twice and then
    free; every attempt is refused, the second since the address is in use;
    and the address is free but one of the two tasks cannot be created. *)
Definition env_busy : start_env :=
  {| se_listen := fun i => if (i <? 2)%nat then (- EADDRINUSE, 0) else (0, 5);
     se_con_task := Task 1; se_listen_task := Task 2 |}.

Definition env_refused : start_env :=
  {| se_listen := fun i => if (i =? 1)%nat then (- EADDRINUSE, 0) else (-13, 0);
     se_con_task := Task 1; se_listen_task := Task 2 |}.

Definition env_no_worker : start_env :=
  {| se_listen := fun _ => (0, 5); se_con_task := ERR_PTR (-12);
     se_listen_task := Task 2 |}.

Definition env_no_listener : start_env :=
  {| se_listen := fun _ => (0, 5); se_con_task := Task 1;
     se_listen_task := ERR_PTR (-12) |}.

(** A server whose coroutine thread, at address 100, is started; a round of
    the accept loop in which [ksock_accept] returns the socket 9; and the
    server after that round. *)
Definition served_world : server_world :=
  {| sw_srv := zero_server; sw_cons := ∅; sw_world := one_thread_world |}.

Definition accepted_round : accept_round :=
  {| ar_should_stop := false; ar_stopping := false;
     ar_con_mem := Some 500; ar_co_mem := Some 1000; ar_stack_mem := Some 8192;
     ar_accept := (0, 9) |}.

Definition accepted_world : server_world :=
  snd (the (None, served_world)
         (tlb_server_listen_thread_routine h_8k 1 100 7 [accepted_round] served_world)).


(** * Properties *)

(** ** Arithmetic of words and counters *)

Lemma ulong_small (x : Z) : 0 <= x < 2 ^ 64 -> ulong x = x.
Proof. intros Hx. unfold ulong. apply Z.mod_small. exact Hx. Qed.

Lemma int32_small (x : Z) : - 2 ^ 31 <= x < 2 ^ 31 -> int32 x = x.
Proof. intros Hx. unfold int32. rewrite Z.mod_small; lia. Qed.

Lemma stack_size_pow (h : coroutine_h) :
  0 <= COROUTINE_STACK_SHIFT h ->
  COROUTINE_STACK_SIZE h = 2 ^ COROUTINE_STACK_SHIFT h.
Proof. intros Hs. unfold COROUTINE_STACK_SIZE. rewrite Z.shiftl_1_l. reflexivity. Qed.

Lemma stack_size_ge_32 (h : coroutine_h) :
  5 <= COROUTINE_STACK_SHIFT h -> 32 <= COROUTINE_STACK_SIZE h.
Proof.
  intros Hs. rewrite stack_size_pow by lia.
  change 32 with (2 ^ 5). apply Z.pow_le_mono_r; lia.
Qed.

(** Shifting right and left again rounds down to a multiple of the power. *)
Lemma shift_mask (x s : Z) :
  0 <= s -> Z.shiftl (Z.shiftr x s) s = x - x mod 2 ^ s.
Proof.
  intros Hs. rewrite Z.shiftr_div_pow2, Z.shiftl_mul_pow2 by lia.
  pose proof (Z.pow_pos_nonneg 2 s ltac:(lia) Hs).
  rewrite (Z.div_mod x (2 ^ s)) at 2 by lia. lia.
Qed.

Lemma mod0_multiple (x m : Z) : 0 < m -> x mod m = 0 -> exists q, x = m * q.
Proof.
  intros Hm Hx. exists (x / m).
  pose proof (Z.div_mod x m ltac:(lia)). lia.
Qed.

(** An aligned base is recovered from every pointer into its block. *)
Lemma mask_interior (base rsp s : Z) :
  0 <= s -> base mod 2 ^ s = 0 -> base <= rsp < base + 2 ^ s ->
  Z.shiftl (Z.shiftr rsp s) s = base.
Proof.
  intros Hs Hal Hin. rewrite shift_mask by lia.
  pose proof (Z.pow_pos_nonneg 2 s ltac:(lia) Hs) as Hpos.
  assert (Hm : rsp mod 2 ^ s = rsp - base); [|lia].
  apply mod0_multiple in Hal; [|lia]. destruct Hal as [q Hq].
  symmetry. apply (Z.mod_unique_pos rsp (2 ^ s) q); lia.
Qed.

(** And only an aligned base is. *)
Lemma mask_aligned (rsp s : Z) :
  0 <= s -> (Z.shiftl (Z.shiftr rsp s) s) mod 2 ^ s = 0.
Proof.
  intros Hs. rewrite Z.shiftl_mul_pow2 by lia. apply Z.mod_mul.
  pose proof (Z.pow_pos_nonneg 2 s ltac:(lia) Hs). lia.
Qed.



(** ** coroutine_create *)

Section CreateFacts.

Variable h : coroutine_h.

Lemma stack_words (stack : Z) :
  5 <= COROUTINE_STACK_SHIFT h ->
  0 <= stack -> stack + COROUTINE_STACK_SIZE h <= 2 ^ 64 ->
  stack_bottom stack = stack /\
  stack_top h stack = stack + COROUTINE_STACK_SIZE h - sizeof_ulong /\
  stack_self h stack = stack + COROUTINE_STACK_SIZE h - 2 * sizeof_ulong.
Proof.
  intros Hs H0 H1. pose proof (stack_size_ge_32 h Hs) as Hsz.
  unfold stack_bottom, stack_top, stack_self, sizeof_ulong.
  rewrite !ulong_small by lia. auto.
Qed.

Lemma stack_words_stored (m : gmap Z Z) (stack co : Z) :
  32 <= COROUTINE_STACK_SIZE h ->
  let m' := <[stack + COROUTINE_STACK_SIZE h - 2 * 8 := co]>
              (<[stack + COROUTINE_STACK_SIZE h - 8 := COROUTINE_STACK_TOP_MAGIC h]>
                 (<[stack := COROUTINE_STACK_BOTTOM_MAGIC h]> m)) in
  m' !! stack = Some (COROUTINE_STACK_BOTTOM_MAGIC h) /\
  m' !! (stack + COROUTINE_STACK_SIZE h - 8) = Some (COROUTINE_STACK_TOP_MAGIC h) /\
  m' !! (stack + COROUTINE_STACK_SIZE h - 2 * 8) = Some co.
Proof.
  intros Hsz. cbv zeta. repeat split.
  - rewrite lookup_insert_ne by lia. rewrite lookup_insert_ne by lia.
    apply lookup_insert_eq.
  - rewrite lookup_insert_ne by lia. apply lookup_insert_eq.
  - apply lookup_insert_eq.
Qed.

(** [coroutine_create] case by case: the first allocation fails; the second
    fails; both succeed and the stack passes or trips the alignment
    assertion. *)
Lemma coroutine_create_cases (thread : Z) (co_mem stack_mem : option Z) (w : world) :
  5 <= COROUTINE_STACK_SHIFT h ->
  (forall co stack, co_mem = Some co -> stack_mem = Some stack ->
     0 <= co < 2 ^ 64 /\ 0 <= stack /\ stack + COROUTINE_STACK_SIZE h <= 2 ^ 64) ->
  match co_mem, stack_mem with
  | None, _ => coroutine_create h thread co_mem stack_mem w = Ok (None, w)
  | Some co, None =>
    exists w', coroutine_create h thread co_mem stack_mem w = Ok (None, w') /\
      cos w' = delete co (cos w) /\ threads w' = threads w /\ mem w' = mem w /\
      trace w' = EvKfree co :: EvKmalloc co :: trace w
  | Some co, Some stack =>
    if Z.land stack (COROUTINE_PAGE_SIZE h - 1) =? 0 then
      exists w' c, coroutine_create h thread co_mem stack_mem w = Ok (Some co, w') /\
        cos w' !! co = Some c /\ co_stack c = stack /\
        load stack w' = Ok (COROUTINE_STACK_BOTTOM_MAGIC h) /\
        load (stack + COROUTINE_STACK_SIZE h - sizeof_ulong) w'
          = Ok (COROUTINE_STACK_TOP_MAGIC h) /\
        load (stack + COROUTINE_STACK_SIZE h - 2 * sizeof_ulong) w' = Ok co /\
        co_ref_count c = 1 /\ co_signaled c = 0 /\ co_list_entry c = false /\
        co_thread c = thread
    else coroutine_create h thread co_mem stack_mem w = Bug
  end.
Proof.
  intros Hs Hmem. destruct co_mem as [co|]; [|reflexivity].
  destruct stack_mem as [stack|]; simpl.
  - destruct (Hmem co stack eq_refl eq_refl) as (Hco & H0 & H1).
    pose proof (stack_size_ge_32 h Hs) as Hsz.
    destruct (stack_words stack Hs H0 H1) as (Eb & Et & Ese).
    rewrite (ulong_small stack) by lia.
    destruct (Z.land stack (COROUTINE_PAGE_SIZE h - 1) =? 0); simpl; [|reflexivity].
    eexists _, _. split; [reflexivity|].
    rewrite Eb, Et, Ese, (ulong_small co) by lia.
    unfold load, store, sizeof_ulong; simpl.
    rewrite lookup_insert_eq.
    repeat split; try reflexivity.
    + rewrite lookup_insert_ne by lia. rewrite lookup_insert_ne by lia.
      rewrite lookup_insert_eq. reflexivity.
    + rewrite lookup_insert_ne by lia. rewrite lookup_insert_eq. reflexivity.
    + rewrite lookup_insert_eq. reflexivity.
  - eexists. split; [reflexivity|]. simpl.
    rewrite delete_insert_eq. auto.
Qed.

(** C7: when [coroutine_create] returns null, one of the two allocations
    has failed and no object is left behind (the object built so far is
    freed again); when it returns a coroutine, the bottom word of its stack
    holds STACK_BOTTOM_MAGIC, the top word STACK_TOP_MAGIC, the word two words
    below the top a pointer to the coroutine itself, and its ref_count is 1,
    its signaled 0 and its list link empty.  It returns null whenever an
    allocation fails, and returns the coroutine whenever both succeed and the
    stack passes the alignment assertion. *)
Theorem coroutine_create_result (thread : Z) (co_mem stack_mem : option Z) (w : world) :
  5 <= COROUTINE_STACK_SHIFT h ->
  (forall co stack, co_mem = Some co -> stack_mem = Some stack ->
     0 <= co < 2 ^ 64 /\ 0 <= stack /\ stack + COROUTINE_STACK_SIZE h <= 2 ^ 64) ->
  (forall r w', coroutine_create h thread co_mem stack_mem w = Ok (r, w') ->
     match r with
     | None =>
       (co_mem = None \/ stack_mem = None) /\
       cos w' = match co_mem with Some co => delete co (cos w) | None => cos w end /\
       threads w' = threads w /\ mem w' = mem w
     | Some co =>
       co_mem = Some co /\
       exists stack c, stack_mem = Some stack /\
         cos w' !! co = Some c /\ co_stack c = stack /\ co_thread c = thread /\
         load stack w' = Ok (COROUTINE_STACK_BOTTOM_MAGIC h) /\
         load (stack + COROUTINE_STACK_SIZE h - sizeof_ulong) w'
           = Ok (COROUTINE_STACK_TOP_MAGIC h) /\
         load (stack + COROUTINE_STACK_SIZE h - 2 * sizeof_ulong) w' = Ok co /\
         co_ref_count c = 1 /\ co_signaled c = 0 /\ co_list_entry c = false
     end) /\
  (co_mem = None \/ stack_mem = None ->
   exists w', coroutine_create h thread co_mem stack_mem w = Ok (None, w')) /\
  (forall co stack, co_mem = Some co -> stack_mem = Some stack ->
     Z.land stack (COROUTINE_PAGE_SIZE h - 1) = 0 ->
     exists w', coroutine_create h thread co_mem stack_mem w = Ok (Some co, w')).
Proof.
  intros Hs Hmem.
  pose proof (coroutine_create_cases thread co_mem stack_mem w Hs Hmem) as R.
  destruct co_mem as [co|]; [destruct stack_mem as [stack|]|].
  - destruct (Z.land stack (COROUTINE_PAGE_SIZE h - 1) =? 0) eqn:Hal.
    + destruct R as (w1 & c & E & Hc & Hst & Hb & Ht & Hse & Hr & Hsg & Hl & Hth).
      split; [|split].
      * intros r w' H. rewrite E in H. injection H as <- <-.
        split; [reflexivity|]. exists stack, c. repeat split; auto.
      * intros [H|H]; discriminate.
      * intros co' stack' [= <-] [= <-] _. eauto.
    + split; [|split].
      * intros r w' H. rewrite R in H. discriminate.
      * intros [H|H]; discriminate.
      * intros co' stack' [= <-] [= <-] Hz. rewrite Hz in Hal. discriminate.
  - destruct R as (w1 & E & Hc & Ht & Hm & _). split; [|split].
    + intros r w' H. rewrite E in H. injection H as <- <-. auto.
    + intros _. eauto.
    + intros co' stack' _ H. discriminate.
  - split; [|split].
    + intros r w' H. rewrite R in H. injection H as <- <-. auto.
    + intros _. eauto.
    + intros co' stack' H. discriminate.
Qed.

End CreateFacts.

(** ** Stack alignment *)

Section AlignmentFacts.

Variable h : coroutine_h.


End AlignmentFacts.


(** ** Destruction *)

Section DerefFacts.

Variable h : coroutine_h.

(** The deref that takes ref_count from 1 to 0, in closed form. *)
Lemma deref_last_ref (co : Z) (c : coroutine) (w : world) :
  cos w !! co = Some c ->
  co_ref_count c = 1 ->
  coroutine_deref h co w =
    (_ ← check_magic h c w;
     Ok {| cos := delete co (cos w);
           threads := if co_list_entry c then threads (unlink co w) else threads w;
           mem := mem w;
           trace := EvKfree co :: EvKfree (co_stack c) :: trace w |}).
Proof.
  intros Hc Hr. unfold coroutine_deref, get_co. rewrite Hc. simpl.
  rewrite Hr. change (int32 (1 - 1)) with 0. simpl.
  unfold coroutine_delete, get_co. simpl. rewrite lookup_insert_eq. simpl.
  change (check_magic h (set_co_ref_count 0 c) (put_co co (set_co_ref_count 0 c) w))
    with (check_magic h c w).
  destruct (check_magic h c w) as [[]| | |]; simpl; try reflexivity.
  unfold list_del_init, get_co. simpl. rewrite lookup_insert_eq. simpl.
  destruct (co_list_entry c); simpl.
  - unfold update_co, get_co. simpl. rewrite lookup_insert_eq. simpl.
    unfold free_co, log. simpl. f_equal. f_equal.
    rewrite delete_insert_eq, delete_insert_eq. reflexivity.
  - unfold free_co, log. simpl. f_equal. f_equal.
    rewrite delete_insert_eq. reflexivity.
Qed.

Lemma list_del_gone (co : Z) (l : list Z) : co ∉ list_del co l.
Proof.
  unfold list_del. intros Hin. apply list_elem_of_filter in Hin.
  destruct Hin as [Hne _]. apply Hne. reflexivity.
Qed.

(** C5, as the code has it: the deref that takes ref_count from 1 to 0
    asserts the coroutine magic and the two stack magic words (and that
    ref_count is 0, which it then is); when they hold it goes on, whether the
    list link is empty or not: a linked coroutine is taken out of the list it
    is in, the stack is freed and then the object.  No assertion looks at the
    list link. *)
Theorem final_deref_destroys (co : Z) (c : coroutine) (w : world) :
  cos w !! co = Some c ->
  co_ref_count c = 1 ->
  (forall r, check_magic h c w = r -> r <> Ok tt ->
     forall w', coroutine_deref h co w <> Ok w') /\
  (check_magic h c w = Ok tt ->
   exists w', coroutine_deref h co w = Ok w' /\
     cos w' = delete co (cos w) /\ mem w' = mem w /\
     trace w' = EvKfree co :: EvKfree (co_stack c) :: trace w /\
     (co_list_entry c = false -> threads w' = threads w) /\
     (co_list_entry c = true ->
      forall t th, threads w' !! t = Some th -> co ∉ th_co_list th)).
Proof.
  intros Hc Hr. rewrite (deref_last_ref co c w Hc Hr). split.
  - intros r Hm Hne w'. rewrite Hm. destruct r as [[]| | |]; simpl; congruence.
  - intros Hm. rewrite Hm. simpl. eexists. split; [reflexivity|]. simpl.
    repeat split; auto.
    + intros ->. reflexivity.
    + intros -> t th Ht. rewrite lookup_fmap in Ht.
      destruct (threads w !! t) as [th0|]; [|discriminate].
      injection Ht as <-. simpl. apply list_del_gone.
Qed.

End DerefFacts.

(** C5, as stated, fails: a coroutine whose list link is not empty (it is
    queued) is destroyed by the final deref without any assertion firing. *)
Lemma final_deref_of_queued :
  exists c w',
    cos queued_world !! 1000 = Some c /\
    co_list_entry c = true /\ co_ref_count c = 1 /\
    coroutine_deref h_8k 1000 queued_world = Ok w' /\
    cos w' !! 1000 = None /\
    threads w' !! 100 = Some {| th_co_list := []; th_signaled := 1;
                                th_stopping := false; th_task := AtWait |}.
Proof.
  eexists _, _. split; [vm_compute; reflexivity|].
  split; [reflexivity|]. split; [reflexivity|].
  split; [vm_compute; reflexivity|].
  split; vm_compute; reflexivity.
Qed.

(** ** Signalling *)

Lemma int32_idem (a b : Z) : int32 (int32 a + b) = int32 (a + b).
Proof.
  unfold int32.
  replace ((a + 2 ^ 31) mod 2 ^ 32 - 2 ^ 31 + b + 2 ^ 31)
    with ((a + 2 ^ 31) mod 2 ^ 32 + b) by lia.
  rewrite Zplus_mod_idemp_l. f_equal. f_equal. lia.
Qed.

Lemma atomic_inc_iter (n : nat) (v : Z) :
  Nat.iter (S n) atomic_inc v = int32 (v + Z.of_nat (S n)).
Proof.
  induction n as [|n IH]; [reflexivity|].
  change (Nat.iter (S (S n)) atomic_inc v) with (atomic_inc (Nat.iter (S n) atomic_inc v)).
  rewrite IH. unfold atomic_inc. rewrite int32_idem. f_equal. lia.
Qed.

(** One [coroutine_signal], in closed form. *)
Lemma coroutine_signal_effect (co : Z) (c : coroutine) (th : coroutine_thread) (w : world) :
  cos w !! co = Some c ->
  threads w !! co_thread c = Some th ->
  coroutine_signal co w =
    Ok {| cos := <[co := signalled_co c]> (cos w);
          threads := <[co_thread c := signalled_thread co c th]> (threads w);
          mem := mem w;
          trace := EvWake (co_thread c) :: trace w |}.
Proof.
  intros Hc Ht. unfold coroutine_signal, get_co. rewrite Hc. simpl.
  unfold signalled_co, signalled_thread.
  destruct (co_list_entry c) eqn:Hl; simpl.
  - unfold update_thread, get_thread. simpl. rewrite Ht. simpl.
    unfold log, put_thread, put_co, set_co_signaled, set_th_signaled. simpl.
    rewrite Hl. reflexivity.
  - unfold coroutine_ref, list_add_tail, update_co, update_thread, get_co, get_thread.
    simpl. rewrite lookup_insert_eq. simpl. rewrite Ht. simpl.
    rewrite lookup_insert_eq. simpl. rewrite lookup_insert_eq. simpl.
    unfold log, put_thread, put_co. simpl.
    rewrite !insert_insert_eq. reflexivity.
Qed.

Lemma signalled_list_ok (co : Z) (c : coroutine) (th : coroutine_thread) :
  NoDup (th_co_list th) ->
  (co_list_entry c = true <-> co ∈ th_co_list th) ->
  NoDup (th_co_list (signalled_thread co c th)) /\
  co ∈ th_co_list (signalled_thread co c th).
Proof.
  intros Hnd Hl. unfold signalled_thread; simpl.
  destruct (co_list_entry c).
  - split; [exact Hnd | apply Hl; reflexivity].
  - split.
    + apply NoDup_app. split; [exact Hnd|]. split.
      * intros x Hx Hx'. apply list_elem_of_singleton in Hx'. subst x.
        apply Hl in Hx. discriminate.
      * apply NoDup_singleton.
    + apply elem_of_app. right. apply list_elem_of_singleton. reflexivity.
Qed.

(** C3: [S n] calls of [coroutine_signal] in a row, with nothing in between,
    append the coroutine to the ready list of its thread once if it was not
    queued and not at all if it was, take one reference for the list in the
    first case and none in the second, and count every call in both
    [signaled] counters; the coroutine is then in the list exactly once. *)
Theorem signal_enqueues_once (n : nat) (co : Z) (c : coroutine) (th : coroutine_thread)
    (w : world) :
  cos w !! co = Some c ->
  threads w !! co_thread c = Some th ->
  NoDup (th_co_list th) ->
  (co_list_entry c = true <-> co ∈ th_co_list th) ->
  exists w' c' th',
    signal_times (S n) co w = Ok w' /\
    cos w' = <[co := c']> (cos w) /\
    threads w' = <[co_thread c := th']> (threads w) /\
    th_co_list th' =
      (if co_list_entry c then th_co_list th else th_co_list th ++ [co]) /\
    co_ref_count c' =
      (if co_list_entry c then co_ref_count c else atomic_inc (co_ref_count c)) /\
    co_signaled c' = int32 (co_signaled c + Z.of_nat (S n)) /\
    th_signaled th' = int32 (th_signaled th + Z.of_nat (S n)) /\
    co_list_entry c' = true /\
    NoDup (th_co_list th') /\ co ∈ th_co_list th'.
Proof.
  revert c th w. induction n as [|n IH]; intros c th w Hc Ht Hnd Hl.
  - exists {| cos := <[co := signalled_co c]> (cos w);
              threads := <[co_thread c := signalled_thread co c th]> (threads w);
              mem := mem w; trace := EvWake (co_thread c) :: trace w |},
           (signalled_co c), (signalled_thread co c th).
    destruct (signalled_list_ok co c th Hnd Hl) as [Hnd' Hin'].
    simpl. rewrite (coroutine_signal_effect co c th w Hc Ht). simpl.
    repeat split; auto.
  - change (signal_times (S (S n)) co w)
      with (w ← coroutine_signal co w; signal_times (S n) co w).
    rewrite (coroutine_signal_effect co c th w Hc Ht). simpl mbind.
    destruct (signalled_list_ok co c th Hnd Hl) as [Hnd' Hin'].
    set (w1 := {| cos := <[co := signalled_co c]> (cos w);
                  threads := <[co_thread c := signalled_thread co c th]> (threads w);
                  mem := mem w; trace := EvWake (co_thread c) :: trace w |}).
    destruct (IH (signalled_co c) (signalled_thread co c th) w1)
      as (w' & c' & th' & E & Hcos & Hths & Hlist & Href & Hsig & Htsig & Hlk & Hnd2 & Hin2).
    + simpl. apply lookup_insert_eq.
    + simpl. apply lookup_insert_eq.
    + exact Hnd'.
    + split; auto.
    + exists w', c', th'. split; [exact E|].
      subst w1. simpl in Hcos, Hths, Hlist, Href, Hsig, Htsig.
      rewrite insert_insert_eq in Hcos. rewrite insert_insert_eq in Hths.
      repeat split; auto.
      * rewrite Hsig. unfold atomic_inc. rewrite int32_idem. f_equal. lia.
      * rewrite Htsig. unfold atomic_inc. rewrite int32_idem. f_equal. lia.
Qed.

(** ** coroutine_wait *)

Section WaitFacts.

Variable h : coroutine_h.
Variable text : Z -> Z -> Z -> prog.

Lemma set_co_ctx_same (c : coroutine) : set_co_ctx (co_ctx c) c = c.
Proof. destruct c; reflexivity. Qed.

(** C8: a coroutine [self] that calls [coroutine_wait(self, other)] yields
    when [other] is running, with a saved context that tests again, and so
    yields at every later entry that finds [other] running, changing nothing
    else; the first test that finds [other] not running goes on with
    [other.ret], and when that is the first test of all there is no yield. *)
Theorem coroutine_wait_loop (self other : Z) (k : Z -> prog) (o : coroutine) (w : world) :
  cos w !! other = Some o ->
  run_prog h text self (PWait other k) w =
    (if co_running o then
       w' ← coroutine_yield self (CtxYield (PWait other k)) w; Ok (None, w')
     else run_prog h text self (k (co_ret o)) w) /\
  forall s, cos w !! self = Some s -> co_ctx s = CtxYield (PWait other k) ->
    kernel_longjmp h text self w =
      if co_running o then Ok (log (EvYield self) (log (EvEnter self) w))
      else trampoline_call h text self (k (co_ret o)) (log (EvEnter self) w).
Proof.
  intros Ho. split.
  - simpl. unfold coroutine_wait, get_co. rewrite Ho. simpl.
    destruct (co_running o); reflexivity.
  - intros s Hs Hctx. unfold kernel_longjmp, get_co. rewrite Hs. simpl. rewrite Hctx.
    unfold trampoline_call. simpl. unfold coroutine_wait, get_co. simpl.
    rewrite Ho. simpl. destruct (co_running o); [|reflexivity].
    unfold coroutine_yield, update_co, get_co. simpl. rewrite Hs. simpl.
    rewrite <- Hctx, set_co_ctx_same. unfold put_co. simpl.
    rewrite insert_id by exact Hs. reflexivity.
Qed.

End WaitFacts.

(** ** tlb_server_start *)

Section ServerFacts.

Variable h : coroutine_h.
Variable text : Z -> Z -> Z -> prog.
Variable HOST_SIZE : Z.
Variable srv : Z.
Variable con_thread : Z.
Variable tlb_con_coroutine : Z.

(** [snprintf] returns the length of the host whether it fits or not, so the
    test of [tlb_server_start] never fails. *)
Lemma host_test_passes (host : string) :
  Z.of_nat (String.length host) < 2 ^ 31 ->
  negb (ulong (snd (snprintf_s HOST_SIZE host)) =? strlen host) = false.
Proof.
  intros Hlen. unfold snprintf_s, strlen. simpl.
  rewrite int32_small by lia. rewrite Z.eqb_refl. reflexivity.
Qed.

(** C9 fails on the code: for a host that does not fit in the buffer the
    function does not return EINVAL.  When the first [ksock_listen_host] and
    both [kthread_create] succeed, it opens the socket on the truncated host,
    starts the coroutine thread and the listener, and returns 0. *)
Theorem tlb_server_start_long_host (env : start_env) (fuel : nat) (host : string)
    (port sock t1 t2 : Z) (sw : server_world) :
  HOST_SIZE <= Z.of_nat (String.length host) < 2 ^ 31 ->
  se_listen env O = (0, sock) ->
  se_con_task env = Task t1 ->
  se_listen_task env = Task t2 ->
  exists sw',
    tlb_server_start h text HOST_SIZE con_thread env fuel host port sw = Ok (0, sw') /\
    srv_host (sw_srv sw') = String.substring 0 (Z.to_nat (HOST_SIZE - 1)) host /\
    srv_listen_sock (sw_srv sw') = sock /\
    srv_listen_thread (sw_srv sw') = t2 /\
    (exists th, threads (sw_world sw') !! con_thread = Some th /\ th_task th = AtWait) /\
    trace (sw_world sw') =
      EvTaskWake t2 ::
      EvListen (String.substring 0 (Z.to_nat (HOST_SIZE - 1)) host) port ::
      trace (sw_world sw).
Proof.
  intros Hlen Hl Hc Ht. unfold tlb_server_start.
  pose proof (host_test_passes host ltac:(lia)) as Htest.
  destruct (snprintf_s HOST_SIZE host) as [buf n] eqn:Es.
  simpl in Htest. rewrite Htest.
  assert (Hbuf : buf = String.substring 0 (Z.to_nat (HOST_SIZE - 1)) host)
    by (unfold snprintf_s in Es; congruence).
  unfold listen_attempts. rewrite Hl. simpl.
  unfold coroutine_thread_start. rewrite Hc. simpl. rewrite Ht. simpl.
  eexists. split; [reflexivity|]. simpl. rewrite Hbuf.
  repeat split; try reflexivity.
  eexists. rewrite lookup_insert_eq. split; reflexivity.
Qed.

(** ** The accept loop *)

(** C10: in a round of the accept loop whose [ksock_accept] fails, the
    connection made for the round is deleted: its coroutine, created with one
    reference and never started or signalled, is dereferenced once and with
    that destroyed, stack first, without a context switch or a call of a user
    function in between; the loop goes on with the next round.  In a round in
    which the connection cannot be created the routine returns 0 with
    listen_thread_stopping set. *)
Theorem accept_round_failures (r : accept_round) (rounds : list accept_round)
    (sw : server_world) :
  5 <= COROUTINE_STACK_SHIFT h ->
  ar_should_stop r = false -> ar_stopping r = false ->
  (forall con co stack,
     ar_con_mem r = Some con -> ar_co_mem r = Some co -> ar_stack_mem r = Some stack ->
     fst (ar_accept r) <> 0 ->
     0 <= co < 2 ^ 64 -> 0 <= stack -> stack + COROUTINE_STACK_SIZE h <= 2 ^ 64 ->
     Z.land stack (COROUTINE_PAGE_SIZE h - 1) = 0 ->
     tlb_server_listen_thread_routine h srv con_thread tlb_con_coroutine (r :: rounds) sw =
     tlb_server_listen_thread_routine h srv con_thread tlb_con_coroutine rounds
       {| sw_srv := sw_srv sw;
          sw_cons := <[con := {| con_sock := 0; con_co := co; con_srv := srv |}]> (sw_cons sw);
          sw_world :=
            {| cos := delete co (cos (sw_world sw));
               threads := threads (sw_world sw);
               mem := <[stack + COROUTINE_STACK_SIZE h - 2 * sizeof_ulong := co]>
                        (<[stack + COROUTINE_STACK_SIZE h - sizeof_ulong :=
                             COROUTINE_STACK_TOP_MAGIC h]>
                           (<[stack := COROUTINE_STACK_BOTTOM_MAGIC h]> (mem (sw_world sw))));
               trace := EvKfree co :: EvKfree stack :: EvKmalloc stack :: EvKmalloc co ::
                        EvKmalloc con :: trace (sw_world sw) |} |}) /\
  (forall sw1,
     tlb_con_create h srv con_thread (ar_con_mem r) (ar_co_mem r) (ar_stack_mem r) sw
       = Ok (None, sw1) ->
     tlb_server_listen_thread_routine h srv con_thread tlb_con_coroutine (r :: rounds) sw =
       Ok (Some 0, listen_thread_exit sw1) /\
     srv_listen_thread_stopping (sw_srv (listen_thread_exit sw1)) = true).
Proof.
  intros Hs Hstop Hstopping. split.
  - intros con co stack Hcon Hco Hstack Hacc Bco B0 B1 Hal.
    pose proof (stack_size_ge_32 h Hs) as Hsz.
    destruct (stack_words h stack Hs B0 B1) as (Eb & Et & Ese).
    cbn [tlb_server_listen_thread_routine]. rewrite Hstop, Hstopping. simpl.
    unfold tlb_con_create. rewrite Hcon, Hco, Hstack. simpl.
    rewrite (ulong_small stack) by lia. rewrite Hal. simpl.
    apply Z.eqb_neq in Hacc. rewrite Hacc. simpl.
    unfold tlb_con_delete. simpl. rewrite lookup_insert_eq. simpl.
    rewrite Eb, Et, Ese, (ulong_small co) by lia.
    erewrite deref_last_ref.
    2:{ simpl. apply lookup_insert_eq. }
    2:{ reflexivity. }
    unfold check_magic. simpl. rewrite Z.eqb_refl. simpl.
    rewrite Eb, Et. unfold load, sizeof_ulong in *. simpl.
    destruct (stack_words_stored h (mem (sw_world sw)) stack co Hsz) as (L1 & L2 & _).
    rewrite L1. simpl. rewrite Z.eqb_refl. simpl.
    rewrite L2. simpl. rewrite Z.eqb_refl. simpl.
    rewrite delete_insert_eq. reflexivity.
  - intros sw1 Hcreate.
    cbn [tlb_server_listen_thread_routine]. rewrite Hstop, Hstopping. simpl.
    rewrite Hcreate. simpl. split; reflexivity.
Qed.

End ServerFacts.

(** ** The worker loop and the loop of the specification *)

Lemma bind_Ok {A B} (m : result A) (f : A -> result B) (b : B) :
  m ≫= f = Ok b -> exists a, m = Ok a /\ f a = Ok b.
Proof. destruct m; simpl; try discriminate. eauto. Qed.

Lemma list_del_notin (co : Z) (l : list Z) : co ∉ l -> list_del co l = l.
Proof.
  intros Hn. unfold list_del. induction l as [|x l IH]; [reflexivity|].
  apply not_elem_of_cons in Hn. destruct Hn as [Hx Hl].
  rewrite filter_cons_True by congruence. rewrite IH by exact Hl. reflexivity.
Qed.

Lemma set_th_co_list_same (th : coroutine_thread) : set_th_co_list (th_co_list th) th = th.
Proof. destruct th; reflexivity. Qed.

(** Taking an entry out of the list it is in is taking it out of the list of
    its thread, when no other list has it. *)
Lemma unlink_one_thread (co thread : Z) (th : coroutine_thread) (w : world) :
  threads w !! thread = Some th ->
  (forall t' th', t' ≠ thread -> threads w !! t' = Some th' -> co ∉ th_co_list th') ->
  threads (unlink co w) =
    <[thread := set_th_co_list (list_del co (th_co_list th)) th]> (threads w).
Proof.
  intros Ht Hothers. apply map_eq. intros t'. unfold unlink; simpl.
  rewrite lookup_fmap. destruct (decide (t' = thread)) as [->|Hne].
  - rewrite lookup_insert_eq, Ht. reflexivity.
  - rewrite lookup_insert_ne by congruence.
    destruct (threads w !! t') as [th'|] eqn:Ht'; [|reflexivity]. simpl.
    rewrite list_del_notin by eauto. rewrite set_th_co_list_same. reflexivity.
Qed.

Section RefinementFacts.

Variable h : coroutine_h.
Variable text : Z -> Z -> Z -> prog.

(** The walk of the code finds what the specification describes: the first
    entry whose reference count is not zero, and increments that count. *)
Lemma first_usable_spec (l : list Z) (w : world) (r : option Z) (w' : world) :
  first_usable l w = Ok (r, w') ->
  List.find (spec_usable w) l = r /\
  match r with Some c => coroutine_ref c w | None => Ok w end = Ok w'.
Proof.
  induction l as [|co l IH]; simpl.
  - intros [= <- <-]. auto.
  - intros H. apply bind_Ok in H. destruct H as (c & Hc & H).
    unfold get_co in Hc. unfold spec_usable at 1.
    destruct (cos w !! co) as [c0|] eqn:E; [|discriminate].
    injection Hc as ->.
    unfold atomic_inc_not_zero in H.
    destruct (co_ref_count c =? 0) eqn:Hz; simpl.
    + apply IH. exact H.
    + injection H as <- <-. split; [reflexivity|].
      unfold coroutine_ref, update_co, get_co. rewrite E. reflexivity.
Qed.

End RefinementFacts.

Section WorkerRefinement.

Variable h : coroutine_h.
Variable text : Z -> Z -> Z -> prog.

Lemma next_coroutine_refines (thread : Z) (prev : option Z) (w : world)
    (r : option Z) (w' : world) :
  (forall p c, prev = Some p -> cos w !! p = Some c -> co_list_entry c = true) ->
  coroutine_thread_next_coroutine h thread prev w = Ok (r, w') ->
  spec_next_ready h thread prev w = Ok (r, w').
Proof.
  intros Hlinked H. unfold coroutine_thread_next_coroutine in H.
  unfold spec_next_ready.
  apply bind_Ok in H. destruct H as (th & Hth & H). rewrite Hth. simpl.
  destruct prev as [p|].
  - apply bind_Ok in H. destruct H as (c & Hc & H).
    assert (Hl : co_list_entry c = true).
    { unfold get_co in Hc. destruct (cos w !! p) eqn:E; [|discriminate].
      injection Hc as ->. eapply Hlinked; eauto. }
    rewrite Hl in H.
    apply bind_Ok in H. destruct H as ([co w1] & Hwalk & H).
    apply bind_Ok in Hwalk. destruct Hwalk as (l & Hl' & Hwalk). rewrite Hl'. simpl.
    apply first_usable_spec in Hwalk. destruct Hwalk as [Hfind Href].
    rewrite Hfind, Href. simpl. exact H.
  - assert (Hwalk : first_usable (th_co_list th) w = Ok (r, w')).
    { destruct (th_co_list th); [exact H|exact H]. }
    apply first_usable_spec in Hwalk. destruct Hwalk as [Hfind Href].
    simpl. rewrite Hfind, Href. reflexivity.
Qed.

Lemma set_link_back (c : coroutine) :
  co_list_entry c = true ->
  set_co_list_entry true (set_co_list_entry false c) = c.
Proof. destruct c; simpl; intros ->; reflexivity. Qed.

(** C2: every step the worker loop of the code takes without running into
    an assertion is the step the loop of the specification takes from the
    same program point of a well-formed world: it leaves the wait when it is
    stopping or signalled, returns if stopping, takes the coroutines from
    the ready list, enters one only if it is running, then decrements its
    [signaled] counter and removes and dereferences it when the counter has
    reached zero and moves it to the tail otherwise, and leaves the drain
    loop exactly when the decrement of the [signaled] counter of the thread
    reaches zero. *)
Theorem worker_refines_spec (thread : Z) (w w' : world) :
  worker_ok thread w ->
  coroutine_thread_routine h text thread w = Ok w' ->
  spec_scheduler_loop h text thread w = Ok w'.
Proof.
  intros Hok H. unfold coroutine_thread_routine in H. unfold spec_scheduler_loop.
  apply bind_Ok in H. destruct H as (th & Hth & H). rewrite Hth.
  cbn [mbind result_bind].
  assert (Hth' : threads w !! thread = Some th).
  { unfold get_thread in Hth. destruct (threads w !! thread); [|discriminate].
    injection Hth as ->. reflexivity. }
  destruct (Hok th Hth') as [Hsig Hvis].
  destruct (th_task th) as [| |co|co|co nxt| |] eqn:Hpc.
  - (* AtWait *)
    destruct (th_stopping th); [exact H|]. simpl in H.
    replace (0 <? th_signaled th) with (negb (th_signaled th =? 0)); [exact H|].
    destruct (Z.eqb_spec (th_signaled th) 0) as [->|Hne]; [reflexivity|].
    symmetry. apply Z.ltb_lt. lia.
  - (* AtDrain *)
    apply bind_Ok in H. destruct H as ([co w1] & Hn & H).
    apply next_coroutine_refines in Hn; [|discriminate].
    rewrite Hn. exact H.
  - (* AtEnter *)
    apply bind_Ok in H. destruct H as (c & Hc & H). rewrite Hc. simpl.
    apply bind_Ok in H. destruct H as (w1 & He & H).
    destruct (co_running c).
    + unfold coroutine_enter in He.
      apply bind_Ok in He. destruct He as (c1 & _ & He).
      apply bind_Ok in He. destruct He as (_ & _ & He).
      apply bind_Ok in He. destruct He as (_ & _ & He).
      rewrite He. exact H.
    + rewrite He. exact H.
  - (* AtNext *)
    apply bind_Ok in H. destruct H as ([nxt w1] & Hn & H).
    apply next_coroutine_refines in Hn.
    + rewrite Hn. exact H.
    + intros p c [= <-] Hc. eapply Hvis; [|exact Hc]. simpl. constructor.
  - (* AtRequeue *)
    apply bind_Ok in H. destruct H as (c & Hc & H). rewrite Hc.
    cbn [mbind result_bind].
    assert (Hc' : cos w !! co = Some c).
    { unfold get_co in Hc. destruct (cos w !! co); [|discriminate].
      injection Hc as ->. reflexivity. }
    assert (Hin : co ∈ visited (AtRequeue co nxt)) by (destruct nxt; simpl; constructor).
    destruct (Hvis co c Hin Hc') as [Hl Hothers].
    destruct (atomic_dec_and_test (co_signaled c)) as [v zero].
    apply bind_Ok in H. destruct H as (w1 & Hq & H).
    set (c0 := set_co_signaled v c) in *.
    set (w0 := put_co co c0 w) in *.
    assert (Hdel : list_del_init co w0 =
                   Ok (put_co co (set_co_list_entry false c0) (unlink co w0))).
    { unfold list_del_init, get_co, w0. simpl. rewrite lookup_insert_eq. simpl.
      rewrite Hl. unfold update_co, get_co. simpl. rewrite lookup_insert_eq. reflexivity. }
    assert (Hun : threads (unlink co w0) =
                  <[thread := set_th_co_list (list_del co (th_co_list th)) th]> (threads w0)).
    { apply unlink_one_thread; [exact Hth'|exact Hothers]. }
    rewrite Hl in Hq. simpl in Hq. rewrite Hdel in Hq. simpl in Hq.
    assert (Hrem : spec_remove thread co w0 =
                   Ok (put_co co (set_co_list_entry false c0) (unlink co w0))).
    { unfold spec_remove, update_thread, get_thread. simpl. rewrite Hth'. simpl.
      unfold update_co, get_co. simpl. rewrite lookup_insert_eq. simpl.
      unfold put_co, put_thread, unlink in *. simpl in *. rewrite Hun. reflexivity. }
    destruct zero.
    + rewrite Hrem. simpl. rewrite Hq. exact H.
    + assert (Hmv : spec_move_to_tail thread co w0 = Ok w1).
      { unfold spec_move_to_tail, update_thread, get_thread. simpl. rewrite Hth'. simpl.
        unfold list_add_tail, update_thread, get_thread in Hq. simpl in Hq.
        rewrite lookup_fmap, Hth' in Hq. simpl in Hq.
        unfold update_co, get_co in Hq. simpl in Hq. rewrite lookup_insert_eq in Hq.
        simpl in Hq. rewrite <- Hq. f_equal.
        unfold put_co, put_thread. simpl. f_equal.
        - rewrite !insert_insert_eq. fold c0.
          rewrite set_link_back by exact Hl. reflexivity.
        - change ((fun th0 => set_th_co_list (list_del co (th_co_list th0)) th0)
                    <$> threads w) with (threads (unlink co w0)).
          rewrite Hun. simpl. rewrite insert_insert_eq. reflexivity. }
      rewrite Hmv. exact H.
  - (* AtPassEnd *) exact H.
  - (* AtReturn *) exact H.
Qed.

End WorkerRefinement.

(** ** Steps that leave a coroutine alone *)

Lemma get_co_Ok (x : Z) (w : world) (c : coroutine) :
  get_co x w = Ok c -> cos w !! x = Some c.
Proof. unfold get_co. destruct (cos w !! x); simpl; congruence. Qed.

Lemma get_thread_Ok (t : Z) (w : world) (th : coroutine_thread) :
  get_thread t w = Ok th -> threads w !! t = Some th.
Proof. unfold get_thread. destruct (threads w !! t); simpl; congruence. Qed.

Ltac bind_inv H :=
  let a := fresh "a" in
  let E := fresh "E" in
  apply bind_Ok in H; destruct H as (a & E & H).

Lemma co_evolves_refl (h : coroutine_h) (c : coroutine) : co_evolves h c c.
Proof. repeat split; auto. Qed.

Lemma co_evolves_trans (h : coroutine_h) (c1 c2 c3 : coroutine) :
  co_evolves h c1 c2 -> co_evolves h c2 c3 -> co_evolves h c1 c3.
Proof.
  intros (M1 & S1 & X1) (M2 & S2 & X2). repeat split; try congruence.
  destruct X2 as [X2|[X2|X2]]; [|auto|].
  - rewrite X2. exact X1.
  - right. right. rewrite X2, S1. reflexivity.
Qed.

Lemma co_rel_refl (own : bool) (c : coroutine) : co_rel own c c.
Proof. repeat split; auto. Qed.

Lemma co_rel_trans (own : bool) (c1 c2 c3 : coroutine) :
  co_rel own c1 c2 -> co_rel own c2 c3 -> co_rel own c1 c3.
Proof.
  intros (M1 & S1 & F1 & A1 & R1 & X1 & V1) (M2 & S2 & F2 & A2 & R2 & X2 & V2).
  repeat split; try congruence; auto.
  - destruct X2 as [X2|X2]; [|auto]. rewrite X2. exact X1.
  - intros Ho. rewrite V2, V1 by exact Ho. reflexivity.
Qed.

Lemma co_rel_evolves (h : coroutine_h) (own : bool) (c c' : coroutine) :
  co_rel own c c' -> co_evolves h c c'.
Proof.
  intros (M & S & _ & _ & _ & X & _). repeat split; auto.
  destruct X as [X|[_ X]]; auto.
Qed.

Lemma co_rel_own (own : bool) (c c' : coroutine) :
  co_rel false c c' -> co_rel own c c'.
Proof.
  intros (M & S & F & A & R & X & V). repeat split; auto.
  destruct X as [X|[X _]]; [auto|discriminate].
Qed.

Lemma ev_ok_own (own : bool) (co : Z) (e : event) :
  ev_ok false co e = true -> ev_ok own co e = true.
Proof. destruct e, own; simpl; auto. Qed.

Section StepFacts.

Variable h : coroutine_h.

Lemma step_rel_refl (own : bool) (co : Z) (w : world) : step_rel h own co w w.
Proof.
  split; [reflexivity|]. split; [|split].
  - intros x c' Hx. exists c'. split; [exact Hx|apply co_evolves_refl].
  - intros c' Hx. exists c'. split; [exact Hx|apply co_rel_refl].
  - exists []. split; reflexivity.
Qed.

Lemma step_rel_trans (own : bool) (co : Z) (w1 w2 w3 : world) :
  step_rel h own co w1 w2 -> step_rel h own co w2 w3 -> step_rel h own co w1 w3.
Proof.
  intros (M1 & E1 & K1 & evs1 & T1 & F1) (M2 & E2 & K2 & evs2 & T2 & F2).
  split; [congruence|]. split; [|split].
  - intros x c3 H3. destruct (E2 x c3 H3) as (c2 & H2 & R2).
    destruct (E1 x c2 H2) as (c1 & H1 & R1).
    exists c1. split; [exact H1|]. eapply co_evolves_trans; eauto.
  - intros c3 H3. destruct (K2 c3 H3) as (c2 & H2 & R2).
    destruct (K1 c2 H2) as (c1 & H1 & R1).
    exists c1. split; [exact H1|]. eapply co_rel_trans; eauto.
  - exists (evs2 ++ evs1). split.
    + rewrite T2, T1, app_assoc. reflexivity.
    + rewrite forallb_app, F1, F2. reflexivity.
Qed.

Lemma step_rel_own (own : bool) (co : Z) (w w' : world) :
  step_rel h false co w w' -> step_rel h own co w w'.
Proof.
  intros (M & E & K & evs & T & F). split; [exact M|]. split; [exact E|]. split.
  - intros c' H'. destruct (K c' H') as (c & Hc & R). exists c. split; [exact Hc|].
    apply co_rel_own. exact R.
  - exists evs. split; [exact T|].
    apply forallb_forall. intros e He.
    apply ev_ok_own. eapply forallb_forall in F; eauto.
Qed.

(** The primitive changes of a world. *)

Lemma step_put_co (own : bool) (co x : Z) (c c' : coroutine) (w : world) :
  cos w !! x = Some c ->
  co_evolves h c c' ->
  (x = co -> co_rel own c c') ->
  step_rel h own co w (put_co x c' w).
Proof.
  intros Hx He Hk. split; [reflexivity|]. split; [|split].
  - intros y cy Hy. simpl in Hy. destruct (decide (y = x)) as [->|Hne].
    + rewrite lookup_insert_eq in Hy. injection Hy as <-. eauto.
    + rewrite lookup_insert_ne in Hy by congruence.
      exists cy. split; [exact Hy|apply co_evolves_refl].
  - intros cy Hy. simpl in Hy. destruct (decide (co = x)) as [->|Hne].
    + rewrite lookup_insert_eq in Hy. injection Hy as <-. eauto.
    + rewrite lookup_insert_ne in Hy by congruence.
      exists cy. split; [exact Hy|apply co_rel_refl].
  - exists []. split; reflexivity.
Qed.

Lemma step_same_cos (own : bool) (co : Z) (w w' : world) (evs : list event) :
  cos w' = cos w -> mem w' = mem w -> trace w' = evs ++ trace w ->
  forallb (ev_ok own co) evs = true ->
  step_rel h own co w w'.
Proof.
  intros Hc Hm Ht Hf. split; [exact Hm|]. split; [|split].
  - intros x c' Hx. rewrite Hc in Hx. exists c'. split; [exact Hx|apply co_evolves_refl].
  - intros c' Hx. rewrite Hc in Hx. exists c'. split; [exact Hx|apply co_rel_refl].
  - exists evs. auto.
Qed.

Lemma step_put_thread (own : bool) (co t : Z) (th : coroutine_thread) (w : world) :
  step_rel h own co w (put_thread t th w).
Proof. apply (step_same_cos own co w _ []); reflexivity. Qed.

Lemma step_unlink (own : bool) (co x : Z) (w : world) :
  step_rel h own co w (unlink x w).
Proof. apply (step_same_cos own co w _ []); reflexivity. Qed.

Lemma step_log (own : bool) (co : Z) (e : event) (w : world) :
  ev_ok own co e = true -> step_rel h own co w (log e w).
Proof.
  intros He. apply (step_same_cos own co w _ [e]); try reflexivity.
  simpl. rewrite He. reflexivity.
Qed.

Lemma step_free_co (own : bool) (co x : Z) (w : world) :
  step_rel h own co w (free_co x w).
Proof.
  split; [reflexivity|]. split; [|split].
  - intros y cy Hy. simpl in Hy. apply lookup_delete_Some in Hy. destruct Hy as [_ Hy].
    exists cy. split; [exact Hy|apply co_evolves_refl].
  - intros cy Hy. simpl in Hy. apply lookup_delete_Some in Hy. destruct Hy as [_ Hy].
    exists cy. split; [exact Hy|apply co_rel_refl].
  - exists []. split; reflexivity.
Qed.

Lemma step_update_thread (own : bool) (co t : Z) (f : coroutine_thread -> coroutine_thread)
    (w w' : world) :
  update_thread t f w = Ok w' -> step_rel h own co w w'.
Proof.
  unfold update_thread. intros H. bind_inv H. injection H as <-. apply step_put_thread.
Qed.

Lemma step_update_co (own : bool) (co x : Z) (f : coroutine -> coroutine) (w w' : world) :
  bookkeeping f -> update_co x f w = Ok w' -> step_rel h own co w w'.
Proof.
  intros Hf H. unfold update_co in H. bind_inv H. injection H as <-.
  apply get_co_Ok in E. eapply step_put_co; [exact E| |].
  - eapply co_rel_evolves. apply Hf.
  - intros _. apply co_rel_own. apply Hf.
Qed.

Lemma book_ref_count (g : coroutine -> Z) : bookkeeping (fun c => set_co_ref_count (g c) c).
Proof. intros c. repeat split; auto. Qed.

Lemma book_signaled (g : coroutine -> Z) : bookkeeping (fun c => set_co_signaled (g c) c).
Proof. intros c. repeat split; auto. Qed.

Lemma book_list_entry (b : bool) : bookkeeping (set_co_list_entry b).
Proof. intros c. repeat split; auto. Qed.

Lemma book_not_running : bookkeeping (set_co_running false).
Proof. intros c. repeat split; auto. simpl. discriminate. Qed.

End StepFacts.

Section ApiSteps.

Variable h : coroutine_h.
Variable text : Z -> Z -> Z -> prog.

Ltac chain := eapply step_rel_trans; [|eassumption || eauto].

Lemma coroutine_ref_step (own : bool) (co x : Z) (w w' : world) :
  coroutine_ref x w = Ok w' -> step_rel h own co w w'.
Proof. apply step_update_co. apply (book_ref_count (fun c => atomic_inc (co_ref_count c))). Qed.

Lemma list_add_tail_step (own : bool) (co x t : Z) (w w' : world) :
  list_add_tail x t w = Ok w' -> step_rel h own co w w'.
Proof.
  unfold list_add_tail. intros H. bind_inv H.
  eapply step_rel_trans.
  - eapply step_update_thread. exact E.
  - eapply step_update_co; [apply book_list_entry|exact H].
Qed.

Lemma list_del_init_step (own : bool) (co x : Z) (w w' : world) :
  list_del_init x w = Ok w' -> step_rel h own co w w'.
Proof.
  unfold list_del_init. intros H. bind_inv H.
  destruct (co_list_entry a).
  - eapply step_rel_trans; [apply (step_unlink h own co x)|].
    eapply step_update_co; [apply book_list_entry|exact H].
  - injection H as <-. apply step_rel_refl.
Qed.

Lemma coroutine_delete_step (own : bool) (co x : Z) (w w' : world) :
  coroutine_delete h x w = Ok w' -> step_rel h own co w w'.
Proof.
  unfold coroutine_delete. intros H. bind_inv H. bind_inv H. bind_inv H. bind_inv H.
  injection H as <-.
  eapply step_rel_trans; [|apply step_log; reflexivity].
  eapply step_rel_trans; [|apply step_free_co].
  eapply step_rel_trans; [|apply step_log; reflexivity].
  eapply list_del_init_step; eassumption.
Qed.

Lemma coroutine_deref_step (own : bool) (co x : Z) (w w' : world) :
  coroutine_deref h x w = Ok w' -> step_rel h own co w w'.
Proof.
  unfold coroutine_deref. intros H. bind_inv H. apply get_co_Ok in E.
  destruct (atomic_dec_and_test (co_ref_count a)) as [v zero].
  assert (S1 : step_rel h own co w (put_co x (set_co_ref_count v a) w)).
  { eapply step_put_co; [exact E| |].
    - eapply co_rel_evolves. apply (book_ref_count (fun _ => v)).
    - intros _. apply co_rel_own. apply (book_ref_count (fun _ => v)). }
  destruct zero.
  - eapply step_rel_trans; [exact S1|]. eapply coroutine_delete_step. exact H.
  - injection H as <-. exact S1.
Qed.

Lemma coroutine_signal_step (own : bool) (co x : Z) (w w' : world) :
  coroutine_signal x w = Ok w' -> step_rel h own co w w'.
Proof.
  unfold coroutine_signal. intros H. bind_inv H. apply get_co_Ok in E.
  bind_inv H. bind_inv H. injection H as <-.
  assert (S1 : step_rel h own co w
                 (put_co x (set_co_signaled (atomic_inc (co_signaled a)) a) w)).
  { eapply step_put_co; [exact E| |].
    - eapply co_rel_evolves. apply (book_signaled (fun c => atomic_inc (co_signaled c))).
    - intros _. apply co_rel_own.
      apply (book_signaled (fun c => atomic_inc (co_signaled c))). }
  eapply step_rel_trans; [|apply step_log; reflexivity].
  eapply step_rel_trans; [|eapply step_update_thread; eassumption].
  eapply step_rel_trans; [exact S1|].
  destruct (co_list_entry a).
  - injection E0 as <-. apply step_rel_refl.
  - bind_inv E0.
    eapply step_rel_trans; [eapply coroutine_ref_step; eassumption|].
    eapply list_add_tail_step. exact E0.
Qed.

Lemma coroutine_cancel_step (own : bool) (co x : Z) (w w' : world) :
  coroutine_cancel x w = Ok w' -> step_rel h own co w w'.
Proof.
  unfold coroutine_cancel. intros H. bind_inv H.
  eapply step_rel_trans.
  - eapply step_update_co; [apply book_not_running|exact E].
  - eapply coroutine_signal_step. exact H.
Qed.

(** Starting another coroutine. *)
Lemma coroutine_start_step (own : bool) (co x f arg : Z) (w w' : world) :
  x ≠ co -> coroutine_start h x f arg w = Ok w' -> step_rel h own co w w'.
Proof.
  intros Hne. unfold coroutine_start. intros H. bind_inv H. apply get_co_Ok in E.
  bind_inv H.
  eapply step_rel_trans; [|eapply coroutine_signal_step; exact H].
  eapply step_put_co; [exact E| |congruence].
  repeat split; auto.
Qed.

(** A yield of another coroutine, or of [co] when it runs its own code. *)
Lemma coroutine_yield_step (own : bool) (co self : Z) (saved : kernel_ctx) (w w' : world) :
  is_saved saved ->
  (self = co -> own = true) ->
  coroutine_yield self saved w = Ok w' -> step_rel h own co w w'.
Proof.
  intros Hs Hown. unfold coroutine_yield. intros H. bind_inv H. injection H as <-.
  unfold update_co in E. bind_inv E. injection E as <-. apply get_co_Ok in E0.
  eapply step_rel_trans; [|apply step_log].
  - eapply step_put_co; [exact E0| |].
    + repeat split; auto.
    + intros He. specialize (Hown He). subst own.
      repeat split; auto; discriminate.
  - simpl. destruct own; [reflexivity|].
    simpl. destruct (Z.eqb_spec self co) as [He|]; [|reflexivity].
    specialize (Hown He). discriminate.
Qed.

(** User code of another coroutine, or of [co] itself. *)
Lemma run_prog_step (own : bool) (co self : Z) (p : prog) (w : world)
    (r : option Z) (w' : world) :
  (self = co -> own = true) ->
  run_prog h text self p w = Ok (r, w') -> step_rel h own co w w'.
Proof.
  intros Hown. revert w r w'.
  induction p as [v|k IH|f x|other k IH|c k IH|c k IH|c k IH|c k IH];
    intros w r w' H; simpl in H.
  - injection H as <- <-. apply step_rel_refl.
  - bind_inv H. injection H as <- <-.
    apply (coroutine_yield_step own co self (CtxYield k) w a I Hown E).
  - bind_inv H. injection H as <- <-.
    apply (coroutine_yield_step own co self (CtxYield (text f self x)) w a I Hown E).
  - unfold coroutine_wait in H. bind_inv H. destruct (co_running a).
    + bind_inv H. injection H as <- <-.
      apply (coroutine_yield_step own co self (CtxYield (PWait other k)) w a0 I Hown E0).
    + eapply IH. exact H.
  - bind_inv H. eapply step_rel_trans; [eapply coroutine_signal_step; exact E|eauto].
  - bind_inv H. eapply step_rel_trans; [eapply coroutine_cancel_step; exact E|eauto].
  - bind_inv H. eapply step_rel_trans; [eapply coroutine_ref_step; exact E|eauto].
  - bind_inv H. eapply step_rel_trans; [eapply coroutine_deref_step; exact E|eauto].
Qed.

End ApiSteps.

Section SchedulerSteps.

Variable h : coroutine_h.
Variable text : Z -> Z -> Z -> prog.

Lemma trampoline_return_step (own : bool) (co x v : Z) (w w' : world) :
  (x = co -> own = true) ->
  trampoline_return h x v w = Ok w' -> step_rel h own co w w'.
Proof.
  intros Hown. unfold trampoline_return. intros H.
  bind_inv H. bind_inv H. bind_inv H. bind_inv H.
  assert (Hev : forall e, (e = EvRet x v \/ e = EvDone x) -> ev_ok own co e = true).
  { intros e [-> | ->]; simpl; destruct own; simpl; auto;
      destruct (Z.eqb_spec x co) as [He|]; auto; specialize (Hown He); discriminate. }
  eapply step_rel_trans;
    [|apply (coroutine_yield_step h own co x CtxYieldEnd _ _ I Hown H)].
  eapply step_rel_trans; [|apply step_log; apply Hev; auto].
  eapply step_rel_trans; [|eapply step_update_co; [apply book_not_running|exact E2]].
  eapply step_rel_trans; [|apply step_log; apply Hev; auto].
  unfold update_co in E. bind_inv E. injection E as <-. apply get_co_Ok in E3.
  eapply step_put_co; [exact E3| |].
  - repeat split; auto.
  - intros He. specialize (Hown He). subst own. repeat split; auto; discriminate.
Qed.

Lemma trampoline_call_step (own : bool) (co x : Z) (p : prog) (w w' : world) :
  (x = co -> own = true) ->
  trampoline_call h text x p w = Ok w' -> step_rel h own co w w'.
Proof.
  intros Hown. unfold trampoline_call. intros H. bind_inv H. destruct a as [r w1].
  apply (run_prog_step h text own co x p w r w1 Hown) in E.
  destruct r as [v|].
  - eapply step_rel_trans; [exact E|]. eapply trampoline_return_step; eauto.
  - injection H as <-. exact E.
Qed.

(** The trampoline finds the coroutine whose initial context it was entered
    with. *)
Lemma wf_recover (x : Z) (c : coroutine) (rsp : Z) (w : world) :
  wf_stacks h w -> cos w !! x = Some c -> co_ctx c = CtxTrampoline rsp ->
  load (stack_self h
          (Z.shiftl (Z.shiftr (ulong (rsp - trampoline_frame h)) (COROUTINE_STACK_SHIFT h))
                    (COROUTINE_STACK_SHIFT h))) w = Ok x.
Proof.
  intros (Hs & Hf & Hwf) Hx Hctx.
  destruct (Hwf x c Hx) as (B0 & B1 & Hal & Hself & Hrsp).
  specialize (Hrsp rsp Hctx). subst rsp.
  pose proof (stack_size_ge_32 h Hs) as Hsz.
  destruct (stack_words h (co_stack c) Hs B0 B1) as (_ & _ & Ese).
  unfold sizeof_ulong in *.
  rewrite Ese, ulong_small by lia.
  rewrite stack_size_pow in Hal by lia.
  rewrite (mask_interior (co_stack c)); [| lia | exact Hal |].
  - unfold load. rewrite Hself. reflexivity.
  - rewrite <- stack_size_pow by lia. lia.
Qed.

Lemma coroutine_trampoline_step (own : bool) (co x : Z) (rsp : Z) (w w' : world) :
  load (stack_self h (Z.shiftl (Z.shiftr rsp (COROUTINE_STACK_SHIFT h))
                               (COROUTINE_STACK_SHIFT h))) w = Ok x ->
  x ≠ co ->
  coroutine_trampoline h text rsp w = Ok w' -> step_rel h own co w w'.
Proof.
  intros Hl Hne. unfold coroutine_trampoline. rewrite Hl. cbn [mbind result_bind].
  intros H. bind_inv H. bind_inv H. bind_inv H.
  eapply step_rel_trans; [|eapply trampoline_call_step; [|exact H]; congruence].
  apply step_log. simpl. destruct (Z.eqb_spec x co); [congruence|reflexivity].
Qed.

Lemma kernel_longjmp_step (own : bool) (co x : Z) (w w' : world) :
  wf_stacks h w -> x ≠ co ->
  kernel_longjmp h text x w = Ok w' -> step_rel h own co w w'.
Proof.
  intros Hwf Hne. unfold kernel_longjmp. intros H. bind_inv H. apply get_co_Ok in E.
  assert (S1 : step_rel h own co w (log (EvEnter x) w)).
  { apply step_log. simpl. destruct (Z.eqb_spec x co); [congruence|reflexivity]. }
  destruct (co_ctx a) as [|rsp|k|] eqn:Hctx; try discriminate.
  - eapply step_rel_trans; [exact S1|].
    eapply coroutine_trampoline_step; [|exact Hne|exact H].
    apply (wf_recover x a rsp w Hwf E Hctx).
  - eapply step_rel_trans; [exact S1|].
    eapply trampoline_call_step; [|exact H]. congruence.
Qed.

Lemma coroutine_enter_step (own : bool) (co x : Z) (w w' : world) :
  wf_stacks h w -> x ≠ co ->
  coroutine_enter h text x w = Ok w' -> step_rel h own co w w'.
Proof.
  intros Hwf Hne. unfold coroutine_enter. intros H.
  bind_inv H. bind_inv H. bind_inv H.
  eapply kernel_longjmp_step; eauto.
Qed.

Lemma first_usable_step (own : bool) (co : Z) (l : list Z) (w : world)
    (r : option Z) (w' : world) :
  first_usable l w = Ok (r, w') -> step_rel h own co w w'.
Proof.
  induction l as [|x l IH]; simpl; intros H.
  - injection H as <- <-. apply step_rel_refl.
  - bind_inv H. apply get_co_Ok in E.
    destruct (co_ref_count a =? 0); [auto|].
    destruct (atomic_inc_not_zero (co_ref_count a)) as [v ok].
    destruct ok; [|auto]. injection H as <- <-.
    eapply step_put_co; [exact E| |].
    + eapply co_rel_evolves. apply (book_ref_count (fun _ => v)).
    + intros _. apply co_rel_own. apply (book_ref_count (fun _ => v)).
Qed.

Lemma next_coroutine_step (own : bool) (co thread : Z) (prev : option Z) (w : world)
    (r : option Z) (w' : world) :
  coroutine_thread_next_coroutine h thread prev w = Ok (r, w') -> step_rel h own co w w'.
Proof.
  unfold coroutine_thread_next_coroutine. intros H. bind_inv H.
  destruct prev as [p|].
  - bind_inv H. bind_inv H. destruct a1 as [r1 w1]. bind_inv H. injection H as <- <-.
    eapply step_rel_trans; [|eapply coroutine_deref_step; exact E2].
    destruct (co_list_entry a0).
    + bind_inv E1. eapply first_usable_step. exact E1.
    + destruct (co_ref_count a0 =? 0); [discriminate|].
      eapply first_usable_step. exact E1.
  - destruct (th_co_list a).
    + injection H as <- <-. apply step_rel_refl.
    + eapply first_usable_step. exact H.
Qed.

Lemma goto_step (own : bool) (co thread : Z) (pc : worker_pc) (w w' : world) :
  goto thread pc w = Ok w' -> step_rel h own co w w'.
Proof. apply step_update_thread. Qed.

(** A worker step that does not enter [co]. *)
Lemma worker_step (own : bool) (co thread : Z) (w w' : world) :
  wf_stacks h w ->
  (forall th c, threads w !! thread = Some th -> th_task th = AtEnter co ->
                cos w !! co = Some c -> co_running c = false) ->
  coroutine_thread_routine h text thread w = Ok w' -> step_rel h own co w w'.
Proof.
  intros Hwf Hskip. unfold coroutine_thread_routine. intros H.
  bind_inv H. apply get_thread_Ok in E.
  destruct (th_task a) as [| |x|x|x nxt| |] eqn:Hpc.
  - destruct (th_stopping a || negb (th_signaled a =? 0)).
    + destruct (th_stopping a); eapply goto_step; exact H.
    + injection H as <-. apply step_rel_refl.
  - bind_inv H. destruct a0 as [r w1].
    eapply step_rel_trans; [eapply next_coroutine_step; exact E0|].
    eapply goto_step; exact H.
  - bind_inv H. apply get_co_Ok in E0. bind_inv H.
    eapply step_rel_trans; [|eapply goto_step; exact H].
    destruct (co_running a0) eqn:Hrun.
    + destruct (decide (x = co)) as [->|Hne].
      * rewrite (Hskip a a0 E Hpc E0) in Hrun. discriminate.
      * eapply coroutine_enter_step; eauto.
    + injection E1 as <-. apply step_rel_refl.
  - bind_inv H. destruct a0 as [r w1].
    eapply step_rel_trans; [eapply next_coroutine_step; exact E0|].
    eapply goto_step; exact H.
  - bind_inv H. apply get_co_Ok in E0.
    destruct (atomic_dec_and_test (co_signaled a0)) as [v zero].
    bind_inv H.
    eapply step_rel_trans; [|eapply goto_step; exact H].
    eapply step_rel_trans.
    { eapply step_put_co; [exact E0| |].
      - eapply co_rel_evolves. apply (book_signaled (fun _ => v)).
      - intros _. apply co_rel_own. apply (book_signaled (fun _ => v)). }
    destruct zero.
    + bind_inv E1. bind_inv E1.
      eapply step_rel_trans; [eapply list_del_init_step; exact E3|].
      eapply coroutine_deref_step; exact E1.
    + bind_inv E1. bind_inv E1.
      eapply step_rel_trans; [eapply list_del_init_step; exact E3|].
      eapply list_add_tail_step; exact E1.
  - destruct (atomic_dec_and_test (th_signaled a)) as [v zero].
    eapply step_rel_trans; [apply step_put_thread|].
    destruct zero; eapply goto_step; exact H.
  - injection H as <-. apply step_rel_refl.
Qed.

Lemma drop_entries_step (own : bool) (co : Z) (l : list Z) (w w' : world) :
  drop_entries h l w = Ok w' -> step_rel h own co w w'.
Proof.
  revert w. induction l as [|x l IH]; simpl; intros w H.
  - injection H as <-. apply step_rel_refl.
  - bind_inv H. bind_inv H.
    eapply step_rel_trans; [eapply step_update_co; [apply book_list_entry|exact E]|].
    eapply step_rel_trans; [eapply coroutine_deref_step; exact E0|].
    apply IH. exact H.
Qed.

Lemma stop_request_step (own : bool) (co thread : Z) (w w' : world) :
  coroutine_thread_stop_request thread w = Ok w' -> step_rel h own co w w'.
Proof.
  unfold coroutine_thread_stop_request. intros H. bind_inv H. injection H as <-.
  eapply step_rel_trans; [eapply step_update_thread; exact E|].
  apply step_log. reflexivity.
Qed.

Lemma stop_joined_step (own : bool) (co thread : Z) (w w' : world) :
  coroutine_thread_stop_joined h thread w = Ok w' -> step_rel h own co w w'.
Proof.
  unfold coroutine_thread_stop_joined. intros H. bind_inv H.
  destruct (th_task a); try (injection H as <-; apply step_rel_refl).
  eapply step_rel_trans; [apply step_put_thread|].
  eapply drop_entries_step. exact H.
Qed.

End SchedulerSteps.

Section RunFacts.

Variable h : coroutine_h.
Variable text : Z -> Z -> Z -> prog.

Lemma step_rel_wf (own : bool) (co : Z) (w w' : world) :
  wf_stacks h w -> step_rel h own co w w' -> wf_stacks h w'.
Proof.
  intros (Hs & Hf & Hwf) (Hm & He & _ & _). split; [exact Hs|]. split; [exact Hf|].
  intros x c' Hx. destruct (He x c' Hx) as (c & Hc & (_ & Hst & Hctx)).
  destruct (Hwf x c Hc) as (B0 & B1 & Hal & Hself & Hrsp).
  rewrite Hm, Hst. repeat split; auto.
  intros rsp Hr. destruct Hctx as [Hctx|[Hctx|Hctx]].
  - apply Hrsp. congruence.
  - rewrite Hr in Hctx. contradiction.
  - congruence.
Qed.

(** An action other than a start of [co] or a worker step that enters [co]
    leaves [co] alone. *)
Lemma do_action_step (co : Z) (a : action) (w w' : world) :
  wf_stacks h w ->
  starts co a = false ->
  (forall t th c, a = AWorker t -> threads w !! t = Some th -> th_task th = AtEnter co ->
                  cos w !! co = Some c -> co_running c = false) ->
  do_action h text a w = Ok w' -> step_rel h false co w w'.
Proof.
  intros Hwf Hst Hskip H. destruct a as [x|x|x|x|x f arg|t|t|t]; simpl in H.
  - eapply coroutine_signal_step; eauto.
  - eapply coroutine_cancel_step; eauto.
  - eapply coroutine_ref_step; eauto.
  - eapply coroutine_deref_step; eauto.
  - eapply coroutine_start_step; [|exact H].
    simpl in Hst. apply Z.eqb_neq. exact Hst.
  - eapply worker_step; [exact Hwf| |exact H].
    intros th c Ht Hpc Hc. exact (Hskip t th c eq_refl Ht Hpc Hc).
  - eapply stop_request_step; eauto.
  - eapply stop_joined_step; eauto.
Qed.

(** Every action keeps the stacks well-formed. *)
Lemma do_action_wf (a : action) (w w' : world) :
  wf_stacks h w -> do_action h text a w = Ok w' -> wf_stacks h w'.
Proof.
  intros Hwf H.
  set (x := match a with
            | AStart x _ _ => x
            | AWorker t =>
              match threads w !! t with
              | Some th => match th_task th with AtEnter x => x | _ => 0 end
              | None => 0
              end
            | _ => 0
            end).
  apply (step_rel_wf false (x + 1) w w' Hwf).
  apply (do_action_step (x + 1) a w w' Hwf); [| |exact H].
  - destruct a; simpl; try reflexivity. apply Z.eqb_neq. subst x. lia.
  - intros t th c -> Ht Hpc _. exfalso.
    assert (Hx : x = match th_task th with AtEnter y => y | _ => 0 end)
      by (unfold x; rewrite Ht; reflexivity).
    clearbody x. rewrite Hpc in Hx. lia.
Qed.

Lemma run_wf (acts : list action) (w w' : world) :
  wf_stacks h w -> run h text acts w = Ok w' -> wf_stacks h w'.
Proof.
  revert w. induction acts as [|a acts IH]; simpl; intros w Hwf H.
  - injection H as <-. exact Hwf.
  - bind_inv H. eapply IH; [|exact H]. eapply do_action_wf; eauto.
Qed.


End RunFacts.

(** ** The user function is called once *)




Section CallFacts.

Variable h : coroutine_h.
Variable text : Z -> Z -> Z -> prog.






End CallFacts.

Section CalledOnce.

Variable h : coroutine_h.
Variable text : Z -> Z -> Z -> prog.








End CalledOnce.

(** ** Draining a cancelled coroutine *)

Lemma unlink_absent (co : Z) (w : world) :
  (forall t th, threads w !! t = Some th -> co ∉ th_co_list th) ->
  (fun th => set_th_co_list (list_del co (th_co_list th)) th) <$> threads w = threads w.
Proof.
  intros Habs. apply map_eq. intros t. rewrite lookup_fmap.
  destruct (threads w !! t) as [th|] eqn:Ht; [|reflexivity]. simpl.
  rewrite list_del_notin by eauto. rewrite set_th_co_list_same. reflexivity.
Qed.

Section Drain.

Variable h : coroutine_h.
Variable text : Z -> Z -> Z -> prog.
Variable w : world.
Variable co : Z.
Variable c : coroutine.

Ltac dw :=
  repeat progress
    (unfold goto, update_thread, update_co, get_thread, get_co; simpl;
     rewrite ?lookup_insert_eq; simpl).

Ltac dw_eq :=
  unfold drain_world, put_thread, put_co, log; simpl;
  rewrite ?insert_insert_eq; reflexivity.




Lemma drain_next (refs sig tsig : Z) (evs : list event) :
  1 < refs < 2 ^ 31 ->
  coroutine_thread_routine h text (co_thread c)
    (drain_world w co c refs sig tsig true (AtNext co) evs)
  = Ok (drain_world w co c (refs - 1) sig tsig true (AtRequeue co None) evs).
Proof.
  intros Hr. unfold coroutine_thread_routine. dw.
  unfold coroutine_thread_next_coroutine. dw.
  destruct (decide (co = co)) as [_|Hne]; [|contradiction]. simpl.
  unfold coroutine_deref. dw. unfold atomic_dec_and_test.
  rewrite int32_small by lia.
  assert (Hz : (refs - 1 =? 0) = false) by (apply Z.eqb_neq; lia). rewrite Hz.
  simpl. dw. f_equal. dw_eq.
Qed.

Hypothesis absent : forall t th, threads w !! t = Some th -> co ∉ th_co_list th.

Lemma list_del_self : list_del co [co] = [].
Proof.
  unfold list_del. rewrite filter_cons_False by (intros Hne; apply Hne; reflexivity).
  reflexivity.
Qed.



Lemma drain_requeue_last (refs tsig : Z) (evs : list event) :
  1 < refs < 2 ^ 31 ->
  coroutine_thread_routine h text (co_thread c)
    (drain_world w co c refs 1 tsig true (AtRequeue co None) evs)
  = Ok (drain_world w co c (refs - 1) 0 tsig false AtPassEnd evs).
Proof.
  intros Hr. unfold coroutine_thread_routine. dw.
  change (atomic_dec_and_test 1) with (0, true). simpl.
  unfold list_del_init. dw. unfold coroutine_deref. dw.
  unfold atomic_dec_and_test. rewrite int32_small by lia.
  assert (Hz : (refs - 1 =? 0) = false) by (apply Z.eqb_neq; lia). rewrite Hz.
  simpl. unfold update_thread, get_thread.
  rewrite fmap_insert, lookup_insert_eq. simpl. f_equal.
  change (int32 (1 - 1)) with 0.
  unfold drain_world, put_thread, put_co, log, unlink. simpl.
  rewrite ?fmap_insert, ?insert_insert_eq. simpl.
  rewrite ?list_del_self, ?(unlink_absent co w absent). reflexivity.
Qed.

Lemma drain_pass_end (refs sig tsig : Z) (l : bool) (evs : list event) :
  0 < tsig < 2 ^ 31 ->
  coroutine_thread_routine h text (co_thread c)
    (drain_world w co c refs sig tsig l AtPassEnd evs)
  = Ok (drain_world w co c refs sig (tsig - 1) l
          (if tsig - 1 =? 0 then AtWait else AtDrain) evs).
Proof.
  intros Hs. unfold coroutine_thread_routine. dw.
  unfold atomic_dec_and_test. rewrite int32_small by lia.
  destruct (tsig - 1 =? 0); dw; f_equal; dw_eq.
Qed.

Lemma worker_steps_app (n1 n2 : nat) (t : Z) (w0 : world) :
  worker_steps h text (n1 + n2) t w0 =
  (w1 ← worker_steps h text n1 t w0; worker_steps h text n2 t w1).
Proof.
  revert w0. induction n1 as [|n1 IH]; intros w0; simpl; [reflexivity|].
  destruct (coroutine_thread_routine h text t w0); simpl; auto.
Qed.






End Drain.

Section Cancel.

Variable h : coroutine_h.
Variable text : Z -> Z -> Z -> prog.



End Cancel.

(** ** Creation keeps the stacks well-formed *)

Section CreateWf.

Variable h : coroutine_h.

Lemma self_word_apart (s s' : Z) :
  32 <= COROUTINE_STACK_SIZE h ->
  s mod COROUTINE_STACK_SIZE h = 0 -> s' mod COROUTINE_STACK_SIZE h = 0 -> s' <> s ->
  s' + COROUTINE_STACK_SIZE h - 2 * 8 <> s /\
  s' + COROUTINE_STACK_SIZE h - 2 * 8 <> s + COROUTINE_STACK_SIZE h - 8 /\
  s' + COROUTINE_STACK_SIZE h - 2 * 8 <> s + COROUTINE_STACK_SIZE h - 2 * 8.
Proof.
  intros Hsz Hs Hs' Hne.
  apply mod0_multiple in Hs; [|lia]. destruct Hs as [q Hq].
  apply mod0_multiple in Hs'; [|lia]. destruct Hs' as [q' Hq'].
  set (n := COROUTINE_STACK_SIZE h) in *.
  assert (Hq1 : q' <> q) by (intros ->; congruence).
  repeat split; intros Heq; subst s s'.
  - destruct (Z_lt_le_dec (q' + 1 - q) 1); nia.
  - destruct (Z_lt_le_dec (q' - q) 1); nia.
  - nia.
Qed.

(** A coroutine created on a stack that is aligned to the stack size and is
    not the stack of another coroutine keeps the world well-formed. *)
Lemma coroutine_create_wf (thread co stack : Z) (w : world) (r : option Z) (w' : world) :
  wf_stacks h w ->
  0 <= co < 2 ^ 64 ->
  0 <= stack -> stack + COROUTINE_STACK_SIZE h <= 2 ^ 64 ->
  stack mod COROUTINE_STACK_SIZE h = 0 ->
  (forall x c, cos w !! x = Some c -> co_stack c <> stack) ->
  coroutine_create h thread (Some co) (Some stack) w = Ok (r, w') ->
  wf_stacks h w'.
Proof.
  intros (Hs & Hf & Hwf) Hco B0 B1 Hal Hfresh H.
  pose proof (stack_size_ge_32 h Hs) as Hsz.
  destruct (stack_words h stack Hs B0 B1) as (Eb & Et & Ese).
  unfold coroutine_create in H. bind_inv H. injection H as <- <-.
  split; [exact Hs|]. split; [exact Hf|].
  intros x c Hx. simpl in Hx. simpl mem.
  rewrite Eb, Et, Ese, (ulong_small co) by lia. unfold sizeof_ulong in *.
  destruct (stack_words_stored h (mem w) stack co Hsz) as (_ & _ & L3).
  destruct (decide (x = co)) as [->|Hne].
  - rewrite lookup_insert_eq in Hx. injection Hx as <-. simpl.
    rewrite Ese. repeat split; auto. discriminate.
  - rewrite lookup_insert_ne in Hx by congruence.
    destruct (Hwf x c Hx) as (C0 & C1 & Cal & Cself & Crsp).
    destruct (stack_words h (co_stack c) Hs C0 C1) as (_ & _ & Ese').
    unfold sizeof_ulong in *.
    destruct (self_word_apart stack (co_stack c) Hsz Hal Cal (Hfresh x c Hx))
      as (N1 & N2 & N3).
    repeat split; auto.
    rewrite Ese'. rewrite !lookup_insert_ne by congruence.
    rewrite <- Ese'. exact Cself.
Qed.

Lemma wf_stacks_empty (w : world) :
  5 <= COROUTINE_STACK_SHIFT h ->
  0 <= trampoline_frame h <= COROUTINE_STACK_SIZE h - 2 * sizeof_ulong ->
  cos w = ∅ -> wf_stacks h w.
Proof.
  intros Hs Hf He. split; [exact Hs|]. split; [exact Hf|].
  intros x c Hx. rewrite He, lookup_empty in Hx. discriminate.
Qed.

End CreateWf.

(** * The ready lists stay well-formed *)

(** ** Properties that the calls of the API keep *)

Section Keeps.

Variable h : coroutine_h.
Variable text : Z -> Z -> Z -> prog.

Variable I : world -> Prop.
Hypothesis closed : api_closed h I.

Local Lemma I_put_co : forall w x c c',
  I w -> cos w !! x = Some c -> co_list_entry c' = co_list_entry c -> I (put_co x c' w).
Proof. apply closed. Qed.

Local Lemma I_put_thread : forall w t th th',
  I w -> threads w !! t = Some th ->
  th_co_list th' = th_co_list th -> th_task th' = th_task th -> I (put_thread t th' w).
Proof. apply closed. Qed.

Local Lemma I_log : forall w e, I w -> I (log e w).
Proof. apply closed. Qed.

Local Lemma I_delete : forall w x w', I w -> coroutine_delete h x w = Ok w' -> I w'.
Proof. apply closed. Qed.

Local Lemma I_enqueue : forall w x c t w',
  I w -> cos w !! x = Some c -> co_list_entry c = false ->
  list_add_tail x t w = Ok w' -> I w'.
Proof. apply closed. Qed.

Lemma update_co_keeps (x : Z) (f : coroutine -> coroutine) (w w' : world) :
  (forall c, co_list_entry (f c) = co_list_entry c) ->
  I w -> update_co x f w = Ok w' -> I w'.
Proof.
  intros Hf Hi H. unfold update_co in H. bind_inv H. injection H as <-.
  apply get_co_Ok in E. eapply I_put_co; eauto.
Qed.

Lemma update_thread_keeps (t : Z) (f : coroutine_thread -> coroutine_thread)
    (w w' : world) :
  (forall th, th_co_list (f th) = th_co_list th /\ th_task (f th) = th_task th) ->
  I w -> update_thread t f w = Ok w' -> I w'.
Proof.
  intros Hf Hi H. unfold update_thread in H. bind_inv H. injection H as <-.
  apply get_thread_Ok in E. destruct (Hf a). eapply I_put_thread; eauto.
Qed.

Lemma coroutine_ref_keeps (x : Z) (w w' : world) :
  I w -> coroutine_ref x w = Ok w' -> I w'.
Proof. apply update_co_keeps. reflexivity. Qed.

Lemma coroutine_deref_keeps (x : Z) (w w' : world) :
  I w -> coroutine_deref h x w = Ok w' -> I w'.
Proof.
  intros Hi H. unfold coroutine_deref in H. bind_inv H. apply get_co_Ok in E.
  destruct (atomic_dec_and_test (co_ref_count a)) as [v zero].
  assert (Hi' : I (put_co x (set_co_ref_count v a) w))
    by (eapply I_put_co; eauto).
  destruct zero.
  - eapply I_delete; eauto.
  - injection H as <-. exact Hi'.
Qed.

Lemma coroutine_signal_keeps (x : Z) (w w' : world) :
  I w -> coroutine_signal x w = Ok w' -> I w'.
Proof.
  intros Hi H. unfold coroutine_signal in H. bind_inv H. apply get_co_Ok in E.
  bind_inv H. bind_inv H. injection H as <-. apply I_log.
  eapply update_thread_keeps; [| |exact E1]; [intros th; split; reflexivity|].
  assert (Hi' : I (put_co x (set_co_signaled (atomic_inc (co_signaled a)) a) w))
    by (eapply I_put_co; eauto).
  destruct (co_list_entry a) eqn:Hl.
  - injection E0 as <-. exact Hi'.
  - bind_inv E0.
    assert (Hi2 : I a2) by (eapply coroutine_ref_keeps; eauto).
    unfold coroutine_ref, update_co in E2. bind_inv E2. injection E2 as <-.
    apply get_co_Ok in E3. simpl in E3. rewrite lookup_insert_eq in E3.
    injection E3 as <-.
    eapply I_enqueue; [exact Hi2| |  |exact E0].
    + simpl. apply lookup_insert_eq.
    + simpl. exact Hl.
Qed.

Lemma coroutine_cancel_keeps (x : Z) (w w' : world) :
  I w -> coroutine_cancel x w = Ok w' -> I w'.
Proof.
  intros Hi H. unfold coroutine_cancel in H. bind_inv H.
  eapply coroutine_signal_keeps; [|exact H].
  eapply update_co_keeps; [|exact Hi|exact E]. reflexivity.
Qed.

Lemma coroutine_start_keeps (x f arg : Z) (w w' : world) :
  I w -> coroutine_start h x f arg w = Ok w' -> I w'.
Proof.
  intros Hi H. unfold coroutine_start in H. bind_inv H. apply get_co_Ok in E.
  bind_inv H. eapply coroutine_signal_keeps; [|exact H].
  eapply I_put_co; eauto.
Qed.

Lemma coroutine_yield_keeps (x : Z) (s : kernel_ctx) (w w' : world) :
  I w -> coroutine_yield x s w = Ok w' -> I w'.
Proof.
  intros Hi H. unfold coroutine_yield in H. bind_inv H. injection H as <-.
  apply I_log. eapply update_co_keeps; [|exact Hi|exact E]. reflexivity.
Qed.

Lemma run_prog_keeps (self : Z) (p : prog) (w : world) (r : option Z) (w' : world) :
  I w -> run_prog h text self p w = Ok (r, w') -> I w'.
Proof.
  revert w r w'.
  induction p as [v|k IH|f x|other k IH|c k IH|c k IH|c k IH|c k IH];
    intros w r w' Hi H; simpl in H.
  - injection H as <- <-. exact Hi.
  - bind_inv H. injection H as <- <-. eapply coroutine_yield_keeps; eauto.
  - bind_inv H. injection H as <- <-. eapply coroutine_yield_keeps; eauto.
  - unfold coroutine_wait in H. bind_inv H. destruct (co_running a).
    + bind_inv H. injection H as <- <-. eapply coroutine_yield_keeps; eauto.
    + eapply IH; eauto.
  - bind_inv H. eapply IH; [|exact H]. eapply coroutine_signal_keeps; eauto.
  - bind_inv H. eapply IH; [|exact H]. eapply coroutine_cancel_keeps; eauto.
  - bind_inv H. eapply IH; [|exact H]. eapply coroutine_ref_keeps; eauto.
  - bind_inv H. eapply IH; [|exact H]. eapply coroutine_deref_keeps; eauto.
Qed.

Lemma trampoline_call_keeps (x : Z) (p : prog) (w w' : world) :
  I w -> trampoline_call h text x p w = Ok w' -> I w'.
Proof.
  intros Hi H. unfold trampoline_call in H. bind_inv H. destruct a as [r w1].
  apply run_prog_keeps in E; [|exact Hi].
  destruct r as [v|]; [|injection H as <-; exact E].
  unfold trampoline_return in H. bind_inv H. bind_inv H. bind_inv H. bind_inv H.
  eapply coroutine_yield_keeps; [|exact H]. apply I_log.
  eapply update_co_keeps; [| |exact E3]; [reflexivity|]. apply I_log.
  eapply update_co_keeps; [| |exact E0]; [reflexivity|exact E].
Qed.

Lemma kernel_longjmp_keeps (x : Z) (w w' : world) :
  I w -> kernel_longjmp h text x w = Ok w' -> I w'.
Proof.
  intros Hi H. unfold kernel_longjmp in H. bind_inv H.
  destruct (co_ctx a) as [|rsp|k|]; try discriminate.
  - unfold coroutine_trampoline in H. bind_inv H. bind_inv H. bind_inv H. bind_inv H.
    eapply trampoline_call_keeps; [|exact H]. apply I_log. apply I_log. exact Hi.
  - eapply trampoline_call_keeps; [|exact H]. apply I_log. exact Hi.
Qed.

Lemma coroutine_enter_keeps (x : Z) (w w' : world) :
  I w -> coroutine_enter h text x w = Ok w' -> I w'.
Proof.
  intros Hi H. unfold coroutine_enter in H. bind_inv H. bind_inv H. bind_inv H.
  eapply kernel_longjmp_keeps; eauto.
Qed.

Lemma first_usable_keeps (l : list Z) (w : world) (r : option Z) (w' : world) :
  I w -> first_usable l w = Ok (r, w') -> I w'.
Proof.
  intros Hi. induction l as [|x l IH]; simpl; intros H.
  - injection H as <- <-. exact Hi.
  - bind_inv H. apply get_co_Ok in E.
    destruct (co_ref_count a =? 0); [auto|].
    destruct (atomic_inc_not_zero (co_ref_count a)) as [v ok].
    destruct ok; [|auto]. injection H as <- <-. eapply I_put_co; eauto.
Qed.

Lemma next_coroutine_keeps (thread : Z) (prev : option Z) (w : world)
    (r : option Z) (w' : world) :
  I w -> coroutine_thread_next_coroutine h thread prev w = Ok (r, w') -> I w'.
Proof.
  intros Hi H. unfold coroutine_thread_next_coroutine in H. bind_inv H.
  destruct prev as [p|].
  - bind_inv H. bind_inv H. destruct a1 as [r1 w1]. bind_inv H. injection H as <- <-.
    eapply coroutine_deref_keeps; [|exact E2].
    destruct (co_list_entry a0).
    + bind_inv E1. eapply first_usable_keeps; eauto.
    + destruct (co_ref_count a0 =? 0); [discriminate|].
      eapply first_usable_keeps; eauto.
  - destruct (th_co_list a).
    + injection H as <- <-. exact Hi.
    + eapply first_usable_keeps; eauto.
Qed.

End Keeps.

(** ** The list invariant under the primitive changes *)

Lemma list_del_In (x y : Z) (l : list Z) : y ∈ list_del x l <-> y ∈ l /\ y ≠ x.
Proof. unfold list_del. rewrite list_elem_of_filter. tauto. Qed.

Lemma lists_inv0_put_co (w : world) (x : Z) (c c' : coroutine) :
  lists_inv0 w -> cos w !! x = Some c -> co_list_entry c' = co_list_entry c ->
  lists_inv0 (put_co x c' w).
Proof.
  intros (I1 & I2 & I3) Hx Hl. split; [exact I1|]. split; [|exact I3].
  intros t th y cy Ht Hy Hcy. simpl in *.
  destruct (decide (y = x)) as [->|Hne].
  - rewrite lookup_insert_eq in Hcy. injection Hcy as <-. rewrite Hl. eauto.
  - rewrite lookup_insert_ne in Hcy by congruence. eauto.
Qed.

Lemma lists_inv0_put_thread (w : world) (t : Z) (th th' : coroutine_thread) :
  lists_inv0 w -> threads w !! t = Some th -> th_co_list th' = th_co_list th ->
  lists_inv0 (put_thread t th' w).
Proof.
  intros (I1 & I2 & I3) Ht Hl.
  assert (Hsame : forall t1 th1, threads (put_thread t th' w) !! t1 = Some th1 ->
            exists th0, threads w !! t1 = Some th0 /\ th_co_list th1 = th_co_list th0).
  { intros t1 th1 H1. simpl in H1. destruct (decide (t1 = t)) as [->|Hne].
    - rewrite lookup_insert_eq in H1. injection H1 as <-. eauto.
    - rewrite lookup_insert_ne in H1 by congruence. eauto. }
  split; [|split].
  - intros t1 th1 H1. destruct (Hsame t1 th1 H1) as (th0 & H0 & ->). eauto.
  - intros t1 th1 y cy H1 Hy Hcy. destruct (Hsame t1 th1 H1) as (th0 & H0 & E).
    rewrite E in Hy. eauto.
  - intros t1 t2 th1 th2 y H1 H2 Hy1 Hy2.
    destruct (Hsame t1 th1 H1) as (th01 & H01 & E1).
    destruct (Hsame t2 th2 H2) as (th02 & H02 & E2).
    rewrite E1 in Hy1. rewrite E2 in Hy2. eauto.
Qed.

Lemma lists_inv0_free (w : world) (x : Z) : lists_inv0 w -> lists_inv0 (free_co x w).
Proof.
  intros (I1 & I2 & I3). split; [exact I1|]. split; [|exact I3].
  intros t th y cy Ht Hy Hcy. simpl in Hcy.
  apply lookup_delete_Some in Hcy. destruct Hcy as [_ Hcy]. eauto.
Qed.

Lemma lists_inv0_del_init (w : world) (x : Z) (w' : world) :
  lists_inv0 w -> list_del_init x w = Ok w' -> lists_inv0 w'.
Proof.
  intros (I1 & I2 & I3) H. unfold list_del_init in H. bind_inv H. apply get_co_Ok in E.
  destruct (co_list_entry a); [|injection H as <-; repeat split; assumption].
  unfold update_co, get_co in H. simpl in H. rewrite E in H. injection H as <-.
  assert (Hsame : forall t1 th1,
            threads (put_co x (set_co_list_entry false a) (unlink x w)) !! t1 = Some th1 ->
            exists th0, threads w !! t1 = Some th0 /\
                        th_co_list th1 = list_del x (th_co_list th0)).
  { intros t1 th1 H1. simpl in H1. rewrite lookup_fmap in H1.
    destruct (threads w !! t1) as [th0|]; [|discriminate].
    injection H1 as <-. eauto. }
  split; [|split].
  - intros t1 th1 H1. destruct (Hsame t1 th1 H1) as (th0 & H0 & ->).
    apply NoDup_filter. eauto.
  - intros t1 th1 y cy H1 Hy Hcy. destruct (Hsame t1 th1 H1) as (th0 & H0 & E1).
    rewrite E1 in Hy. apply list_del_In in Hy. destruct Hy as [Hy Hne].
    simpl in Hcy. rewrite lookup_insert_ne in Hcy by congruence. eauto.
  - intros t1 t2 th1 th2 y H1 H2 Hy1 Hy2.
    destruct (Hsame t1 th1 H1) as (th01 & H01 & E1).
    destruct (Hsame t2 th2 H2) as (th02 & H02 & E2).
    rewrite E1 in Hy1. rewrite E2 in Hy2.
    apply list_del_In in Hy1. apply list_del_In in Hy2.
    destruct Hy1, Hy2. eauto.
Qed.

Lemma lists_inv0_log (w : world) (e : event) : lists_inv0 w -> lists_inv0 (log e w).
Proof. intros Hi. exact Hi. Qed.

Lemma lists_inv0_delete (h : coroutine_h) (w : world) (x : Z) (w' : world) :
  lists_inv0 w -> coroutine_delete h x w = Ok w' -> lists_inv0 w'.
Proof.
  intros Hi H. unfold coroutine_delete in H.
  bind_inv H. bind_inv H. bind_inv H. bind_inv H. injection H as <-.
  apply lists_inv0_log. apply lists_inv0_free. apply lists_inv0_log.
  eapply lists_inv0_del_init; eauto.
Qed.

Lemma lists_inv0_unlinked (w : world) (x : Z) (c : coroutine) :
  lists_inv0 w -> cos w !! x = Some c -> co_list_entry c = false ->
  forall t th, threads w !! t = Some th -> x ∉ th_co_list th.
Proof.
  intros (_ & I2 & _) Hx Hl t th Ht Hin.
  rewrite (I2 t th x c Ht Hin Hx) in Hl. discriminate.
Qed.

Lemma lists_inv0_enqueue (w : world) (x : Z) (c : coroutine) (t : Z) (w' : world) :
  lists_inv0 w -> cos w !! x = Some c -> co_list_entry c = false ->
  list_add_tail x t w = Ok w' -> lists_inv0 w'.
Proof.
  intros Hi Hx Hl H.
  pose proof (lists_inv0_unlinked w x c Hi Hx Hl) as Habs.
  destruct Hi as (I1 & I2 & I3).
  unfold list_add_tail, update_thread in H. bind_inv H. bind_inv E. injection E as <-.
  apply get_thread_Ok in E0.
  unfold update_co, get_co in H. simpl in H. rewrite Hx in H. injection H as <-.
  assert (Hsame : forall t1 th1,
            threads (put_co x (set_co_list_entry true c)
                       (put_thread t (set_th_co_list (th_co_list a0 ++ [x]) a0) w))
              !! t1 = Some th1 ->
            (t1 = t /\ th_co_list th1 = th_co_list a0 ++ [x]) \/
            (t1 ≠ t /\ threads w !! t1 = Some th1)).
  { intros t1 th1 H1. simpl in H1. destruct (decide (t1 = t)) as [->|Hne].
    - rewrite lookup_insert_eq in H1. injection H1 as <-. left. auto.
    - rewrite lookup_insert_ne in H1 by congruence. right. auto. }
  split; [|split].
  - intros t1 th1 H1. destruct (Hsame t1 th1 H1) as [[-> ->]|[Hne H0]]; [|eauto].
    apply NoDup_app. split; [eauto|]. split; [|apply NoDup_singleton].
    intros y Hy Hy'. apply list_elem_of_singleton in Hy'. subst y.
    exact (Habs t a0 E0 Hy).
  - intros t1 th1 y cy H1 Hy Hcy. simpl in Hcy.
    destruct (decide (y = x)) as [->|Hyx].
    + rewrite lookup_insert_eq in Hcy. injection Hcy as <-. reflexivity.
    + rewrite lookup_insert_ne in Hcy by congruence.
      destruct (Hsame t1 th1 H1) as [[-> E1]|[Hne H0]]; [|eauto].
      rewrite E1 in Hy. apply elem_of_app in Hy. destruct Hy as [Hy|Hy]; [eauto|].
      apply list_elem_of_singleton in Hy. contradiction.
  - intros t1 t2 th1 th2 y H1 H2 Hy1 Hy2.
    destruct (Hsame t1 th1 H1) as [[-> E1]|[Hne1 H01]];
      destruct (Hsame t2 th2 H2) as [[-> E2]|[Hne2 H02]]; [reflexivity| | |eauto].
    + rewrite E1 in Hy1. apply elem_of_app in Hy1. destruct Hy1 as [Hy1|Hy1]; [eauto|].
      apply list_elem_of_singleton in Hy1. subst y. destruct (Habs t2 th2 H02 Hy2).
    + rewrite E2 in Hy2. apply elem_of_app in Hy2. destruct Hy2 as [Hy2|Hy2]; [eauto|].
      apply list_elem_of_singleton in Hy2. subst y. destruct (Habs t1 th1 H01 Hy1).
Qed.

(** ** Lists that only lose coroutines that are destroyed *)

Lemma lists_grow_refl (w : world) : lists_grow w w.
Proof.
  split; [eauto|]. intros t th Ht. exists th. repeat split; auto.
Qed.

Lemma lists_grow_trans (w1 w2 w3 : world) :
  lists_grow w1 w2 -> lists_grow w2 w3 -> lists_grow w1 w3.
Proof.
  intros (L1 & T1) (L2 & T2). split.
  - intros x c3 H3. destruct (L2 x c3 H3) as (c2 & H2). eauto.
  - intros t th3 H3. destruct (T2 t th3 H3) as (th2 & H2 & P2 & M2).
    destruct (T1 t th2 H2) as (th1 & H1 & P1 & M1).
    exists th1. split; [exact H1|]. split; [congruence|].
    intros x Hx. destruct (M1 x Hx) as [Hin|Hdead]; [auto|].
    right. destruct (cos w3 !! x) as [c3|] eqn:E3; [|reflexivity].
    destruct (L2 x c3 E3) as (c2 & E2). congruence.
Qed.

Lemma lists_grow_same (w w' : world) :
  (forall x, is_Some (cos w' !! x) <-> is_Some (cos w !! x)) ->
  (forall t th', threads w' !! t = Some th' ->
     exists th, threads w !! t = Some th /\ th_task th' = th_task th /\
                forall x, x ∈ th_co_list th -> x ∈ th_co_list th') ->
  lists_grow w w'.
Proof.
  intros Hlive Hth. split.
  - intros x c' Hx. apply Hlive. eauto.
  - intros t th' Ht. destruct (Hth t th' Ht) as (th & H0 & P & M).
    exists th. repeat split; auto.
Qed.

Lemma lists_grow_put_co (w : world) (x : Z) (c c' : coroutine) :
  cos w !! x = Some c -> lists_grow w (put_co x c' w).
Proof.
  intros Hx. apply lists_grow_same.
  - intros y. simpl. destruct (decide (y = x)) as [->|Hne].
    + rewrite lookup_insert_eq, Hx. split; eauto.
    + rewrite lookup_insert_ne by congruence. tauto.
  - intros t th Ht. exists th. auto.
Qed.

Lemma lists_grow_put_thread (w : world) (t : Z) (th th' : coroutine_thread) :
  threads w !! t = Some th ->
  (forall x, x ∈ th_co_list th -> x ∈ th_co_list th') -> th_task th' = th_task th ->
  lists_grow w (put_thread t th' w).
Proof.
  intros Ht Hl Hp. apply lists_grow_same; [tauto|].
  intros t1 th1 H1. simpl in H1. destruct (decide (t1 = t)) as [->|Hne].
  - rewrite lookup_insert_eq in H1. injection H1 as <-. eauto.
  - rewrite lookup_insert_ne in H1 by congruence. eauto.
Qed.

Lemma lists_grow_log (w : world) (e : event) : lists_grow w (log e w).
Proof. exact (lists_grow_refl w). Qed.

Lemma lists_grow_delete (h : coroutine_h) (w : world) (x : Z) (w' : world) :
  coroutine_delete h x w = Ok w' -> lists_grow w w'.
Proof.
  intros H. unfold coroutine_delete in H.
  bind_inv H. bind_inv H. bind_inv H. bind_inv H. injection H as <-.
  apply get_co_Ok in E. unfold list_del_init, get_co in E2. rewrite E in E2. simpl in E2.
  split.
  - intros y cy Hy. simpl in Hy. apply lookup_delete_Some in Hy. destruct Hy as [Hne Hy].
    destruct (co_list_entry a).
    + unfold update_co, get_co in E2. simpl in E2. rewrite E in E2. injection E2 as <-.
      simpl in Hy. rewrite lookup_insert_ne in Hy by congruence. eauto.
    + injection E2 as <-. eauto.
  - intros t th' Ht. simpl in Ht.
    assert (Hdead : cos (log (EvKfree x) (free_co x (log (EvKfree (co_stack a)) a2))) !! x
                    = None) by (simpl; apply lookup_delete_eq).
    destruct (co_list_entry a).
    + unfold update_co, get_co in E2. simpl in E2. rewrite E in E2. injection E2 as <-.
      simpl in Ht. rewrite lookup_fmap in Ht.
      destruct (threads w !! t) as [th|] eqn:Ht0; [|discriminate].
      injection Ht as <-. exists th. repeat split; auto.
      intros y Hy. simpl. destruct (decide (y = x)) as [->|Hne].
      * right. apply lookup_delete_eq.
      * left. apply list_del_In. auto.
    + injection E2 as <-. exists th'. repeat split; auto.
Qed.

Lemma lists_grow_enqueue (w : world) (x t : Z) (w' : world) :
  list_add_tail x t w = Ok w' -> lists_grow w w'.
Proof.
  intros H. unfold list_add_tail, update_thread in H. bind_inv H. bind_inv E.
  injection E as <-. apply get_thread_Ok in E0.
  unfold update_co in H. bind_inv H. injection H as <-. apply get_co_Ok in E.
  eapply lists_grow_trans.
  - apply (lists_grow_put_thread w t a0 (set_th_co_list (th_co_list a0 ++ [x]) a0) E0).
    + intros y Hy. simpl. apply elem_of_app. auto.
    + reflexivity.
  - eapply lists_grow_put_co. exact E.
Qed.

Lemma visits_grow (w w' : world) : visits_ok w -> lists_grow w w' -> visits_ok w'.
Proof.
  intros Hv (L & T) t th' Ht. destruct (T t th' Ht) as (th & H0 & P & M).
  destruct (Hv t th H0) as [V1 V2]. split.
  - intros x c' Hx Hc'. rewrite P in Hx. destruct (L x c' Hc') as (c & Hc).
    destruct (M x (V1 x c Hx Hc)) as [Hin|Hdead]; [exact Hin|congruence].
  - intros x n Hp. rewrite P in Hp. eauto.
Qed.

(** ** The API keeps the lists well-formed *)

Section ApiLists.

Variable h : coroutine_h.
Variable text : Z -> Z -> Z -> prog.

Lemma grows_put_co (w0 w : world) (x : Z) (c c' : coroutine) :
  lists_grow w0 w -> cos w !! x = Some c -> co_list_entry c' = co_list_entry c ->
  lists_grow w0 (put_co x c' w).
Proof.
  intros Hg Hx _. eapply lists_grow_trans; [exact Hg|]. eapply lists_grow_put_co; eauto.
Qed.

Lemma grows_put_thread (w0 w : world) (t : Z) (th th' : coroutine_thread) :
  lists_grow w0 w -> threads w !! t = Some th ->
  th_co_list th' = th_co_list th -> th_task th' = th_task th ->
  lists_grow w0 (put_thread t th' w).
Proof.
  intros Hg Ht Hl Hp. eapply lists_grow_trans; [exact Hg|].
  eapply lists_grow_put_thread; eauto. intros x. rewrite Hl. auto.
Qed.

Lemma grows_log (w0 w : world) (e : event) : lists_grow w0 w -> lists_grow w0 (log e w).
Proof. intros Hg. exact Hg. Qed.

Lemma grows_delete (w0 w : world) (x : Z) (w' : world) :
  lists_grow w0 w -> coroutine_delete h x w = Ok w' -> lists_grow w0 w'.
Proof.
  intros Hg H. eapply lists_grow_trans; [exact Hg|]. eapply lists_grow_delete; eauto.
Qed.

Lemma grows_enqueue (w0 w : world) (x : Z) (c : coroutine) (t : Z) (w' : world) :
  lists_grow w0 w -> cos w !! x = Some c -> co_list_entry c = false ->
  list_add_tail x t w = Ok w' -> lists_grow w0 w'.
Proof.
  intros Hg _ _ H. eapply lists_grow_trans; [exact Hg|]. eapply lists_grow_enqueue; eauto.
Qed.

End ApiLists.

Section ListsKept.

Variable h : coroutine_h.
Variable text : Z -> Z -> Z -> prog.

Lemma lists_inv0_closed : api_closed h lists_inv0.
Proof.
  split.
  - apply lists_inv0_put_co.
  - intros w t th th' Hi Ht Hl _. eapply lists_inv0_put_thread; eauto.
  - apply lists_inv0_log.
  - apply lists_inv0_delete.
  - apply lists_inv0_enqueue.
Qed.

Lemma lists_grow_closed (w0 : world) : api_closed h (lists_grow w0).
Proof.
  split.
  - apply grows_put_co.
  - apply grows_put_thread.
  - apply grows_log.
  - apply grows_delete.
  - apply grows_enqueue.
Qed.

(** Whatever keeps every closed property keeps the list invariant. *)
Lemma closed_lists_inv (w w' : world) :
  (forall I, api_closed h I -> I w -> I w') -> lists_inv w -> lists_inv w'.
Proof.
  intros Hop [Hi Hv]. split.
  - apply (Hop lists_inv0 lists_inv0_closed Hi).
  - apply (visits_grow w w' Hv).
    apply (Hop (lists_grow w) (lists_grow_closed w) (lists_grow_refl w)).
Qed.

End ListsKept.

(** ** The walk over the list *)

Lemma first_usable_In (l : list Z) (w : world) (x : Z) (w' : world) :
  first_usable l w = Ok (Some x, w') -> x ∈ l.
Proof.
  induction l as [|y l IH]; simpl; intros H; [discriminate|].
  bind_inv H.
  destruct (co_ref_count a =? 0); [right; auto|].
  destruct (atomic_inc_not_zero (co_ref_count a)) as [v ok].
  destruct ok; [|right; auto]. injection H as <- _. left.
Qed.

Lemma list_after_In (x : Z) (l l' : list Z) :
  list_after x l = Some l' -> forall y, y ∈ l' -> y ∈ l.
Proof.
  revert l'. induction l as [|z l IH]; simpl; intros l' H y Hy; [discriminate|].
  destruct (decide (z = x)).
  - injection H as <-. right. exact Hy.
  - right. eauto.
Qed.

Lemma list_after_NoDup (x : Z) (l l' : list Z) :
  NoDup l -> list_after x l = Some l' -> x ∉ l'.
Proof.
  revert l'. induction l as [|z l IH]; simpl; intros l' Hnd H; [discriminate|].
  apply NoDup_cons in Hnd. destruct Hnd as [Hz Hnd].
  destruct (decide (z = x)) as [->|Hne].
  - injection H as <-. exact Hz.
  - eauto.
Qed.

Lemma visit_grow (w w' : world) (t : Z) (th th' : coroutine_thread) :
  lists_grow w w' -> threads w !! t = Some th -> threads w' !! t = Some th' ->
  visit_ok w th -> visit_ok w' th'.
Proof.
  intros (L & T) Ht Ht' [V1 V2]. destruct (T t th' Ht') as (th0 & H0 & P & M).
  assert (th0 = th) by congruence. subst th0. split.
  - intros x c' Hx Hc'. rewrite P in Hx. destruct (L x c' Hc') as (c & Hc).
    destruct (M x (V1 x c Hx Hc)) as [Hin|Hdead]; [exact Hin|congruence].
  - intros x n Hp. rewrite P in Hp. eauto.
Qed.

(** The worker moves to [pc] in a world whose lists are well-formed and in
    which the coroutines held at [pc] are in its list. *)
Lemma goto_lists_inv (w1 w' : world) (t : Z) (pc : worker_pc) :
  lists_inv0 w1 ->
  (forall t' th', t' ≠ t -> threads w1 !! t' = Some th' -> visit_ok w1 th') ->
  (forall th1, threads w1 !! t = Some th1 -> visit_ok w1 (set_th_task pc th1)) ->
  goto t pc w1 = Ok w' -> lists_inv w'.
Proof.
  intros Hi Hothers Hown H. unfold goto, update_thread in H. bind_inv H.
  injection H as <-. apply get_thread_Ok in E. split.
  - eapply lists_inv0_put_thread; eauto.
  - intros t1 th1 H1. simpl in H1. destruct (decide (t1 = t)) as [->|Hne].
    + rewrite lookup_insert_eq in H1. injection H1 as <-. exact (Hown a E).
    + rewrite lookup_insert_ne in H1 by congruence. exact (Hothers t1 th1 Hne H1).
Qed.

(** The same after a step that only lost destroyed coroutines. *)
Lemma goto_grown (w w1 w' : world) (t : Z) (th : coroutine_thread) (pc : worker_pc) :
  lists_inv w -> threads w !! t = Some th ->
  lists_inv0 w1 -> lists_grow w w1 ->
  (forall x c, x ∈ visited pc -> cos w !! x = Some c -> x ∈ th_co_list th) ->
  (forall x n, pc = AtRequeue x (Some n) -> n ≠ x) ->
  goto t pc w1 = Ok w' -> lists_inv w'.
Proof.
  intros [Hi Hv] Ht Hi1 Hg Hin Hne H.
  apply (goto_lists_inv w1 w' t pc Hi1); [| |exact H].
  - intros t' th' _ Ht'. destruct Hg as (L & T).
    destruct (T t' th' Ht') as (th0 & H0 & _).
    exact (visit_grow w w1 t' th0 th' (conj L T) H0 Ht' (Hv t' th0 H0)).
  - intros th1 H1. destruct Hg as (L & T).
    destruct (T t th1 H1) as (th0 & H0 & P & M).
    assert (th0 = th) by congruence. subst th0. split.
    + intros x c1 Hx Hc1. simpl in *. destruct (L x c1 Hc1) as (c & Hc).
      destruct (M x (Hin x c Hx Hc)) as [Hin'|Hdead]; [exact Hin'|congruence].
    + intros x n Hp. simpl in Hp. eauto.
Qed.

Section WorkerLists.

Variable h : coroutine_h.
Variable text : Z -> Z -> Z -> prog.

Lemma next_first_In (t : Z) (w : world) (th : coroutine_thread) (x : Z) (w' : world) :
  threads w !! t = Some th ->
  coroutine_thread_next_coroutine h t None w = Ok (Some x, w') -> x ∈ th_co_list th.
Proof.
  intros Ht H. unfold coroutine_thread_next_coroutine in H. bind_inv H.
  apply get_thread_Ok in E. assert (a = th) by congruence. subst a.
  destruct (th_co_list th) as [|y l] eqn:El; [discriminate|].
  eapply first_usable_In; eauto.
Qed.

Lemma next_after_In (t : Z) (w : world) (th : coroutine_thread) (co n : Z) (w' : world) :
  lists_inv0 w -> threads w !! t = Some th ->
  (forall c, cos w !! co = Some c -> co ∈ th_co_list th) ->
  coroutine_thread_next_coroutine h t (Some co) w = Ok (Some n, w') ->
  n ∈ th_co_list th /\ n ≠ co.
Proof.
  intros (I1 & I2 & _) Ht Hco H. unfold coroutine_thread_next_coroutine in H.
  bind_inv H. apply get_thread_Ok in E. assert (a = th) by congruence. subst a.
  bind_inv H. apply get_co_Ok in E0. bind_inv H. destruct a0 as [r w1].
  bind_inv H. injection H as -> <-.
  rewrite (I2 t th co a Ht (Hco a E0) E0) in E1. bind_inv E1.
  unfold of_option in E3. destruct (list_after co (th_co_list th)) as [l|] eqn:El;
    [|discriminate]. injection E3 as <-.
  apply first_usable_In in E1. split.
  - eapply list_after_In; eauto.
  - intros ->. exact (list_after_NoDup co (th_co_list th) l (I1 t th Ht) El E1).
Qed.

(** Unlinking a queued coroutine leaves the other workers' coroutines in
    their lists, and takes nothing else out of the list it was in. *)
Lemma del_init_linked (w : world) (x : Z) (c : coroutine) (t : Z)
    (th : coroutine_thread) (wa : world) :
  lists_inv w -> cos w !! x = Some c -> co_list_entry c = true ->
  threads w !! t = Some th -> x ∈ th_co_list th -> list_del_init x w = Ok wa ->
  lists_inv0 wa /\
  cos wa !! x = Some (set_co_list_entry false c) /\
  (forall y cy, cos wa !! y = Some cy -> exists cy0, cos w !! y = Some cy0) /\
  (forall t' th', t' ≠ t -> threads wa !! t' = Some th' -> visit_ok wa th') /\
  (forall tha, threads wa !! t = Some tha ->
     forall y, y ∈ th_co_list th -> y ≠ x -> y ∈ th_co_list tha).
Proof.
  intros [Hi Hv] Hx Hl Ht Hin H.
  pose proof (lists_inv0_del_init w x wa Hi H) as Hia.
  unfold list_del_init, get_co in H. rewrite Hx in H. simpl in H. rewrite Hl in H.
  unfold update_co, get_co in H. simpl in H. rewrite Hx in H. injection H as <-.
  assert (Hkeys : forall y cy,
            cos (put_co x (set_co_list_entry false c) (unlink x w)) !! y = Some cy ->
            exists cy0, cos w !! y = Some cy0).
  { intros y cy Hy. simpl in Hy. destruct (decide (y = x)) as [->|Hne].
    - eauto.
    - rewrite lookup_insert_ne in Hy by congruence. eauto. }
  split; [exact Hia|]. split; [simpl; apply lookup_insert_eq|]. split; [exact Hkeys|].
  split.
  - intros t' th' Hne Ht'. simpl in Ht'. rewrite lookup_fmap in Ht'.
    destruct (threads w !! t') as [th0|] eqn:Ht0; [|discriminate].
    injection Ht' as <-. destruct (Hv t' th0 Ht0) as [V1 V2]. split; [|exact V2].
    intros y cy Hy Hcy. simpl in Hy. destruct (Hkeys y cy Hcy) as (cy0 & Hcy0).
    simpl. apply list_del_In. split; [eauto|].
    intros ->. destruct Hi as (_ & _ & I3).
    apply Hne. exact (I3 t' t th0 th x Ht0 Ht (V1 x cy0 Hy Hcy0) Hin).
  - intros tha Hta y Hy Hne. simpl in Hta. rewrite lookup_fmap, Ht in Hta.
    injection Hta as <-. simpl. apply list_del_In. auto.
Qed.

Lemma closed_both (w w1 : world) :
  (forall I, api_closed h I -> I w -> I w1) ->
  lists_inv0 w -> lists_inv0 w1 /\ lists_grow w w1.
Proof.
  intros Hop Hi. split.
  - exact (Hop lists_inv0 (lists_inv0_closed h) Hi).
  - exact (Hop (lists_grow w) (lists_grow_closed h w) (lists_grow_refl w)).
Qed.

(** One step of the worker keeps the lists well-formed. *)
Lemma worker_lists_inv (t : Z) (w w' : world) :
  lists_inv w -> coroutine_thread_routine h text t w = Ok w' -> lists_inv w'.
Proof.
  intros Hinv H. pose proof Hinv as [Hi Hv].
  unfold coroutine_thread_routine in H. bind_inv H. apply get_thread_Ok in E.
  rename a into th. pose proof (Hv t th E) as [V1 V2].
  destruct (th_task th) as [| |co|co|co next| |] eqn:Hpc; cbv beta iota in H.
  - destruct (th_stopping th || negb (th_signaled th =? 0));
      [|injection H as <-; exact Hinv].
    destruct (th_stopping th);
      [apply (goto_grown w w w' t th AtReturn Hinv E Hi (lists_grow_refl w))
      |apply (goto_grown w w w' t th AtDrain Hinv E Hi (lists_grow_refl w))];
      try exact H; try (intros x c Hx; inversion Hx); intros x n Hp; discriminate Hp.
  - bind_inv H. destruct a as [r w1].
    destruct (closed_both w w1
                (fun I cl Hw => next_coroutine_keeps h I cl t None w r w1 Hw E0) Hi)
      as [Hi1 Hg].
    apply (goto_grown w w1 w' t th (visit r) Hinv E Hi1 Hg); [| |exact H].
    + intros x c Hx _. destruct r as [y|]; simpl in Hx; [|inversion Hx].
      apply list_elem_of_singleton in Hx. subst y. eapply next_first_In; eauto.
    + intros x n Hp. destruct r; discriminate.
  - bind_inv H. apply get_co_Ok in E0. bind_inv H.
    assert (Hboth : lists_inv0 a0 /\ lists_grow w a0).
    { destruct (co_running a).
      - exact (closed_both w a0
                 (fun I cl Hw => coroutine_enter_keeps h text I cl co w a0 Hw E1) Hi).
      - injection E1 as <-. split; [exact Hi|apply lists_grow_refl]. }
    destruct Hboth as [Hi1 Hg].
    apply (goto_grown w a0 w' t th (AtNext co) Hinv E Hi1 Hg); [| |exact H].
    + intros x c Hx Hc. simpl in Hx. apply list_elem_of_singleton in Hx. subst x.
      apply (V1 co c); [left|exact Hc].
    + intros x n Hp; discriminate Hp.
  - bind_inv H. destruct a as [r w1].
    destruct (closed_both w w1
                (fun I cl Hw => next_coroutine_keeps h I cl t (Some co) w r w1 Hw E0) Hi)
      as [Hi1 Hg].
    assert (Hco : forall c, cos w !! co = Some c -> co ∈ th_co_list th).
    { intros c Hc. apply (V1 co c); [left|exact Hc]. }
    apply (goto_grown w w1 w' t th (AtRequeue co r) Hinv E Hi1 Hg); [| |exact H].
    + intros x c Hx Hc. destruct r as [n|]; simpl in Hx.
      * apply elem_of_cons in Hx. destruct Hx as [->|Hx]; [eauto|].
        apply list_elem_of_singleton in Hx. subst x.
        exact (proj1 (next_after_In t w th co n w1 Hi E Hco E0)).
      * apply list_elem_of_singleton in Hx. subst x. eauto.
    + intros x n Hp. injection Hp as <- ->.
      exact (proj2 (next_after_In t w th co n w1 Hi E Hco E0)).
  - bind_inv H. apply get_co_Ok in E0. rename a into c.
    destruct (atomic_dec_and_test (co_signaled c)) as [v zero]. bind_inv H.
    rename a into w1.
    assert (Hco : co ∈ th_co_list th) by (apply (V1 co c); [destruct next; left|exact E0]).
    pose proof (closed_lists_inv h w (put_co co (set_co_signaled v c) w)
                  (fun I cl Hw => closed_put_co h I cl w co c (set_co_signaled v c) Hw E0 eq_refl) Hinv)
      as Hinv0.
    assert (Hsteps : co_list_entry c = true /\
              exists wa, list_del_init co (put_co co (set_co_signaled v c) w) = Ok wa /\
                (coroutine_deref h co wa = Ok w1 \/ list_add_tail co t wa = Ok w1)).
    { destruct (co_list_entry c); [split; [reflexivity|]|destruct zero; discriminate].
      destruct zero; bind_inv E1; bind_inv E1; eauto. }
    destruct Hsteps as (Hl & wa & Hdel & Hlast).
    destruct (del_init_linked (put_co co (set_co_signaled v c) w) co
                (set_co_signaled v c) t th wa Hinv0 (lookup_insert_eq _ _ _) Hl E Hco Hdel)
      as (Hia & Hcoa & Hkeys & Hoth & Hown).
    assert (Hboth : lists_inv0 w1 /\ lists_grow wa w1).
    { destruct Hlast as [Hd|Ha].
      - exact (closed_both wa w1
                 (fun I cl Hw => coroutine_deref_keeps h I cl co wa w1 Hw Hd) Hia).
      - split.
        + exact (lists_inv0_enqueue wa co _ t w1 Hia Hcoa eq_refl Ha).
        + exact (lists_grow_enqueue wa co t w1 Ha). }
    destruct Hboth as [Hi1 Hg].
    apply (goto_lists_inv w1 w' t (visit next) Hi1); [| |exact H].
    + intros t' th' Hne Ht'. pose proof Hg as (L & T).
      destruct (T t' th' Ht') as (th0 & H0 & _).
      exact (visit_grow wa w1 t' th0 th' Hg H0 Ht' (Hoth t' th0 Hne H0)).
    + intros th1 H1. destruct Hg as (L & T).
      destruct (T t th1 H1) as (tha & Hta & P & M). split.
      * intros x c1 Hx Hc1. simpl in Hx. destruct next as [n|]; simpl in Hx; [|inversion Hx].
        apply list_elem_of_singleton in Hx. subst x.
        pose proof (V2 co n eq_refl) as Hne.
        destruct (L n c1 Hc1) as (ca & Hca). destruct (Hkeys n ca Hca) as (c0 & Hc0).
        simpl in Hc0. rewrite lookup_insert_ne in Hc0 by congruence.
        assert (Hn : n ∈ th_co_list th) by (apply (V1 n c0); [right; left|exact Hc0]).
        destruct (M n (Hown tha Hta n Hn Hne)) as [Hin|Hdead]; [exact Hin|congruence].
      * intros x n Hp. simpl in Hp. destruct next; discriminate Hp.
  - destruct (atomic_dec_and_test (th_signaled th)) as [v zero].
    assert (Hi1 : lists_inv0 (put_thread t (set_th_signaled v th) w))
      by (eapply lists_inv0_put_thread; eauto).
    assert (Hg : lists_grow w (put_thread t (set_th_signaled v th) w))
      by (eapply lists_grow_put_thread; eauto).
    destruct zero;
      [apply (goto_grown w _ w' t th AtWait Hinv E Hi1 Hg)
      |apply (goto_grown w _ w' t th AtDrain Hinv E Hi1 Hg)];
      try exact H; try (intros x c Hx; inversion Hx); intros x n Hp; discriminate Hp.
  - injection H as <-. exact Hinv.
Qed.

End WorkerLists.

(** ** Thread stop *)

(** Clearing the link of a coroutine that is in no list. *)
Lemma lists_inv0_unlist (w : world) (x : Z) (c' : coroutine) :
  lists_inv0 w ->
  (forall t th, threads w !! t = Some th -> x ∉ th_co_list th) ->
  lists_inv0 (put_co x c' w).
Proof.
  intros (I1 & I2 & I3) Hno. split; [exact I1|]. split; [|exact I3].
  intros t th y cy Ht Hy Hcy. simpl in *.
  destruct (decide (y = x)) as [->|Hne].
  - destruct (Hno t th Ht Hy).
  - rewrite lookup_insert_ne in Hcy by congruence. eauto.
Qed.

Section StopLists.

Variable h : coroutine_h.
Variable text : Z -> Z -> Z -> prog.

(** A deref puts no coroutine into a list. *)
Lemma deref_shrinks (x : Z) (w w' : world) :
  coroutine_deref h x w = Ok w' ->
  forall t th', threads w' !! t = Some th' ->
    exists th, threads w !! t = Some th /\
      forall y, y ∈ th_co_list th' -> y ∈ th_co_list th.
Proof.
  intros H t th' Ht. unfold coroutine_deref in H. bind_inv H.
  destruct (atomic_dec_and_test (co_ref_count a)) as [v zero].
  destruct zero; [|injection H as <-; eauto].
  unfold coroutine_delete in H. bind_inv H. bind_inv H. bind_inv H. bind_inv H.
  injection H as <-. simpl in Ht.
  unfold list_del_init in E3. bind_inv E3.
  destruct (co_list_entry a4); [|injection E3 as <-; eauto].
  unfold update_co in E3. bind_inv E3. injection E3 as <-. simpl in Ht.
  rewrite lookup_fmap in Ht.
  destruct (threads w !! t) as [th|] eqn:Ht0; [|discriminate].
  injection Ht as <-. exists th. split; [reflexivity|].
  intros y Hy. simpl in Hy. apply list_del_In in Hy. tauto.
Qed.

Lemma drop_entries_lists_inv (l : list Z) (w w' : world) :
  lists_inv w ->
  (forall x t th, x ∈ l -> threads w !! t = Some th -> x ∉ th_co_list th) ->
  drop_entries h l w = Ok w' -> lists_inv w'.
Proof.
  revert w. induction l as [|x l IH]; simpl; intros w Hinv Hno H.
  - injection H as <-. exact Hinv.
  - bind_inv H. bind_inv H. unfold update_co in E. bind_inv E. injection E as <-.
    apply get_co_Ok in E1. destruct Hinv as [Hi Hv].
    assert (Hinv1 : lists_inv (put_co x (set_co_list_entry false a1) w)).
    { split.
      - apply lists_inv0_unlist; [exact Hi|]. intros t th. apply Hno. left.
      - eapply visits_grow; [exact Hv|]. eapply lists_grow_put_co; eauto. }
    apply (IH a0); [| |exact H].
    + exact (closed_lists_inv h _ a0
               (fun I cl Hw => coroutine_deref_keeps h I cl x _ a0 Hw E0) Hinv1).
    + intros y t th' Hy Ht Hin.
      destruct (deref_shrinks x _ a0 E0 t th' Ht) as (th & Ht0 & Hsub).
      simpl in Ht0. apply (Hno y t th); [right; exact Hy|exact Ht0|exact (Hsub y Hin)].
Qed.

Lemma stop_request_lists_inv (t : Z) (w w' : world) :
  lists_inv w -> coroutine_thread_stop_request t w = Ok w' -> lists_inv w'.
Proof.
  intros Hinv H. apply (closed_lists_inv h w w'); [|exact Hinv].
  intros I cl Hw. unfold coroutine_thread_stop_request in H. bind_inv H.
  injection H as <-. apply (closed_log h I cl).
  eapply (update_thread_keeps h I cl); [|exact Hw|exact E].
  intros th. split; reflexivity.
Qed.

Lemma stop_joined_lists_inv (t : Z) (w w' : world) :
  lists_inv w -> coroutine_thread_stop_joined h t w = Ok w' -> lists_inv w'.
Proof.
  intros Hinv H. unfold coroutine_thread_stop_joined in H. bind_inv H.
  apply get_thread_Ok in E. rename a into th.
  destruct (th_task th) eqn:Hpc; try (injection H as <-; exact Hinv).
  pose proof Hinv as [(I1 & I2 & I3) Hv].
  assert (Hsame : forall t1 th1,
            threads (put_thread t (set_th_co_list [] th) w) !! t1 = Some th1 ->
            (t1 = t /\ th1 = set_th_co_list [] th) \/
            (t1 ≠ t /\ threads w !! t1 = Some th1)).
  { intros t1 th1 H1. simpl in H1. destruct (decide (t1 = t)) as [->|Hne].
    - rewrite lookup_insert_eq in H1. injection H1 as <-. left. auto.
    - rewrite lookup_insert_ne in H1 by congruence. right. auto. }
  apply (drop_entries_lists_inv (th_co_list th)
           (put_thread t (set_th_co_list [] th) w) w'); [| |exact H].
  - split; [split; [|split]|].
    + intros t1 th1 H1. destruct (Hsame t1 th1 H1) as [[-> ->]|[Hne H0]]; [|eauto].
      simpl. apply NoDup_nil_2.
    + intros t1 th1 y cy H1 Hy Hcy. simpl in Hcy.
      destruct (Hsame t1 th1 H1) as [[-> ->]|[Hne H0]]; [inversion Hy|eauto].
    + intros t1 t2 th1 th2 y H1 H2 Hy1 Hy2.
      destruct (Hsame t1 th1 H1) as [[-> ->]|[Hne1 H01]]; [inversion Hy1|].
      destruct (Hsame t2 th2 H2) as [[-> ->]|[Hne2 H02]]; [inversion Hy2|eauto].
    + intros t1 th1 H1. destruct (Hsame t1 th1 H1) as [[-> ->]|[Hne H0]].
      * split; simpl; rewrite Hpc.
        -- intros x c Hx. inversion Hx.
        -- intros x n Hp. discriminate Hp.
      * exact (Hv t1 th1 H0).
  - intros x t1 th1 Hx H1 Hin.
    destruct (Hsame t1 th1 H1) as [[-> ->]|[Hne H0]]; [inversion Hin|].
    apply Hne. exact (I3 t1 t th1 th x H0 E Hin Hx).
Qed.

(** Every action keeps the lists well-formed, and so does every run. *)
Lemma do_action_lists_inv (a : action) (w w' : world) :
  lists_inv w -> do_action h text a w = Ok w' -> lists_inv w'.
Proof.
  intros Hinv H. destruct a as [x|x|x|x|x f arg|t|t|t]; simpl in H.
  - exact (closed_lists_inv h w w'
             (fun I cl Hw => coroutine_signal_keeps h I cl x w w' Hw H) Hinv).
  - exact (closed_lists_inv h w w'
             (fun I cl Hw => coroutine_cancel_keeps h I cl x w w' Hw H) Hinv).
  - exact (closed_lists_inv h w w'
             (fun I cl Hw => coroutine_ref_keeps h I cl x w w' Hw H) Hinv).
  - exact (closed_lists_inv h w w'
             (fun I cl Hw => coroutine_deref_keeps h I cl x w w' Hw H) Hinv).
  - exact (closed_lists_inv h w w'
             (fun I cl Hw => coroutine_start_keeps h I cl x f arg w w' Hw H) Hinv).
  - exact (worker_lists_inv h text t w w' Hinv H).
  - exact (stop_request_lists_inv t w w' Hinv H).
  - exact (stop_joined_lists_inv t w w' Hinv H).
Qed.

(** X1: every run of API calls, worker steps and thread stops keeps the
    ready lists well-formed: no list has a coroutine twice, a coroutine in a
    list is linked, no coroutine is in two lists, and what a worker holds is
    in the list of its thread or destroyed. *)
Theorem run_lists_inv (acts : list action) (w w' : world) :
  lists_inv w -> run h text acts w = Ok w' -> lists_inv w'.
Proof.
  revert w. induction acts as [|a acts IH]; simpl; intros w Hinv H.
  - injection H as <-. exact Hinv.
  - bind_inv H. apply (IH a0); [|exact H].
    exact (do_action_lists_inv a w a0 Hinv E).
Qed.

(** In a world with well-formed lists the worker of a thread whose signal
    counter is not negative has what [worker_ok] asks for. *)
Lemma lists_inv_worker_ok (t : Z) (w : world) :
  lists_inv w ->
  (forall th, threads w !! t = Some th -> 0 <= th_signaled th) ->
  worker_ok t w.
Proof.
  intros [(I1 & I2 & I3) Hv] Hsig th Ht. split; [exact (Hsig th Ht)|].
  intros co c Hco Hc. destruct (Hv t th Ht) as [V1 _].
  pose proof (V1 co c Hco Hc) as Hin. split; [exact (I2 t th co c Ht Hin Hc)|].
  intros t' th' Hne Ht' Hin'. apply Hne. exact (I3 t' t th' th co Ht' Ht Hin' Hin).
Qed.

End StopLists.

(** A world in which every list is empty and no worker holds a coroutine,
    as after [coroutine_thread_start] and any number of [coroutine_create],
    has well-formed lists. *)
Lemma lists_inv_idle (w : world) :
  (forall t th, threads w !! t = Some th ->
     th_co_list th = [] /\ visited (th_task th) = []) ->
  lists_inv w.
Proof.
  intros Hidle. split; [split; [|split]|].
  - intros t th Ht. destruct (Hidle t th Ht) as [-> _]. apply NoDup_nil_2.
  - intros t th x c Ht Hx. destruct (Hidle t th Ht) as [El _].
    rewrite El in Hx. inversion Hx.
  - intros t t' th th' x Ht _ Hx. destruct (Hidle t th Ht) as [El _].
    rewrite El in Hx. inversion Hx.
  - intros t th Ht. destruct (Hidle t th Ht) as [_ Ev]. split.
    + intros x c Hx. rewrite Ev in Hx. inversion Hx.
    + intros x n Hp. rewrite Hp in Ev. discriminate Ev.
Qed.

(** * Further properties of the code *)

(** ** Reference counts *)

Lemma set_co_ref_count_same (c : coroutine) : set_co_ref_count (co_ref_count c) c = c.
Proof. destruct c. reflexivity. Qed.

Lemma put_co_same (x : Z) (c : coroutine) (w : world) :
  cos w !! x = Some c -> put_co x c w = w.
Proof.
  intros Hx. destruct w as [cs ths m tr]. unfold put_co. simpl in *.
  rewrite (insert_id cs x c Hx). reflexivity.
Qed.

Lemma put_co_twice (x : Z) (c1 c2 : coroutine) (w : world) :
  put_co x c2 (put_co x c1 w) = put_co x c2 w.
Proof. unfold put_co. simpl. rewrite insert_insert_eq. reflexivity. Qed.

Lemma inc_dec (v : Z) :
  - 2 ^ 31 <= v < 2 ^ 31 -> int32 (atomic_inc v - 1) = v.
Proof.
  intros Hv. unfold atomic_inc.
  replace (int32 (v + 1) - 1) with (int32 (v + 1) + -1) by lia.
  rewrite int32_idem. replace (v + 1 + -1) with v by lia.
  exact (int32_small v Hv).
Qed.

Section RefFacts.

Variable h : coroutine_h.

(** X2: taking a reference and dropping it again leaves the world as it
    was, whatever the count, as long as it is not zero: the count comes back
    to its value, 32-bit wrap included, and nothing is destroyed. *)
Theorem coroutine_ref_deref (co : Z) (c : coroutine) (w : world) :
  cos w !! co = Some c ->
  - 2 ^ 31 <= co_ref_count c < 2 ^ 31 ->
  co_ref_count c ≠ 0 ->
  (w1 ← coroutine_ref co w; coroutine_deref h co w1) = Ok w.
Proof.
  intros Hc Hrange Hnz.
  unfold coroutine_ref, update_co, get_co. rewrite Hc. simpl.
  unfold coroutine_deref, get_co. simpl. rewrite lookup_insert_eq. simpl.
  rewrite (inc_dec _ Hrange).
  apply Z.eqb_neq in Hnz. rewrite Hnz.
  rewrite put_co_twice.
  change (set_co_ref_count (co_ref_count c)
            (set_co_ref_count (atomic_inc (co_ref_count c)) c))
    with (set_co_ref_count (co_ref_count c) c).
  rewrite set_co_ref_count_same, (put_co_same co c w Hc). reflexivity.
Qed.

End RefFacts.

(** ** The walk of [coroutine_thread_next_coroutine] *)

(** What the walk over [l] returns in [w]: the first entry whose reference
    count is not zero, after entries whose count is zero. *)
Lemma first_usable_first (l : list Z) (w : world) :
  (forall x, x ∈ l -> is_Some (cos w !! x)) ->
  exists r w', first_usable l w = Ok (r, w') /\
    match r with
    | Some x =>
      exists l1 l2 c, l = l1 ++ x :: l2 /\
        (forall y cy, y ∈ l1 -> cos w !! y = Some cy -> co_ref_count cy = 0) /\
        cos w !! x = Some c /\ co_ref_count c ≠ 0 /\
        w' = put_co x (set_co_ref_count (int32 (co_ref_count c + 1)) c) w
    | None =>
      w' = w /\ forall y cy, y ∈ l -> cos w !! y = Some cy -> co_ref_count cy = 0
    end.
Proof.
  induction l as [|x l IH]; intros Hlive.
  - exists None, w. split; [reflexivity|]. split; [reflexivity|].
    intros y cy Hy. inversion Hy.
  - destruct (Hlive x ltac:(left)) as [c Hc].
    assert (Hlive' : forall y, y ∈ l -> is_Some (cos w !! y))
      by (intros y Hy; apply Hlive; right; exact Hy).
    simpl. unfold get_co. rewrite Hc. simpl.
    destruct (co_ref_count c =? 0) eqn:Hz.
    + apply Z.eqb_eq in Hz.
      destruct (IH Hlive') as (r & w' & Hr & Hspec). exists r, w'. split; [exact Hr|].
      destruct r as [n|].
      * destruct Hspec as (l1 & l2 & cn & -> & Hzero & Hn & Hnz & ->).
        exists (x :: l1), l2, cn. split; [reflexivity|]. split; [|auto].
        intros y cy Hy Hcy. apply elem_of_cons in Hy. destruct Hy as [->|Hy]; [|eauto].
        congruence.
      * destruct Hspec as [-> Hzero]. split; [reflexivity|].
        intros y cy Hy Hcy. apply elem_of_cons in Hy. destruct Hy as [->|Hy]; [|eauto].
        congruence.
    + unfold atomic_inc_not_zero. rewrite Hz.
      exists (Some x), (put_co x (set_co_ref_count (int32 (co_ref_count c + 1)) c) w).
      split; [reflexivity|]. exists [], l, c. split; [reflexivity|].
      split; [intros y cy Hy; inversion Hy|]. apply Z.eqb_neq in Hz. auto.
Qed.

(** A deref of [x] leaves every other coroutine as it is. *)
Lemma deref_other (h : coroutine_h) (x y : Z) (w w' : world) :
  coroutine_deref h x w = Ok w' -> y ≠ x -> cos w' !! y = cos w !! y.
Proof.
  intros H Hne. unfold coroutine_deref in H. bind_inv H.
  destruct (atomic_dec_and_test (co_ref_count a)) as [v zero].
  destruct zero.
  - unfold coroutine_delete in H. bind_inv H. bind_inv H. bind_inv H. bind_inv H.
    injection H as <-. simpl. rewrite lookup_delete_ne by congruence.
    unfold list_del_init in E3. bind_inv E3.
    destruct (co_list_entry a4).
    + unfold update_co in E3. bind_inv E3. injection E3 as <-. simpl.
      rewrite !lookup_insert_ne by congruence. reflexivity.
    + injection E3 as <-. simpl. rewrite lookup_insert_ne by congruence. reflexivity.
  - injection H as <-. simpl. rewrite lookup_insert_ne by congruence. reflexivity.
Qed.

Section NextFacts.

Variable h : coroutine_h.

(** X3: called with no previous coroutine on a list whose entries are live,
    [coroutine_thread_next_coroutine] returns the first entry whose reference
    count is not zero, with one reference more and nothing else changed; it
    returns NULL, and changes nothing, exactly when every entry has a count
    of zero (an empty list included). *)
Theorem next_coroutine_first (t : Z) (th : coroutine_thread) (w : world) :
  threads w !! t = Some th ->
  (forall x, x ∈ th_co_list th -> is_Some (cos w !! x)) ->
  exists r w', coroutine_thread_next_coroutine h t None w = Ok (r, w') /\
    match r with
    | Some x =>
      exists l1 l2 c, th_co_list th = l1 ++ x :: l2 /\
        (forall y cy, y ∈ l1 -> cos w !! y = Some cy -> co_ref_count cy = 0) /\
        cos w !! x = Some c /\ co_ref_count c ≠ 0 /\
        w' = put_co x (set_co_ref_count (int32 (co_ref_count c + 1)) c) w
    | None =>
      w' = w /\
      forall y cy, y ∈ th_co_list th -> cos w !! y = Some cy -> co_ref_count cy = 0
    end.
Proof.
  intros Ht Hlive. unfold coroutine_thread_next_coroutine, get_thread.
  rewrite Ht. simpl.
  destruct (th_co_list th) as [|x l] eqn:El.
  - exists None, w. split; [reflexivity|]. split; [reflexivity|].
    intros y cy Hy. inversion Hy.
  - exact (first_usable_first (x :: l) w Hlive).
Qed.

(** X4: called with a previous coroutine that is queued in the list of the
    thread, the walk starts behind it: what is returned is an entry behind
    [prev], never [prev] itself, whose count was not zero and is one more
    now, also when the deref of [prev] that follows destroyed [prev]; NULL
    means every entry behind [prev] has a count of zero. *)
Theorem next_coroutine_after (t : Z) (th : coroutine_thread) (prev : Z) (cp : coroutine)
    (l1 l2 : list Z) (w : world) (r : option Z) (w' : world) :
  threads w !! t = Some th ->
  th_co_list th = l1 ++ prev :: l2 ->
  NoDup (th_co_list th) ->
  cos w !! prev = Some cp -> co_list_entry cp = true ->
  (forall x, x ∈ l2 -> is_Some (cos w !! x)) ->
  coroutine_thread_next_coroutine h t (Some prev) w = Ok (r, w') ->
  match r with
  | Some n =>
    n ∈ l2 /\ n ≠ prev /\
    exists cn, cos w !! n = Some cn /\ co_ref_count cn ≠ 0 /\
      cos w' !! n = Some (set_co_ref_count (int32 (co_ref_count cn + 1)) cn)
  | None => forall y cy, y ∈ l2 -> cos w !! y = Some cy -> co_ref_count cy = 0
  end /\
  exists w1, first_usable l2 w = Ok (r, w1) /\ coroutine_deref h prev w1 = Ok w'.
Proof.
  intros Ht El Hnd Hp Hlp Hlive H.
  assert (Hafter : list_after prev (th_co_list th) = Some l2).
  { rewrite El. rewrite El in Hnd. clear El. induction l1 as [|z l1 IH]; simpl.
    - destruct (decide (prev = prev)); [reflexivity|contradiction].
    - simpl in Hnd. apply NoDup_cons in Hnd. destruct Hnd as [Hz Hnd].
      destruct (decide (z = prev)) as [->|Hne]; [|auto].
      destruct Hz. apply elem_of_app. right. left. }
  assert (Hnotin : prev ∉ l2)
    by exact (list_after_NoDup prev (th_co_list th) l2 Hnd Hafter).
  unfold coroutine_thread_next_coroutine, get_thread, get_co in H.
  rewrite Ht in H. simpl in H. rewrite Hp in H. simpl in H. rewrite Hlp, Hafter in H.
  simpl in H.
  destruct (first_usable_first l2 w Hlive) as (r1 & w1 & Hr1 & Hspec).
  rewrite Hr1 in H. simpl in H. bind_inv H. injection H as <- <-.
  split; [|exists w1; auto].
  destruct r1 as [n|].
  - destruct Hspec as (k1 & k2 & cn & Ek & Hzero & Hn & Hnz & ->).
    assert (Hin : n ∈ l2) by (rewrite Ek; apply elem_of_app; right; left).
    assert (Hne : n ≠ prev) by (intros ->; contradiction).
    split; [exact Hin|]. split; [exact Hne|].
    exists cn. split; [exact Hn|]. split; [exact Hnz|].
    rewrite (deref_other h prev n _ a E Hne). simpl. apply lookup_insert_eq.
  - destruct Hspec as [_ Hzero]. exact Hzero.
Qed.

End NextFacts.

(** ** Stopping a thread *)

Section StopFacts.

Variable h : coroutine_h.
Variable text : Z -> Z -> Z -> prog.

(** A worker that has returned stays returned. *)
Lemma worker_returned (n : nat) (t : Z) (th : coroutine_thread) (w : world) :
  threads w !! t = Some th -> th_task th = AtReturn ->
  worker_steps h text n t w = Ok w.
Proof.
  intros Ht Hpc. induction n as [|n IH]; simpl; [reflexivity|].
  unfold coroutine_thread_routine, get_thread. rewrite Ht. simpl. rewrite Hpc.
  simpl. exact IH.
Qed.

(** What a deref logs, and what it leaves of a thread. *)
Lemma deref_frees (x : Z) (w w' : world) :
  coroutine_deref h x w = Ok w' ->
  (exists evs, trace w' = evs ++ trace w /\ forallb is_kfree evs = true) /\
  forall t th, threads w !! t = Some th ->
    exists th', threads w' !! t = Some th' /\ th_task th' = th_task th /\
      th_signaled th' = th_signaled th /\ th_stopping th' = th_stopping th /\
      forall y, y ∈ th_co_list th' -> y ∈ th_co_list th.
Proof.
  intros H. unfold coroutine_deref in H. bind_inv H.
  destruct (atomic_dec_and_test (co_ref_count a)) as [v zero].
  destruct zero.
  - unfold coroutine_delete in H. bind_inv H. bind_inv H. bind_inv H. bind_inv H.
    injection H as <-. unfold list_del_init in E3. bind_inv E3.
    destruct (co_list_entry a4).
    + unfold update_co in E3. bind_inv E3. injection E3 as <-. simpl. split.
      * exists [EvKfree x; EvKfree (co_stack a0)]. split; reflexivity.
      * intros t th Ht. rewrite lookup_fmap, Ht. simpl.
        eexists. split; [reflexivity|]. repeat split; try reflexivity.
        intros y Hy. simpl in Hy. apply list_del_In in Hy. tauto.
    + injection E3 as <-. simpl. split.
      * exists [EvKfree x; EvKfree (co_stack a0)]. split; reflexivity.
      * intros t th Ht. exists th. repeat split; auto.
  - injection H as <-. simpl. split.
    + exists []. split; reflexivity.
    + intros t th Ht. exists th. repeat split; auto.
Qed.

Lemma drop_entries_frees (l : list Z) (w w' : world) :
  drop_entries h l w = Ok w' ->
  (exists evs, trace w' = evs ++ trace w /\ forallb is_kfree evs = true) /\
  forall t th, threads w !! t = Some th ->
    exists th', threads w' !! t = Some th' /\ th_task th' = th_task th /\
      th_signaled th' = th_signaled th /\ th_stopping th' = th_stopping th /\
      forall y, y ∈ th_co_list th' -> y ∈ th_co_list th.
Proof.
  revert w. induction l as [|x l IH]; simpl; intros w H.
  - injection H as <-. split.
    + exists []. split; reflexivity.
    + intros t th Ht. exists th. repeat split; auto.
  - bind_inv H. bind_inv H. unfold update_co in E. bind_inv E. injection E as <-.
    destruct (deref_frees x _ a0 E0) as [(ev1 & T1 & K1) S1].
    destruct (IH a0 H) as [(ev2 & T2 & K2) S2]. split.
    + exists (ev2 ++ ev1). split.
      * rewrite T2, T1. simpl. rewrite app_assoc. reflexivity.
      * rewrite forallb_app, K1, K2. reflexivity.
    + intros t th Ht. destruct (S1 t th Ht) as (th1 & H1 & P1 & G1 & B1 & M1).
      destruct (S2 t th1 H1) as (th2 & H2 & P2 & G2 & B2 & M2).
      exists th2. split; [exact H2|]. repeat split; try congruence. auto.
Qed.

(** X5: whenever [coroutine_thread_stop] returns, the worker has left its
    loop and the ready list of the thread is empty; well-formed lists are
    still well-formed. *)
Theorem coroutine_thread_stop_result (fuel : nat) (t : Z) (w w' : world) :
  lists_inv w ->
  coroutine_thread_stop h text fuel t w = Ok w' ->
  lists_inv w' /\
  exists th', threads w' !! t = Some th' /\
    th_co_list th' = [] /\ th_task th' = AtReturn.
Proof.
  intros Hinv H. unfold coroutine_thread_stop in H. bind_inv H. bind_inv H. bind_inv H.
  apply get_thread_Ok in E1.
  assert (Hinv0 : lists_inv a) by exact (stop_request_lists_inv h t w a Hinv E).
  assert (Hinv1 : lists_inv a0).
  { clear E1 H E. revert a Hinv0 E0. induction fuel as [|n IH]; simpl; intros u Hu Hs.
    - injection Hs as <-. exact Hu.
    - bind_inv Hs. apply (IH a); [|exact Hs].
      exact (worker_lists_inv h text t u a Hu E). }
  destruct (th_task a1) eqn:Hpc; try discriminate.
  split; [exact (stop_joined_lists_inv h text t a0 w' Hinv1 H)|].
  unfold coroutine_thread_stop_joined, get_thread in H. rewrite E1 in H. simpl in H.
  rewrite Hpc in H.
  destruct (drop_entries_frees _ _ w' H) as [_ S].
  destruct (S t (set_th_co_list [] a1)) as (th' & Ht' & P & _ & _ & M).
  { simpl. apply lookup_insert_eq. }
  exists th'. split; [exact Ht'|]. split; [|rewrite P; exact Hpc].
  destruct (th_co_list th') as [|y l] eqn:El; [reflexivity|].
  specialize (M y ltac:(left)). inversion M.
Qed.

(** Stopping a thread whose worker is parked: the worker sees [stopping]
    and returns, and what is left is the loop over the queued coroutines. *)
Lemma stop_parked_eq (n : nat) (t : Z) (th : coroutine_thread) (w : world) :
  threads w !! t = Some th -> th_task th = AtWait ->
  coroutine_thread_stop h text (S n) t w =
    drop_entries h (th_co_list th)
      {| cos := cos w; threads := <[t := stopped_thread th]> (threads w);
         mem := mem w; trace := EvWake t :: trace w |}.
Proof.
  intros Ht Hpc.
  unfold coroutine_thread_stop, coroutine_thread_stop_request, update_thread, get_thread.
  rewrite Ht. simpl.
  unfold coroutine_thread_routine at 1. unfold get_thread. simpl.
  rewrite lookup_insert_eq. simpl. rewrite Hpc. simpl.
  unfold goto, update_thread, get_thread. simpl. rewrite lookup_insert_eq. simpl.
  erewrite worker_returned; [|simpl; apply lookup_insert_eq|reflexivity].
  simpl. rewrite lookup_insert_eq. simpl.
  unfold coroutine_thread_stop_joined, get_thread. simpl. rewrite lookup_insert_eq.
  simpl. unfold put_thread, log. simpl. rewrite !insert_insert_eq. reflexivity.
Qed.

(** X6: stopping a thread whose worker is parked runs nothing, however many
    coroutines are queued and signalled: the worker tests [stopping] before
    it looks at the list, so that the queued coroutines are only unlinked and
    dereferenced by the loop of [coroutine_thread_stop], and the log gains
    the wake-up and frees, no switch to a coroutine and no call.  The thread
    is left with an empty list and its worker returned. *)
Theorem coroutine_thread_stop_parked (n : nat) (t : Z) (th : coroutine_thread)
    (w w' : world) :
  threads w !! t = Some th -> th_task th = AtWait ->
  coroutine_thread_stop h text (S n) t w = Ok w' ->
  threads w' !! t = Some (stopped_thread th) /\
  exists evs, trace w' = evs ++ EvWake t :: trace w /\ forallb is_kfree evs = true.
Proof.
  intros Ht Hpc H. rewrite (stop_parked_eq n t th w Ht Hpc) in H.
  destruct (drop_entries_frees _ _ w' H) as [(evs & T & K) S]. split; [|eauto].
  destruct (S t (stopped_thread th)) as (th' & Ht' & P & G & B & M).
  { simpl. apply lookup_insert_eq. }
  rewrite Ht'. f_equal. destruct th' as [l' s' b' p']. simpl in *. subst.
  unfold stopped_thread. f_equal.
  destruct l' as [|y l']; [reflexivity|]. specialize (M y ltac:(left)). inversion M.
Qed.

End StopFacts.

(** ** The attempts to listen *)

Lemma count_events_app (p : event -> bool) (l1 l2 : list event) :
  count_events p (l1 ++ l2) = (count_events p l1 + count_events p l2)%nat.
Proof. unfold count_events. rewrite List.filter_app, length_app. reflexivity. Qed.

Lemma with_world_logs (evs1 evs2 : list event) (sw : server_world) :
  with_world (logs evs1 (sw_world (with_world (logs evs2 (sw_world sw)) sw)))
    (with_world (logs evs2 (sw_world sw)) sw)
  = with_world (logs (evs1 ++ evs2) (sw_world sw)) sw.
Proof. unfold with_world, logs. simpl. rewrite app_assoc. reflexivity. Qed.

(** Attempts that all fail: each one is made, whatever the error, with a
    sleep after each -EADDRINUSE, and the last error is what is left. *)
Lemma listen_attempts_fail (env : start_env) (n i : nat) (r : Z) (sw : server_world) :
  (forall j, (i <= j < i + n)%nat -> fst (se_listen env j) ≠ 0) ->
  exists evs,
    listen_attempts env n i r sw =
      (match n with O => r | S m => fst (se_listen env (i + m)) end,
       with_world (logs evs (sw_world sw)) sw) /\
    count_events is_listen evs = n /\ count_events is_sleep evs = in_use env i n /\
    Forall (fun e => e = EvListen (srv_host (sw_srv sw)) (srv_port (sw_srv sw)) \/
                     e = EvSleep 100) evs.
Proof.
  revert i r sw. induction n as [|n IH]; intros i r sw Hfail.
  - exists []. split; [destruct sw as [s c [a b m tr]]; reflexivity|]. repeat split. constructor.
  - pose proof (Hfail i ltac:(lia)) as Hi. simpl.
    destruct (se_listen env i) as [ri sock] eqn:Ei. simpl in Hi.
    apply Z.eqb_neq in Hi. rewrite Hi. simpl.
    assert (Hfail' : forall j, (S i <= j < S i + n)%nat -> fst (se_listen env j) ≠ 0)
      by (intros j Hj; apply Hfail; lia).
    unfold in_use. simpl. rewrite Ei. simpl. fold (in_use env (S i) n).
    destruct (ri =? - EADDRINUSE) eqn:Hu.
    + destruct (IH (S i) ri
                  (sw_log (EvSleep 100)
                     (sw_log (EvListen (srv_host (sw_srv sw)) (srv_port (sw_srv sw))) sw))
                  Hfail') as (evs & Heq & Hl & Hs & Hall).
      exists (evs ++ [EvSleep 100; EvListen (srv_host (sw_srv sw)) (srv_port (sw_srv sw))]).
      split; [|split; [|split]].
      * rewrite Heq. f_equal.
        -- destruct n as [|m]; [rewrite Nat.add_0_r, Ei; reflexivity|].
           do 2 f_equal. lia.
        -- unfold with_world, sw_log, with_world, logs, log. simpl.
           rewrite <- app_assoc. reflexivity.
      * rewrite count_events_app, Hl. exact (Nat.add_1_r _).
      * rewrite count_events_app, Hs. exact (Nat.add_1_r _).
      * apply Forall_app. split; [exact Hall|].
        constructor; [right; reflexivity|constructor; [left; reflexivity|constructor]].
    + destruct (IH (S i) ri
                  (sw_log (EvListen (srv_host (sw_srv sw)) (srv_port (sw_srv sw))) sw)
                  Hfail') as (evs & Heq & Hl & Hs & Hall).
      exists (evs ++ [EvListen (srv_host (sw_srv sw)) (srv_port (sw_srv sw))]).
      split; [|split; [|split]].
      * rewrite Heq. f_equal.
        -- destruct n as [|m]; [rewrite Nat.add_0_r, Ei; reflexivity|].
           do 2 f_equal. lia.
        -- unfold with_world, sw_log, with_world, logs, log. simpl.
           rewrite <- app_assoc. reflexivity.
      * rewrite count_events_app, Hl. exact (Nat.add_1_r _).
      * rewrite count_events_app, Hs. exact (Nat.add_0_r _).
      * apply Forall_app. split; [exact Hall|].
        constructor; [left; reflexivity|constructor].
Qed.

(** Attempts of which the [k]-th is the first to succeed: the loop is left
    with its socket after [k + 1] calls. *)
Lemma listen_attempts_success (env : start_env) (k n i : nat) (r sock : Z)
    (sw : server_world) :
  (k < n)%nat ->
  (forall j, (i <= j < i + k)%nat -> fst (se_listen env j) ≠ 0) ->
  se_listen env (i + k) = (0, sock) ->
  exists evs,
    listen_attempts env n i r sw =
      (0, with_srv (set_srv_listen_sock sock (sw_srv sw))
            (with_world (logs evs (sw_world sw)) sw)) /\
    count_events is_listen evs = S k /\ count_events is_sleep evs = in_use env i k /\
    Forall (fun e => e = EvListen (srv_host (sw_srv sw)) (srv_port (sw_srv sw)) \/
                     e = EvSleep 100) evs.
Proof.
  revert n i r sw. induction k as [|k IH]; intros n i r sw Hk Hfail Hok.
  - destruct n as [|n]; [lia|]. rewrite Nat.add_0_r in Hok. simpl. rewrite Hok. simpl.
    exists [EvListen (srv_host (sw_srv sw)) (srv_port (sw_srv sw))].
    split; [reflexivity|]. repeat split.
    constructor; [left; reflexivity|constructor].
  - destruct n as [|n]; [lia|].
    pose proof (Hfail i ltac:(lia)) as Hi. simpl.
    destruct (se_listen env i) as [ri s0] eqn:Ei. simpl in Hi.
    apply Z.eqb_neq in Hi. rewrite Hi. simpl.
    assert (Hfail' : forall j, (S i <= j < S i + k)%nat -> fst (se_listen env j) ≠ 0)
      by (intros j Hj; apply Hfail; lia).
    assert (Hok' : se_listen env (S i + k) = (0, sock))
      by (rewrite <- Hok; f_equal; lia).
    unfold in_use. simpl. rewrite Ei. simpl. fold (in_use env (S i) k).
    destruct (ri =? - EADDRINUSE) eqn:Hu.
    + destruct (IH n (S i) ri
                  (sw_log (EvSleep 100)
                     (sw_log (EvListen (srv_host (sw_srv sw)) (srv_port (sw_srv sw))) sw))
                  ltac:(lia) Hfail' Hok') as (evs & Heq & Hl & Hs & Hall).
      exists (evs ++ [EvSleep 100; EvListen (srv_host (sw_srv sw)) (srv_port (sw_srv sw))]).
      split; [|split; [|split]].
      * rewrite Heq. f_equal.
        unfold with_srv, with_world, sw_log, with_world, logs, log. simpl.
        rewrite <- app_assoc. reflexivity.
      * rewrite count_events_app, Hl. exact (Nat.add_1_r _).
      * rewrite count_events_app, Hs. exact (Nat.add_1_r _).
      * apply Forall_app. split; [exact Hall|].
        constructor; [right; reflexivity|constructor; [left; reflexivity|constructor]].
    + destruct (IH n (S i) ri
                  (sw_log (EvListen (srv_host (sw_srv sw)) (srv_port (sw_srv sw))) sw)
                  ltac:(lia) Hfail' Hok') as (evs & Heq & Hl & Hs & Hall).
      exists (evs ++ [EvListen (srv_host (sw_srv sw)) (srv_port (sw_srv sw))]).
      split; [|split; [|split]].
      * rewrite Heq. f_equal.
        unfold with_srv, with_world, sw_log, with_world, logs, log. simpl.
        rewrite <- app_assoc. reflexivity.
      * rewrite count_events_app, Hl. exact (Nat.add_1_r _).
      * rewrite count_events_app, Hs. exact (Nat.add_0_r _).
      * apply Forall_app. split; [exact Hall|].
        constructor; [left; reflexivity|constructor].
Qed.

Section StartFacts.

Variable h : coroutine_h.
Variable text : Z -> Z -> Z -> prog.
Variable HOST_SIZE : Z.
Variable con_thread : Z.

(** X7: when all five attempts to listen fail, [tlb_server_start] returns
    the error of the fifth.  It has retried after every error, not only after
    -EADDRINUSE, and slept only after -EADDRINUSE; it has started no thread
    and holds no socket. *)
Theorem tlb_server_start_listen_fails (env : start_env) (fuel : nat) (host : string)
    (port : Z) (sw : server_world) :
  Z.of_nat (String.length host) < 2 ^ 31 ->
  (forall j, (j < 5)%nat -> fst (se_listen env j) ≠ 0) ->
  exists evs sw',
    tlb_server_start h text HOST_SIZE con_thread env fuel host port sw
      = Ok (fst (se_listen env 4), sw') /\
    sw_world sw' = logs evs (sw_world sw) /\
    sw_cons sw' = sw_cons sw /\
    srv_listen_sock (sw_srv sw') = 0 /\
    count_events is_listen evs = 5%nat /\
    count_events is_sleep evs = in_use env 0 5 /\
    Forall (fun e => e = EvListen (String.substring 0 (Z.to_nat (HOST_SIZE - 1)) host) port
                     \/ e = EvSleep 100) evs.
Proof.
  intros Hlen Hfail. unfold tlb_server_start.
  pose proof (host_test_passes HOST_SIZE host Hlen) as Htest.
  destruct (snprintf_s HOST_SIZE host) as [buf n] eqn:Es.
  simpl in Htest. rewrite Htest.
  assert (Hbuf : buf = String.substring 0 (Z.to_nat (HOST_SIZE - 1)) host)
    by (unfold snprintf_s in Es; congruence).
  cbv beta iota zeta.
  destruct (listen_attempts_fail env 5 0 0
              (with_srv (set_srv_port port
                 (sw_srv (with_srv (set_srv_host buf (sw_srv (with_srv zero_server sw)))
                            (with_srv zero_server sw))))
                 (with_srv (set_srv_host buf (sw_srv (with_srv zero_server sw)))
                    (with_srv zero_server sw))))
    as (evs & Heq & Hl & Hs & Hall).
  { intros j Hj. apply Hfail. lia. }
  rewrite Heq. simpl.
  pose proof (Hfail 4%nat ltac:(lia)) as H4. apply Z.eqb_neq in H4. rewrite H4. simpl.
  exists evs. eexists. split; [reflexivity|]. simpl.
  repeat split; auto. simpl in Hall. rewrite Hbuf in Hall. exact Hall.
Qed.

End StartFacts.

Section StartCleanup.

Variable h : coroutine_h.
Variable text : Z -> Z -> Z -> prog.
Variable HOST_SIZE : Z.
Variable con_thread : Z.

(** The server after the host and the port have been stored. *)
Lemma start_listens (env : start_env) (fuel : nat) (host : string) (port : Z)
    (sw : server_world) (k : nat) (sock : Z) :
  Z.of_nat (String.length host) < 2 ^ 31 ->
  (k < 5)%nat ->
  (forall j, (j < k)%nat -> fst (se_listen env j) ≠ 0) ->
  se_listen env k = (0, sock) ->
  exists evs,
    count_events is_listen evs = S k /\ count_events is_sleep evs = in_use env 0 k /\
    Forall (fun e => e = EvListen (String.substring 0 (Z.to_nat (HOST_SIZE - 1)) host) port
                     \/ e = EvSleep 100) evs /\
    tlb_server_start h text HOST_SIZE con_thread env fuel host port sw =
      let s := set_srv_listen_sock sock
                 (set_srv_port port
                    (set_srv_host (String.substring 0 (Z.to_nat (HOST_SIZE - 1)) host)
                       zero_server)) in
      let '(r, w) := coroutine_thread_start con_thread (se_con_task env)
                       (logs evs (sw_world sw)) in
      if negb (r =? 0) then
        Ok (r, {| sw_srv := s; sw_cons := sw_cons sw;
                  sw_world := log (EvSockRelease sock) w |})
      else
        match se_listen_task env with
        | ERR_PTR r =>
          w ← coroutine_thread_stop h text fuel con_thread w;
          Ok (r, {| sw_srv := s; sw_cons := sw_cons sw;
                    sw_world := log (EvSockRelease sock) w |})
        | Task task =>
          Ok (0, {| sw_srv := set_srv_listen_thread task s; sw_cons := sw_cons sw;
                    sw_world := log (EvTaskWake task) w |})
        end.
Proof.
  intros Hlen Hk Hfail Hok. unfold tlb_server_start.
  pose proof (host_test_passes HOST_SIZE host Hlen) as Htest.
  destruct (snprintf_s HOST_SIZE host) as [buf n] eqn:Es.
  simpl in Htest. rewrite Htest.
  assert (Hbuf : buf = String.substring 0 (Z.to_nat (HOST_SIZE - 1)) host)
    by (unfold snprintf_s in Es; congruence).
  cbv beta iota zeta.
  destruct (listen_attempts_success env k 5 0 0 sock
              (with_srv (set_srv_port port
                 (sw_srv (with_srv (set_srv_host buf (sw_srv (with_srv zero_server sw)))
                            (with_srv zero_server sw))))
                 (with_srv (set_srv_host buf (sw_srv (with_srv zero_server sw)))
                    (with_srv zero_server sw))) Hk)
    as (evs & Heq & Hl & Hs & Hall).
  { intros j Hj. apply Hfail. lia. }
  { exact Hok. }
  exists evs. split; [exact Hl|]. split; [exact Hs|].
  split; [simpl in Hall; rewrite Hbuf in Hall; exact Hall|].
  rewrite Heq. simpl. rewrite Hbuf.
  destruct (coroutine_thread_start con_thread (se_con_task env) (logs evs (sw_world sw)))
    as [r w]. simpl.
  destruct (negb (r =? 0)); [reflexivity|].
  destruct (se_listen_task env); reflexivity.
Qed.

(** X8: [tlb_server_start] keeps trying to listen until an attempt
    succeeds: when the attempt of index [k < 5] is the first to succeed and
    both threads can be created, it has called [ksock_listen_host] [k + 1]
    times, holds the socket of that attempt, has parked the worker of the
    coroutine thread and woken the listener, and returns 0. *)
Theorem tlb_server_start_retries (env : start_env) (fuel : nat) (host : string)
    (port : Z) (sw : server_world) (k : nat) (sock t1 t2 : Z) :
  Z.of_nat (String.length host) < 2 ^ 31 ->
  (k < 5)%nat ->
  (forall j, (j < k)%nat -> fst (se_listen env j) ≠ 0) ->
  se_listen env k = (0, sock) ->
  se_con_task env = Task t1 ->
  se_listen_task env = Task t2 ->
  exists evs sw',
    tlb_server_start h text HOST_SIZE con_thread env fuel host port sw = Ok (0, sw') /\
    count_events is_listen evs = S k /\ count_events is_sleep evs = in_use env 0 k /\
    srv_listen_sock (sw_srv sw') = sock /\
    srv_listen_thread (sw_srv sw') = t2 /\
    threads (sw_world sw') !! con_thread =
      Some {| th_co_list := []; th_signaled := 0; th_stopping := false;
              th_task := AtWait |} /\
    trace (sw_world sw') = EvTaskWake t2 :: evs ++ trace (sw_world sw).
Proof.
  intros Hlen Hk Hfail Hok Hc Ht.
  destruct (start_listens env fuel host port sw k sock Hlen Hk Hfail Hok)
    as (evs & Hl & Hs & _ & Heq).
  exists evs. rewrite Heq. unfold coroutine_thread_start. rewrite Hc, Ht. simpl.
  eexists. split; [reflexivity|]. simpl.
  repeat split; auto. apply lookup_insert_eq.
Qed.

(** X9: when the task of the coroutine thread cannot be created,
    [tlb_server_start] releases the socket it listens on, as the last thing
    it does, and returns the error; no listener is started, and the coroutine
    thread is initialised with no worker running. *)
Theorem tlb_server_start_no_worker (env : start_env) (fuel : nat) (host : string)
    (port : Z) (sw : server_world) (k : nat) (sock err : Z) :
  Z.of_nat (String.length host) < 2 ^ 31 ->
  (k < 5)%nat ->
  (forall j, (j < k)%nat -> fst (se_listen env j) ≠ 0) ->
  se_listen env k = (0, sock) ->
  se_con_task env = ERR_PTR err -> err ≠ 0 ->
  exists evs sw',
    tlb_server_start h text HOST_SIZE con_thread env fuel host port sw = Ok (err, sw') /\
    count_events is_listen evs = S k /\
    Forall (fun e => e = EvListen (String.substring 0 (Z.to_nat (HOST_SIZE - 1)) host) port
                     \/ e = EvSleep 100) evs /\
    trace (sw_world sw') = EvSockRelease sock :: evs ++ trace (sw_world sw) /\
    srv_listen_thread (sw_srv sw') = 0 /\
    threads (sw_world sw') !! con_thread =
      Some {| th_co_list := []; th_signaled := 0; th_stopping := false;
              th_task := AtReturn |}.
Proof.
  intros Hlen Hk Hfail Hok Hc Herr.
  destruct (start_listens env fuel host port sw k sock Hlen Hk Hfail Hok)
    as (evs & Hl & _ & Hall & Heq).
  exists evs. rewrite Heq. unfold coroutine_thread_start. rewrite Hc. simpl.
  apply Z.eqb_neq in Herr. rewrite Herr. simpl.
  eexists. split; [reflexivity|]. simpl.
  repeat split; auto. apply lookup_insert_eq.
Qed.

(** X10: when the listener task cannot be created, [tlb_server_start] stops
    the coroutine thread it has just started and then releases the socket,
    and returns the error: the worker has returned without having run
    anything, and the last two things logged are the wake-up of the stop and
    the release. *)
Theorem tlb_server_start_no_listener (env : start_env) (n : nat) (host : string)
    (port : Z) (sw : server_world) (k : nat) (sock t1 err : Z) :
  Z.of_nat (String.length host) < 2 ^ 31 ->
  (k < 5)%nat ->
  (forall j, (j < k)%nat -> fst (se_listen env j) ≠ 0) ->
  se_listen env k = (0, sock) ->
  se_con_task env = Task t1 ->
  se_listen_task env = ERR_PTR err ->
  exists evs sw',
    tlb_server_start h text HOST_SIZE con_thread env (S n) host port sw = Ok (err, sw') /\
    count_events is_listen evs = S k /\
    Forall (fun e => e = EvListen (String.substring 0 (Z.to_nat (HOST_SIZE - 1)) host) port
                     \/ e = EvSleep 100) evs /\
    trace (sw_world sw') =
      EvSockRelease sock :: EvWake con_thread :: evs ++ trace (sw_world sw) /\
    cos (sw_world sw') = cos (sw_world sw) /\
    threads (sw_world sw') !! con_thread =
      Some {| th_co_list := []; th_signaled := 0; th_stopping := true;
              th_task := AtReturn |}.
Proof.
  intros Hlen Hk Hfail Hok Hc Ht.
  destruct (start_listens env (S n) host port sw k sock Hlen Hk Hfail Hok)
    as (evs & Hl & _ & Hall & Heq).
  exists evs. rewrite Heq. unfold coroutine_thread_start. rewrite Hc, Ht. simpl.
  erewrite (stop_parked_eq h text n con_thread);
    [|simpl; apply lookup_insert_eq|reflexivity].
  simpl. eexists. split; [reflexivity|]. simpl.
  repeat split; auto. apply lookup_insert_eq.
Qed.

End StartCleanup.

(** ** Connections *)

Section ConFacts.

Variable h : coroutine_h.
Variable srv : Z.
Variable con_thread : Z.
Variable tlb_con_coroutine : Z.

(** X11: [tlb_con_create] returns NULL exactly when one of its three
    allocations fails, and then every allocation it has made is freed again,
    in reverse order, and no connection is recorded. *)
Theorem tlb_con_create_null (con_mem co_mem stack_mem : option Z) (sw : server_world) :
  match con_mem, co_mem, stack_mem with
  | None, _, _ =>
    tlb_con_create h srv con_thread con_mem co_mem stack_mem sw = Ok (None, sw)
  | Some con, None, _ =>
    tlb_con_create h srv con_thread con_mem co_mem stack_mem sw =
      Ok (None, with_world (logs [EvKfree con; EvKmalloc con] (sw_world sw)) sw)
  | Some con, Some co, None =>
    tlb_con_create h srv con_thread con_mem co_mem stack_mem sw =
      Ok (None,
          with_world
            (logs [EvKfree con; EvKfree co; EvKmalloc co; EvKmalloc con]
               (free_co co (sw_world sw))) sw)
  | Some con, Some co, Some stack =>
    forall sw', tlb_con_create h srv con_thread con_mem co_mem stack_mem sw ≠ Ok (None, sw')
  end.
Proof.
  destruct con_mem as [con|]; [|reflexivity].
  destruct co_mem as [co|]; [|reflexivity].
  destruct stack_mem as [stack|].
  - intros sw' H. unfold tlb_con_create, coroutine_create in H. simpl in H.
    destruct (BUG_ON (negb (Z.land (ulong stack) (COROUTINE_PAGE_SIZE h - 1) =? 0)));
      simpl in H; discriminate.
  - unfold tlb_con_create, coroutine_create. simpl.
    unfold with_world, logs, free_co, put_co, log. simpl.
    rewrite delete_insert_eq. reflexivity.
Qed.

(** X12: in a round of the accept loop whose [ksock_accept] succeeds, the
    connection gets the socket and its coroutine is started with
    [tlb_con_coroutine] and the connection as argument: the coroutine is
    appended to the ready list of the server's coroutine thread with two
    references, that of its creator and that of the list, one signal is
    counted for it and for the thread, the worker is woken, and the loop goes
    on with the next round. *)
Theorem accept_round_starts (r : accept_round) (rounds : list accept_round)
    (sw : server_world) (con co stack sock : Z) (th : coroutine_thread) :
  5 <= COROUTINE_STACK_SHIFT h ->
  ar_should_stop r = false -> ar_stopping r = false ->
  ar_con_mem r = Some con -> ar_co_mem r = Some co -> ar_stack_mem r = Some stack ->
  ar_accept r = (0, sock) ->
  0 <= co < 2 ^ 64 -> 0 <= stack -> stack + COROUTINE_STACK_SIZE h <= 2 ^ 64 ->
  Z.land stack (COROUTINE_PAGE_SIZE h - 1) = 0 ->
  threads (sw_world sw) !! con_thread = Some th ->
  tlb_server_listen_thread_routine h srv con_thread tlb_con_coroutine (r :: rounds) sw =
  tlb_server_listen_thread_routine h srv con_thread tlb_con_coroutine rounds
    {| sw_srv := sw_srv sw;
       sw_cons := <[con := {| con_sock := sock; con_co := co; con_srv := srv |}]> (sw_cons sw);
       sw_world :=
         {| cos := <[co := {| co_magic := COROUTINE_MAGIC h; co_thread := con_thread;
                              co_stack := stack;
                              co_ctx := CtxTrampoline (stack_self h stack);
                              co_fun := tlb_con_coroutine; co_arg := con; co_ret := 0;
                              co_running := true; co_ref_count := 2; co_signaled := 1;
                              co_list_entry := true |}]> (cos (sw_world sw));
            threads := <[con_thread :=
                          {| th_co_list := th_co_list th ++ [co];
                             th_signaled := atomic_inc (th_signaled th);
                             th_stopping := th_stopping th;
                             th_task := th_task th |}]> (threads (sw_world sw));
            mem := <[stack + COROUTINE_STACK_SIZE h - 2 * sizeof_ulong := co]>
                     (<[stack + COROUTINE_STACK_SIZE h - sizeof_ulong :=
                          COROUTINE_STACK_TOP_MAGIC h]>
                        (<[stack := COROUTINE_STACK_BOTTOM_MAGIC h]> (mem (sw_world sw))));
            trace := EvWake con_thread :: EvKmalloc stack :: EvKmalloc co ::
                     EvKmalloc con :: trace (sw_world sw) |} |}.
Proof.
  intros Hs Hstop Hstopping Hcon Hco Hstack Hacc Bco B0 B1 Hal Hth.
  pose proof (stack_size_ge_32 h Hs) as Hsz.
  destruct (stack_words h stack Hs B0 B1) as (Eb & Et & Ese).
  cbn [tlb_server_listen_thread_routine]. rewrite Hstop, Hstopping. simpl.
  unfold tlb_con_create. rewrite Hcon, Hco, Hstack. simpl.
  rewrite (ulong_small stack) by lia. rewrite Hal. simpl.
  rewrite Hacc. simpl.
  unfold tlb_con_start. simpl. rewrite lookup_insert_eq. simpl.
  unfold coroutine_start, get_co. simpl. rewrite lookup_insert_eq. simpl.
  rewrite Z.eqb_refl. simpl.
  unfold coroutine_signal, get_co. simpl. rewrite lookup_insert_eq. simpl.
  unfold coroutine_ref, update_co, get_co. simpl. rewrite lookup_insert_eq. simpl.
  unfold list_add_tail, update_thread, get_thread. simpl. rewrite Hth. simpl.
  unfold update_co, get_co. simpl. rewrite lookup_insert_eq. simpl.
  rewrite lookup_insert_eq. simpl.
  rewrite Eb, Et, Ese, (ulong_small co) by lia.
  unfold put_co, put_thread, log, with_world, with_cons. simpl.
  rewrite !insert_insert_eq. reflexivity.
Qed.

(** X13: the function of a connection's coroutine drops the reference its
    creator holds on that coroutine and releases the socket of the
    connection, and returns NULL.  With another reference left, as after
    [tlb_con_start], where the ready list holds one, the coroutine is not
    destroyed under its own feet: only its count changes.  The connection
    object itself is never freed.  Called for a coroutine that is not the
    one of the connection, the function is a BUG. *)
Theorem tlb_con_coroutine_drops_ref (co arg : Z) (c : tlb_con) (cc : coroutine)
    (sw : server_world) :
  sw_cons sw !! arg = Some c ->
  cos (sw_world sw) !! con_co c = Some cc ->
  int32 (co_ref_count cc - 1) ≠ 0 ->
  (co ≠ con_co c -> tlb_con_coroutine_body h co arg sw = Bug) /\
  (co = con_co c ->
   tlb_con_coroutine_body h co arg sw =
     Ok (0,
         {| sw_srv := sw_srv sw; sw_cons := sw_cons sw;
            sw_world :=
              {| cos := <[co := set_co_ref_count (int32 (co_ref_count cc - 1)) cc]>
                          (cos (sw_world sw));
                 threads := threads (sw_world sw); mem := mem (sw_world sw);
                 trace := if con_sock c =? 0 then trace (sw_world sw)
                          else EvSockRelease (con_sock c) :: trace (sw_world sw) |} |})).
Proof.
  intros Hc Hcc Hnz. unfold tlb_con_coroutine_body. rewrite Hc. simpl. split.
  - intros Hne. assert (E : (con_co c =? co) = false) by (apply Z.eqb_neq; congruence).
    rewrite E. reflexivity.
  - intros ->. rewrite Z.eqb_refl. simpl.
    unfold tlb_con_delete. rewrite Hc. simpl.
    unfold coroutine_deref, get_co. rewrite Hcc. simpl.
    unfold atomic_dec_and_test. apply Z.eqb_neq in Hnz. rewrite Hnz. simpl.
    destruct (con_sock c =? 0); reflexivity.
Qed.

End ConFacts.

(** ** The exit of the listener *)

Section ListenerExit.

Variable h : coroutine_h.
Variable srv : Z.
Variable con_thread : Z.
Variable tlb_con_coroutine : Z.





End ListenerExit.

(** ** A started coroutine runs to its end *)

(** A worker parked with nothing signalled and no stop requested stays
    where it is. *)
Lemma worker_parked (h : coroutine_h) (text : Z -> Z -> Z -> prog) (n : nat) (t : Z)
    (th : coroutine_thread) (w : world) :
  threads w !! t = Some th -> th_task th = AtWait ->
  th_stopping th = false -> th_signaled th = 0 ->
  worker_steps h text n t w = Ok w.
Proof.
  intros Ht Hpc Hstop Hsig. induction n as [|n IH]; simpl; [reflexivity|].
  unfold coroutine_thread_routine, get_thread. rewrite Ht. simpl.
  rewrite Hpc, Hstop, Hsig. simpl. exact IH.
Qed.

Section Completes.

Variable h : coroutine_h.
Variable text : Z -> Z -> Z -> prog.

Lemma check_magic_Ok (c : coroutine) (w : world) :
  check_magic h c w = Ok tt ->
  co_magic c = COROUTINE_MAGIC h /\
  mem w !! stack_bottom (co_stack c) = Some (COROUTINE_STACK_BOTTOM_MAGIC h) /\
  mem w !! stack_top h (co_stack c) = Some (COROUTINE_STACK_TOP_MAGIC h).
Proof.
  unfold check_magic. intros H. bind_inv H. bind_inv H. bind_inv H. bind_inv H.
  unfold load in E0, E2.
  destruct (mem w !! stack_bottom (co_stack c)) as [b|]; [|discriminate].
  destruct (mem w !! stack_top h (co_stack c)) as [t|]; [|discriminate].
  injection E0 as <-. injection E2 as <-. unfold BUG_ON in *.
  destruct (Z.eqb_spec (co_magic c) (COROUTINE_MAGIC h)); [|discriminate].
  destruct (Z.eqb_spec b (COROUTINE_STACK_BOTTOM_MAGIC h)); [|discriminate].
  destruct (Z.eqb_spec t (COROUTINE_STACK_TOP_MAGIC h)); [|discriminate].
  subst. auto.
Qed.

Variable w : world.
Variable co f arg v : Z.
Variable c : coroutine.

Hypothesis Hwf : wf_stacks h w.
Hypothesis Hc : cos w !! co = Some c.
Hypothesis Hmagic : check_magic h c w = Ok tt.
Hypothesis Hf : f ≠ 0.

Ltac ws :=
  repeat progress
    (unfold goto, update_thread, update_co, get_thread, get_co; simpl;
     rewrite ?lookup_insert_eq; simpl).

Ltac ws_eq :=
  unfold pass_world, put_thread, put_co, log; simpl;
  rewrite ?insert_insert_eq; reflexivity.

Lemma pass_wait (c' : coroutine) (evs : list event) :
  coroutine_thread_routine h text (co_thread c') (pass_world w co c' AtWait evs)
  = Ok (pass_world w co c' AtDrain evs).
Proof. unfold coroutine_thread_routine. ws. f_equal. ws_eq. Qed.

Lemma pass_first (refs : Z) (evs : list event) :
  0 < refs < 2 ^ 31 - 1 ->
  coroutine_thread_routine h text (co_thread c)
    (pass_world w co (started_co h c f arg refs) AtDrain evs)
  = Ok (pass_world w co (started_co h c f arg (refs + 1)) (AtEnter co) evs).
Proof.
  intros Hr. unfold coroutine_thread_routine. ws.
  unfold coroutine_thread_next_coroutine. ws.
  assert (Hz : (refs =? 0) = false) by (apply Z.eqb_neq; lia). rewrite Hz.
  unfold atomic_inc_not_zero. rewrite Hz. simpl. ws.
  rewrite int32_small by lia. f_equal. ws_eq.
Qed.

Lemma pass_wf (c' : coroutine) (pc : worker_pc) (evs : list event) :
  co_stack c' = co_stack c ->
  (forall rsp, co_ctx c' = CtxTrampoline rsp -> rsp = stack_self h (co_stack c)) ->
  wf_stacks h (pass_world w co c' pc evs).
Proof.
  intros Hst Hctx. destruct Hwf as (Hs & Hfr & Hall). split; [exact Hs|].
  split; [exact Hfr|]. intros x cx Hx. simpl in Hx.
  destruct (decide (x = co)) as [->|Hne].
  - rewrite lookup_insert_eq in Hx. injection Hx as <-.
    destruct (Hall co c Hc) as (B0 & B1 & Hal & Hself & _).
    rewrite Hst. simpl. repeat split; auto.
  - rewrite lookup_insert_ne in Hx by congruence. exact (Hall x cx Hx).
Qed.

(** The worker enters the coroutine, whose function returns [v] and leaves
    [refs'] references. *)
Lemma pass_enter (refs refs' : Z) (evs : list event) :
  run_prog h text co (text f co arg)
    (pass_world w co (started_co h c f arg refs) (AtEnter co)
       (EvCall f co arg :: EvEnter co :: evs))
  = Ok (Some v, pass_world w co (started_co h c f arg refs') (AtEnter co)
                  (EvCall f co arg :: EvEnter co :: evs)) ->
  coroutine_thread_routine h text (co_thread c)
    (pass_world w co (started_co h c f arg refs) (AtEnter co) evs)
  = Ok (drain_world w co (finished_co c f arg v) refs' 1 1 true (AtNext co)
          (EvYield co :: EvDone co :: EvRet co v :: EvCall f co arg :: EvEnter co :: evs)).
Proof.
  intros Hbody.
  destruct (check_magic_Ok c w Hmagic) as (Hm & Hbot & Htop).
  unfold coroutine_thread_routine. ws.
  unfold coroutine_enter. ws. rewrite Hm, Z.eqb_refl. simpl.
  unfold kernel_longjmp. ws.
  unfold coroutine_trampoline.
  rewrite (wf_recover h co (started_co h c f arg refs) (stack_self h (co_stack c))
             (log (EvEnter co)
                (pass_world w co (started_co h c f arg refs) (AtEnter co) evs))
             (pass_wf (started_co h c f arg refs) (AtEnter co) evs eq_refl
                ltac:(intros rsp [= <-]; reflexivity))
             ltac:(simpl; apply lookup_insert_eq) eq_refl).
  cbn [mbind result_bind]. unfold get_co at 1. simpl. rewrite lookup_insert_eq.
  cbn [mbind result_bind of_option].
  unfold check_magic at 1, load. cbn [co_magic co_stack started_co mem log pass_world].
  rewrite Hm, Z.eqb_refl, Hbot, Htop. cbn [mbind result_bind of_option BUG_ON negb].
  rewrite !Z.eqb_refl. cbn [mbind result_bind of_option BUG_ON negb].
  cbn [co_fun co_arg started_co].
  apply Z.eqb_neq in Hf. rewrite Hf. cbn [mbind result_bind].
  unfold trampoline_call.
  change (log (EvCall f co arg)
            (log (EvEnter co)
               (pass_world w co (started_co h c f arg refs) (AtEnter co) evs)))
    with (pass_world w co (started_co h c f arg refs) (AtEnter co)
            (EvCall f co arg :: EvEnter co :: evs)).
  rewrite Hbody. cbn [mbind result_bind].
  unfold trampoline_return. ws.
  unfold check_magic at 1, load. simpl.
  rewrite Hm, Z.eqb_refl. fold (stack_bottom (co_stack c)). rewrite Hbot.
  cbn [mbind result_bind of_option BUG_ON negb].
  rewrite Z.eqb_refl. cbn [mbind result_bind of_option BUG_ON negb].
  fold (stack_top h (co_stack c)). rewrite Htop.
  cbn [mbind result_bind of_option BUG_ON negb].
  rewrite Z.eqb_refl. cbn [mbind result_bind of_option BUG_ON negb].
  unfold coroutine_yield. ws. f_equal.
  unfold drain_world, cancelled_co, finished_co, put_thread, put_co, log. simpl.
  rewrite !insert_insert_eq. reflexivity.
Qed.

(** The whole pass, up to the wait, when the function calls nothing. *)
Lemma pass_all (evs : list event) :
  (forall w0, run_prog h text co (text f co arg) w0 = Ok (Some v, w0)) ->
  (forall t th, threads w !! t = Some th -> co ∉ th_co_list th) ->
  worker_steps h text 6 (co_thread c)
    (pass_world w co (started_co h c f arg 2) AtWait evs)
  = Ok (drain_world w co (finished_co c f arg v) 1 0 0 false AtWait
          (EvYield co :: EvDone co :: EvRet co v :: EvCall f co arg :: EvEnter co :: evs)).
Proof.
  intros Hpure Habs. cbn [worker_steps].
  rewrite (pass_wait (started_co h c f arg 2)). cbn [mbind result_bind].
  rewrite pass_first by lia. cbn [mbind result_bind].
  rewrite (pass_enter (2 + 1) (2 + 1)) by apply Hpure. cbn [mbind result_bind].
  rewrite (drain_next h text w co (finished_co c f arg v)) by lia.
  cbn [mbind result_bind].
  rewrite (drain_requeue_last h text w co (finished_co c f arg v) Habs) by lia.
  cbn [mbind result_bind].
  rewrite (drain_pass_end h text w co (finished_co c f arg v)) by lia.
  reflexivity.
Qed.

(** The last signal of a coroutine whose only reference is that of the
    list: the worker takes it out of the list and destroys it. *)
Lemma pass_destroy (evs : list event) :
  (forall t th, threads w !! t = Some th -> co ∉ th_co_list th) ->
  coroutine_thread_routine h text (co_thread c)
    (drain_world w co (finished_co c f arg v) 1 1 1 true (AtRequeue co None) evs)
  = Ok {| cos := delete co (cos w);
          threads := <[co_thread c := {| th_co_list := []; th_signaled := 1;
                                         th_stopping := false; th_task := AtPassEnd |}]>
                       (threads w);
          mem := mem w;
          trace := EvKfree co :: EvKfree (co_stack c) :: evs ++ trace w |}.
Proof.
  intros Habs. destruct (check_magic_Ok c w Hmagic) as (Hm & Hbot & Htop).
  unfold coroutine_thread_routine. ws.
  change (atomic_dec_and_test 1) with (0, true). simpl.
  unfold list_del_init. ws. unfold coroutine_deref. ws.
  change (atomic_dec_and_test 1) with (0, true). simpl.
  unfold coroutine_delete. ws.
  unfold check_magic at 1, load. simpl.
  rewrite Hm, Z.eqb_refl. fold (stack_bottom (co_stack c)). rewrite Hbot.
  cbn [mbind result_bind of_option BUG_ON negb].
  rewrite Z.eqb_refl. cbn [mbind result_bind of_option BUG_ON negb].
  fold (stack_top h (co_stack c)). rewrite Htop.
  cbn [mbind result_bind of_option BUG_ON negb].
  rewrite Z.eqb_refl. cbn [mbind result_bind of_option BUG_ON negb].
  unfold list_del_init. ws.
  rewrite fmap_insert, lookup_insert_eq. simpl. f_equal.
  unfold put_thread, free_co, log. simpl.
  rewrite ?insert_insert_eq, ?delete_insert_eq. simpl.
  rewrite fmap_insert, insert_insert_eq. simpl.
  rewrite list_del_self, (unlink_absent co w Habs). reflexivity.
Qed.

(** The whole pass when the function drops the reference of the creator and
    returns. *)
Lemma pass_all_release (evs : list event) :
  text f co arg = PDeref co (PReturn v) ->
  (forall t th, threads w !! t = Some th -> co ∉ th_co_list th) ->
  worker_steps h text 6 (co_thread c)
    (pass_world w co (started_co h c f arg 2) AtWait evs)
  = Ok {| cos := delete co (cos w);
          threads := <[co_thread c := {| th_co_list := []; th_signaled := 0;
                                         th_stopping := false; th_task := AtWait |}]>
                       (threads w);
          mem := mem w;
          trace := EvKfree co :: EvKfree (co_stack c) :: EvYield co :: EvDone co ::
                   EvRet co v :: EvCall f co arg :: EvEnter co :: evs ++ trace w |}.
Proof.
  intros Hbody Habs. cbn [worker_steps].
  rewrite (pass_wait (started_co h c f arg 2)). cbn [mbind result_bind].
  rewrite pass_first by lia. cbn [mbind result_bind].
  rewrite (pass_enter (2 + 1) 2).
  2:{ rewrite Hbody. simpl. unfold coroutine_deref. ws.
      change (atomic_dec_and_test 3) with (2, false). simpl. do 2 f_equal.
      unfold pass_world, put_co. simpl. rewrite insert_insert_eq. reflexivity. }
  cbn [mbind result_bind].
  rewrite (drain_next h text w co (finished_co c f arg v)) by lia.
  cbn [mbind result_bind]. change (2 - 1) with 1.
  rewrite (pass_destroy _ Habs). cbn [mbind result_bind].
  unfold coroutine_thread_routine. ws.
  change (atomic_dec_and_test 1) with (0, true). simpl. ws. f_equal.
  unfold put_thread. simpl. rewrite !insert_insert_eq. reflexivity.
Qed.

End Completes.

Section CompletesMain.

Variable h : coroutine_h.
Variable text : Z -> Z -> Z -> prog.

(** X14: a coroutine with its creator's reference, started on a thread
    whose worker is parked with an empty list, runs to its end in one pass of
    the worker when its function returns without calling the coroutine API:
    after [coroutine_start] and six steps of the worker the function has been
    called once, with the coroutine and [arg], its return value is in [ret],
    [running] is false, the coroutine is out of the list with the reference
    of its creator as the only one, and the worker is parked again, where it
    stays. *)
Theorem started_coroutine_completes (co f arg v : Z) (c : coroutine) (w : world)
    (n : nat) :
  wf_stacks h w ->
  quiescent co c w ->
  co_ref_count c = 1 ->
  check_magic h c w = Ok tt ->
  f ≠ 0 ->
  (forall w0, run_prog h text co (text f co arg) w0 = Ok (Some v, w0)) ->
  (w1 ← coroutine_start h co f arg w; worker_steps h text (6 + n) (co_thread c) w1)
  = Ok {| cos := <[co := finished_co c f arg v]> (cos w);
          threads := threads w;
          mem := mem w;
          trace := EvYield co :: EvDone co :: EvRet co v :: EvCall f co arg ::
                   EvEnter co :: EvWake (co_thread c) :: trace w |}.
Proof.
  intros Hwf (Hc & Hl & Hs & (th & Ht & Hlist & Hts & Hstop & Hpc) & Habs)
    Href Hmagic Hf Hpure.
  destruct (check_magic_Ok h c w Hmagic) as (Hm & _ & _).
  assert (Hstart : coroutine_start h co f arg w =
            Ok (pass_world w co (started_co h c f arg 2) AtWait [EvWake (co_thread c)])).
  { unfold coroutine_start, get_co. rewrite Hc. simpl. rewrite Hm, Z.eqb_refl. simpl.
    erewrite coroutine_signal_effect.
    2:{ simpl. apply lookup_insert_eq. }
    2:{ simpl. exact Ht. }
    unfold signalled_co, signalled_thread, pass_world, started_co. simpl.
    rewrite Hl, Hs, Href, Hlist, Hts, Hstop, Hpc. rewrite insert_insert_eq.
    reflexivity. }
  rewrite Hstart. cbn [mbind result_bind].
  rewrite worker_steps_app.
  pose proof (pass_all h text w co f arg v c Hwf Hc Hmagic Hf
                [EvWake (co_thread c)] Hpure Habs) as Hpass.
  rewrite Hpass.
  cbn [mbind result_bind].
  assert (Hth : th = {| th_co_list := []; th_signaled := 0; th_stopping := false;
                        th_task := AtWait |})
    by (destruct th; simpl in *; subst; reflexivity).
  erewrite worker_parked;
    [|simpl; apply lookup_insert_eq|reflexivity|reflexivity|reflexivity].
  f_equal. unfold drain_world, cancelled_co, finished_co. simpl.
  rewrite <- Hth, (insert_id (threads w) _ _ Ht). reflexivity.
Qed.

(** X16: a coroutine whose function drops the reference of the creator
    and returns, which are the coroutine calls of [tlb_con_coroutine], is not
    destroyed while it runs, since the list and the worker hold references,
    but by the worker at the end of the pass, after the trampoline has stored
    the return value and yielded for the last time: the stack is freed, then
    the object, the list is empty and the worker parks. *)
Theorem released_coroutine_destroyed (co f arg v : Z) (c : coroutine) (w : world)
    (n : nat) :
  wf_stacks h w ->
  quiescent co c w ->
  co_ref_count c = 1 ->
  check_magic h c w = Ok tt ->
  f ≠ 0 ->
  text f co arg = PDeref co (PReturn v) ->
  (w1 ← coroutine_start h co f arg w; worker_steps h text (6 + n) (co_thread c) w1)
  = Ok {| cos := delete co (cos w);
          threads := threads w;
          mem := mem w;
          trace := EvKfree co :: EvKfree (co_stack c) :: EvYield co :: EvDone co ::
                   EvRet co v :: EvCall f co arg :: EvEnter co ::
                   EvWake (co_thread c) :: trace w |}.
Proof.
  intros Hwf (Hc & Hl & Hs & (th & Ht & Hlist & Hts & Hstop & Hpc) & Habs)
    Href Hmagic Hf Hbody.
  destruct (check_magic_Ok h c w Hmagic) as (Hm & _ & _).
  assert (Hstart : coroutine_start h co f arg w =
            Ok (pass_world w co (started_co h c f arg 2) AtWait [EvWake (co_thread c)])).
  { unfold coroutine_start, get_co. rewrite Hc. simpl. rewrite Hm, Z.eqb_refl. simpl.
    erewrite coroutine_signal_effect.
    2:{ simpl. apply lookup_insert_eq. }
    2:{ simpl. exact Ht. }
    unfold signalled_co, signalled_thread, pass_world, started_co. simpl.
    rewrite Hl, Hs, Href, Hlist, Hts, Hstop, Hpc. rewrite insert_insert_eq.
    reflexivity. }
  rewrite Hstart. cbn [mbind result_bind].
  rewrite worker_steps_app.
  rewrite (pass_all_release h text w co f arg v c Hwf Hc Hmagic Hf
             [EvWake (co_thread c)] Hbody Habs).
  cbn [mbind result_bind].
  assert (Hth : th = {| th_co_list := []; th_signaled := 0; th_stopping := false;
                        th_task := AtWait |})
    by (destruct th; simpl in *; subst; reflexivity).
  erewrite worker_parked;
    [|simpl; apply lookup_insert_eq|reflexivity|reflexivity|reflexivity].
  f_equal. rewrite <- Hth, (insert_id (threads w) _ _ Ht). reflexivity.
Qed.

End CompletesMain.

(** ** The magic words *)

Section Canaries.

Variable h : coroutine_h.
Variable text : Z -> Z -> Z -> prog.



End Canaries.

(** * The properties at sample values *)

Lemma created_world_wf : wf_stacks h_8k created_world.
Proof.
  apply (coroutine_create_wf h_8k 100 1000 8192 one_thread_world (Some 1000) created_world).
  - apply wf_stacks_empty; [vm_compute; discriminate| |reflexivity].
    split; vm_compute; discriminate.
  - split; vm_compute; [discriminate|reflexivity].
  - vm_compute; discriminate.
  - vm_compute; discriminate.
  - vm_compute; reflexivity.
  - intros x c Hx. vm_compute in Hx. discriminate.
  - vm_compute; reflexivity.
Defined.


Lemma threads_of_requeue_world :
  threads requeue_world =
  <[100 := {| th_co_list := [1000]; th_signaled := 2; th_stopping := false;
              th_task := AtRequeue 1000 None |}]> ∅.
Proof. vm_compute; reflexivity. Qed.

Lemma worker_refines_spec_witness :
  spec_scheduler_loop h_8k sample_text 100 requeue_world
  = coroutine_thread_routine h_8k sample_text 100 requeue_world.
Proof.
  symmetry.
  rewrite (worker_refines_spec h_8k sample_text 100 requeue_world
             (the empty_world (coroutine_thread_routine h_8k sample_text 100 requeue_world))).
  - vm_compute; reflexivity.
  - intros th Hth. rewrite threads_of_requeue_world, lookup_insert_eq in Hth.
    injection Hth as <-. split; [vm_compute; discriminate|].
    intros co c Hin Hc. simpl in Hin. apply list_elem_of_singleton in Hin. subst co.
    vm_compute in Hc. injection Hc as <-. split; [reflexivity|].
    intros t' th' Hne Ht'.
    rewrite threads_of_requeue_world, lookup_insert_ne, lookup_empty in Ht' by congruence.
    discriminate.
  - vm_compute; reflexivity.
Defined.

Lemma signal_enqueues_once_witness :
  exists w' c' th',
    signal_times 3 1000 created_world = Ok w' /\
    cos w' = <[1000 := c']> (cos created_world) /\
    threads w' = <[100 := th']> (threads created_world) /\
    th_co_list th' = [1000] /\ co_ref_count c' = 2 /\
    co_signaled c' = 3 /\ th_signaled th' = 3 /\ co_list_entry c' = true /\
    NoDup (th_co_list th') /\ 1000 ∈ th_co_list th'.
Proof.
  apply (signal_enqueues_once 2 1000 (sample_co created_world)
           (sample_thread created_world) created_world).
  - vm_compute; reflexivity.
  - vm_compute; reflexivity.
  - apply NoDup_nil_2.
  - split; [discriminate|]. intros Hin. vm_compute in Hin. inversion Hin.
Defined.

Lemma threads_of_created_world :
  threads created_world =
  <[100 := {| th_co_list := []; th_signaled := 0; th_stopping := false;
              th_task := AtWait |}]> ∅.
Proof. vm_compute; reflexivity. Qed.

Lemma created_world_quiescent : quiescent 1000 (sample_co created_world) created_world.
Proof.
  split; [vm_compute; reflexivity|]. split; [reflexivity|]. split; [reflexivity|].
  split.
  - exists (sample_thread created_world). repeat split; vm_compute; reflexivity.
  - intros t th Ht. rewrite threads_of_created_world in Ht.
    destruct (decide (t = 100)) as [->|Hne].
    + rewrite lookup_insert_eq in Ht. injection Ht as <-. simpl. intros Hin. inversion Hin.
    + rewrite lookup_insert_ne, lookup_empty in Ht by congruence. discriminate.
Defined.


Lemma final_deref_destroys_witness :
  exists w', coroutine_deref h_8k 1000 queued_world = Ok w' /\
    cos w' = delete 1000 (cos queued_world) /\ mem w' = mem queued_world /\
    trace w' = EvKfree 1000 :: EvKfree 8192 :: trace queued_world /\
    (co_list_entry (sample_co queued_world) = false ->
     threads w' = threads queued_world) /\
    (co_list_entry (sample_co queued_world) = true ->
     forall t th, threads w' !! t = Some th -> 1000 ∉ th_co_list th).
Proof.
  apply (proj2 (final_deref_destroys h_8k 1000 (sample_co queued_world) queued_world
                  ltac:(vm_compute; reflexivity) ltac:(reflexivity))).
  vm_compute; reflexivity.
Defined.


Lemma coroutine_create_witness :
  exists w', coroutine_create h_8k 100 (Some 1000) (Some 8192) one_thread_world
             = Ok (Some 1000, w').
Proof.
  refine (proj2 (proj2 (coroutine_create_result h_8k 100 (Some 1000) (Some 8192)
                          one_thread_world _ _)) 1000 8192 eq_refl eq_refl _).
  - vm_compute. discriminate.
  - intros co stack [= <-] [= <-]. vm_compute.
    repeat split; try discriminate; reflexivity.
  - reflexivity.
Defined.

Lemma coroutine_wait_witness :
  run_prog h_8k sample_text 2000 (PWait 1000 (fun v => PReturn v)) finished_world
  = Ok (Some 42, finished_world).
Proof.
  rewrite (proj1 (coroutine_wait_loop h_8k sample_text 2000 1000 (fun v => PReturn v)
                    (sample_co finished_world) finished_world
                    ltac:(vm_compute; reflexivity))).
  vm_compute; reflexivity.
Defined.

Lemma tlb_server_start_witness :
  exists sw',
    tlb_server_start h_8k sample_text 8 100 sample_env 1 "0123456789" 80
      sample_server_world = Ok (0, sw') /\
    srv_host (sw_srv sw') = "0123456" /\
    srv_listen_sock (sw_srv sw') = 5 /\
    srv_listen_thread (sw_srv sw') = 2 /\
    (exists th, threads (sw_world sw') !! 100 = Some th /\ th_task th = AtWait) /\
    trace (sw_world sw') = [EvTaskWake 2; EvListen "0123456" 80].
Proof.
  apply (tlb_server_start_long_host h_8k sample_text 8 100 sample_env 1 "0123456789"
           80 5 1 2 sample_server_world).
  - vm_compute. split; [discriminate|reflexivity].
  - reflexivity.
  - reflexivity.
  - reflexivity.
Defined.

Lemma accept_round_witness :
  tlb_server_listen_thread_routine h_8k 1 100 7 [sample_round] sample_server_world =
  Ok (None,
      {| sw_srv := zero_server;
         sw_cons := <[500 := {| con_sock := 0; con_co := 1000; con_srv := 1 |}]> ∅;
         sw_world :=
           {| cos := delete 1000 ∅; threads := ∅;
              mem := <[8192 + COROUTINE_STACK_SIZE h_8k - 2 * sizeof_ulong := 1000]>
                       (<[8192 + COROUTINE_STACK_SIZE h_8k - sizeof_ulong :=
                            COROUTINE_STACK_TOP_MAGIC h_8k]>
                          (<[8192 := COROUTINE_STACK_BOTTOM_MAGIC h_8k]> ∅));
              trace := [EvKfree 1000; EvKfree 8192; EvKmalloc 8192; EvKmalloc 1000;
                        EvKmalloc 500] |} |}).
Proof.
  rewrite (proj1 (accept_round_failures h_8k 1 100 7 sample_round [] sample_server_world
                    ltac:(vm_compute; discriminate) eq_refl eq_refl)
             500 1000 8192 eq_refl eq_refl eq_refl).
  - reflexivity.
  - vm_compute. discriminate.
  - vm_compute. split; [discriminate|reflexivity].
  - vm_compute. discriminate.
  - vm_compute. discriminate.
  - reflexivity.
Defined.

(** ** The further properties at sample values *)

Lemma created_world_lists : lists_inv created_world.
Proof.
  apply lists_inv_idle. intros t th Ht. rewrite threads_of_created_world in Ht.
  destruct (decide (t = 100)) as [->|Hne].
  - rewrite lookup_insert_eq in Ht. injection Ht as <-. split; reflexivity.
  - rewrite lookup_insert_ne, lookup_empty in Ht by congruence. discriminate.
Qed.

Lemma started_world_lists : lists_inv started_world.
Proof.
  apply (closed_lists_inv h_8k created_world started_world); [|exact created_world_lists].
  intros I cl Hw.
  apply (coroutine_start_keeps h_8k I cl 1000 7 41 created_world started_world Hw).
  vm_compute; reflexivity.
Qed.



Lemma run_lists_inv_witness : lists_inv finished_world.
Proof.
  apply (run_lists_inv h_8k sample_text sample_run started_world finished_world).
  - exact started_world_lists.
  - vm_compute; reflexivity.
Defined.

Lemma coroutine_ref_deref_witness :
  (w1 ← coroutine_ref 1000 created_world; coroutine_deref h_8k 1000 w1) = Ok created_world.
Proof.
  apply (coroutine_ref_deref h_8k 1000 (sample_co created_world) created_world).
  - vm_compute; reflexivity.
  - vm_compute. split; [discriminate|reflexivity].
  - vm_compute; discriminate.
Defined.

Lemma next_coroutine_first_witness :
  exists r w', coroutine_thread_next_coroutine h_8k 100 None two_started = Ok (r, w') /\
    match r with
    | Some x =>
      exists l1 l2 c, [1000; 2000] = l1 ++ x :: l2 /\
        (forall y cy, y ∈ l1 -> cos two_started !! y = Some cy -> co_ref_count cy = 0) /\
        cos two_started !! x = Some c /\ co_ref_count c ≠ 0 /\
        w' = put_co x (set_co_ref_count (int32 (co_ref_count c + 1)) c) two_started
    | None =>
      w' = two_started /\
      forall y cy, y ∈ [1000; 2000] -> cos two_started !! y = Some cy ->
                   co_ref_count cy = 0
    end.
Proof.
  apply (next_coroutine_first h_8k 100
           {| th_co_list := [1000; 2000]; th_signaled := 2; th_stopping := false;
              th_task := AtWait |} two_started).
  - vm_compute; reflexivity.
  - intros x Hx. simpl in Hx.
    apply elem_of_cons in Hx. destruct Hx as [->|Hx]; [vm_compute; eauto|].
    apply list_elem_of_singleton in Hx. subst x. vm_compute; eauto.
Defined.

Lemma next_coroutine_after_witness :
  (2000 ∈ [2000] /\ 2000 ≠ 1000 /\
   exists cn, cos two_entered !! 2000 = Some cn /\ co_ref_count cn ≠ 0 /\
     cos (snd (the (None, empty_world)
                 (coroutine_thread_next_coroutine h_8k 100 (Some 1000) two_entered)))
       !! 2000 = Some (set_co_ref_count (int32 (co_ref_count cn + 1)) cn)) /\
  exists w1, first_usable [2000] two_entered = Ok (Some 2000, w1) /\
    coroutine_deref h_8k 1000 w1 =
      Ok (snd (the (None, empty_world)
                 (coroutine_thread_next_coroutine h_8k 100 (Some 1000) two_entered))).
Proof.
  apply (next_coroutine_after h_8k 100 (sample_thread two_entered) 1000
           (sample_co two_entered) [] [2000] two_entered (Some 2000)).
  - vm_compute; reflexivity.
  - vm_compute; reflexivity.
  - change (th_co_list (sample_thread two_entered)) with [1000; 2000].
    apply NoDup_cons. split; [|apply NoDup_singleton].
    intros Hin. apply list_elem_of_singleton in Hin. discriminate.
  - vm_compute; reflexivity.
  - vm_compute; reflexivity.
  - intros x Hx. apply list_elem_of_singleton in Hx. subst x. vm_compute; eauto.
  - vm_compute; reflexivity.
Defined.

Lemma coroutine_thread_stop_result_witness :
  lists_inv (the empty_world (coroutine_thread_stop h_8k sample_text 1 100 started_world)) /\
  exists th',
    threads (the empty_world (coroutine_thread_stop h_8k sample_text 1 100 started_world))
      !! 100 = Some th' /\
    th_co_list th' = [] /\ th_task th' = AtReturn.
Proof.
  apply (coroutine_thread_stop_result h_8k sample_text 1 100 started_world).
  - exact started_world_lists.
  - vm_compute; reflexivity.
Defined.

Lemma coroutine_thread_stop_parked_witness :
  threads (the empty_world (coroutine_thread_stop h_8k sample_text 1 100 started_world))
    !! 100 = Some {| th_co_list := []; th_signaled := 1; th_stopping := true;
                     th_task := AtReturn |} /\
  exists evs,
    trace (the empty_world (coroutine_thread_stop h_8k sample_text 1 100 started_world))
      = evs ++ EvWake 100 :: trace started_world /\
    forallb is_kfree evs = true.
Proof.
  apply (coroutine_thread_stop_parked h_8k sample_text 0 100
           (sample_thread started_world) started_world).
  - vm_compute; reflexivity.
  - vm_compute; reflexivity.
  - vm_compute; reflexivity.
Defined.

Lemma tlb_server_start_listen_fails_witness :
  exists evs sw',
    tlb_server_start h_8k sample_text 8 100 env_refused 1 "0.0.0.0" 80 sample_server_world
      = Ok (-13, sw') /\
    sw_world sw' = logs evs empty_world /\
    sw_cons sw' = ∅ /\
    srv_listen_sock (sw_srv sw') = 0 /\
    count_events is_listen evs = 5%nat /\
    count_events is_sleep evs = 1%nat /\
    Forall (fun e => e = EvListen "0.0.0.0" 80 \/ e = EvSleep 100) evs.
Proof.
  apply (tlb_server_start_listen_fails h_8k sample_text 8 100 env_refused 1 "0.0.0.0" 80
           sample_server_world).
  - vm_compute; reflexivity.
  - intros j Hj. do 5 (destruct j as [|j]; [vm_compute; discriminate|]). lia.
Defined.

Lemma tlb_server_start_retries_witness :
  exists evs sw',
    tlb_server_start h_8k sample_text 8 100 env_busy 1 "0.0.0.0" 80 sample_server_world
      = Ok (0, sw') /\
    count_events is_listen evs = 3%nat /\ count_events is_sleep evs = 2%nat /\
    srv_listen_sock (sw_srv sw') = 5 /\
    srv_listen_thread (sw_srv sw') = 2 /\
    threads (sw_world sw') !! 100 =
      Some {| th_co_list := []; th_signaled := 0; th_stopping := false;
              th_task := AtWait |} /\
    trace (sw_world sw') = EvTaskWake 2 :: evs ++ [].
Proof.
  apply (tlb_server_start_retries h_8k sample_text 8 100 env_busy 1 "0.0.0.0" 80
           sample_server_world 2 5 1 2).
  - vm_compute; reflexivity.
  - lia.
  - intros j Hj. do 2 (destruct j as [|j]; [vm_compute; discriminate|]). lia.
  - reflexivity.
  - reflexivity.
  - reflexivity.
Defined.

Lemma tlb_server_start_no_worker_witness :
  exists evs sw',
    tlb_server_start h_8k sample_text 8 100 env_no_worker 1 "0.0.0.0" 80
      sample_server_world = Ok (-12, sw') /\
    count_events is_listen evs = 1%nat /\
    Forall (fun e => e = EvListen "0.0.0.0" 80 \/ e = EvSleep 100) evs /\
    trace (sw_world sw') = EvSockRelease 5 :: evs ++ [] /\
    srv_listen_thread (sw_srv sw') = 0 /\
    threads (sw_world sw') !! 100 =
      Some {| th_co_list := []; th_signaled := 0; th_stopping := false;
              th_task := AtReturn |}.
Proof.
  apply (tlb_server_start_no_worker h_8k sample_text 8 100 env_no_worker 1 "0.0.0.0" 80
           sample_server_world 0 5 (-12)).
  - vm_compute; reflexivity.
  - lia.
  - intros j Hj. lia.
  - reflexivity.
  - reflexivity.
  - discriminate.
Defined.

Lemma tlb_server_start_no_listener_witness :
  exists evs sw',
    tlb_server_start h_8k sample_text 8 100 env_no_listener 1 "0.0.0.0" 80
      sample_server_world = Ok (-12, sw') /\
    count_events is_listen evs = 1%nat /\
    Forall (fun e => e = EvListen "0.0.0.0" 80 \/ e = EvSleep 100) evs /\
    trace (sw_world sw') = EvSockRelease 5 :: EvWake 100 :: evs ++ [] /\
    cos (sw_world sw') = ∅ /\
    threads (sw_world sw') !! 100 =
      Some {| th_co_list := []; th_signaled := 0; th_stopping := true;
              th_task := AtReturn |}.
Proof.
  apply (tlb_server_start_no_listener h_8k sample_text 8 100 env_no_listener 0 "0.0.0.0"
           80 sample_server_world 0 5 1 (-12)).
  - vm_compute; reflexivity.
  - lia.
  - intros j Hj. lia.
  - reflexivity.
  - reflexivity.
  - reflexivity.
Defined.

Lemma accept_round_starts_witness :
  tlb_server_listen_thread_routine h_8k 1 100 7 [accepted_round] served_world =
  Ok (None,
      {| sw_srv := zero_server;
         sw_cons := <[500 := {| con_sock := 9; con_co := 1000; con_srv := 1 |}]> ∅;
         sw_world :=
           {| cos := <[1000 := {| co_magic := COROUTINE_MAGIC h_8k; co_thread := 100;
                                  co_stack := 8192;
                                  co_ctx := CtxTrampoline (stack_self h_8k 8192);
                                  co_fun := 7; co_arg := 500; co_ret := 0;
                                  co_running := true; co_ref_count := 2;
                                  co_signaled := 1; co_list_entry := true |}]> ∅;
              threads := <[100 := {| th_co_list := [1000]; th_signaled := 1;
                                     th_stopping := false; th_task := AtWait |}]>
                           (threads one_thread_world);
              mem := <[8192 + COROUTINE_STACK_SIZE h_8k - 2 * sizeof_ulong := 1000]>
                       (<[8192 + COROUTINE_STACK_SIZE h_8k - sizeof_ulong :=
                            COROUTINE_STACK_TOP_MAGIC h_8k]>
                          (<[8192 := COROUTINE_STACK_BOTTOM_MAGIC h_8k]> ∅));
              trace := [EvWake 100; EvKmalloc 8192; EvKmalloc 1000; EvKmalloc 500] |} |}).
Proof.
  rewrite (accept_round_starts h_8k 1 100 7 accepted_round [] served_world 500 1000 8192 9
             {| th_co_list := []; th_signaled := 0; th_stopping := false;
                th_task := AtWait |}).
  - reflexivity.
  - vm_compute. discriminate.
  - reflexivity.
  - reflexivity.
  - reflexivity.
  - reflexivity.
  - reflexivity.
  - reflexivity.
  - vm_compute. split; [discriminate|reflexivity].
  - vm_compute. discriminate.
  - vm_compute. discriminate.
  - reflexivity.
  - vm_compute; reflexivity.
Defined.

Lemma tlb_con_coroutine_drops_ref_witness :
  tlb_con_coroutine_body h_8k 1000 500 accepted_world =
  Ok (0,
      {| sw_srv := sw_srv accepted_world; sw_cons := sw_cons accepted_world;
         sw_world :=
           {| cos := <[1000 := set_co_ref_count 1 (sample_co (sw_world accepted_world))]>
                       (cos (sw_world accepted_world));
              threads := threads (sw_world accepted_world);
              mem := mem (sw_world accepted_world);
              trace := EvSockRelease 9 :: trace (sw_world accepted_world) |} |}).
Proof.
  apply (proj2 (tlb_con_coroutine_drops_ref h_8k 1000 500
                  {| con_sock := 9; con_co := 1000; con_srv := 1 |}
                  (sample_co (sw_world accepted_world)) accepted_world
                  ltac:(vm_compute; reflexivity) ltac:(vm_compute; reflexivity)
                  ltac:(vm_compute; discriminate))).
  reflexivity.
Defined.

Lemma started_coroutine_completes_witness :
  (w1 ← coroutine_start h_8k 1000 3 41 created_world;
   worker_steps h_8k sample_text 6 100 w1)
  = Ok {| cos := <[1000 := finished_co (sample_co created_world) 3 41 0]>
                   (cos created_world);
          threads := threads created_world;
          mem := mem created_world;
          trace := EvYield 1000 :: EvDone 1000 :: EvRet 1000 0 :: EvCall 3 1000 41 ::
                   EvEnter 1000 :: EvWake 100 :: trace created_world |}.
Proof.
  apply (started_coroutine_completes h_8k sample_text 1000 3 41 0
           (sample_co created_world) created_world 0).
  - exact created_world_wf.
  - exact created_world_quiescent.
  - reflexivity.
  - vm_compute; reflexivity.
  - discriminate.
  - intros w0. reflexivity.
Defined.

Lemma released_coroutine_destroyed_witness :
  (w1 ← coroutine_start h_8k 1000 3 41 created_world;
   worker_steps h_8k release_text 6 100 w1)
  = Ok {| cos := delete 1000 (cos created_world);
          threads := threads created_world;
          mem := mem created_world;
          trace := EvKfree 1000 :: EvKfree 8192 :: EvYield 1000 :: EvDone 1000 ::
                   EvRet 1000 0 :: EvCall 3 1000 41 :: EvEnter 1000 :: EvWake 100 ::
                   trace created_world |}.
Proof.
  apply (released_coroutine_destroyed h_8k release_text 1000 3 41 0
           (sample_co created_world) created_world 0).
  - exact created_world_wf.
  - exact created_world_quiescent.
  - reflexivity.
  - vm_compute; reflexivity.
  - discriminate.
  - reflexivity.
Defined.



